(** * CogniGrade front end: part-label tree, region capture and image assembly

    A shallow embedding of the JavaScript of [frontend/announcements_1.js],
    [frontend/crop-edit.js] and the exam-stage script, and the properties of
    its label engine, composition engine, capture controller, assembly
    pipeline and stage machine.

    Conventions of the embedding.
    - A JavaScript string is a list of characters ([str]); [lit] turns a Rocq
      string literal into one.
    - A JavaScript number that holds an integer is a [Z]; [NaN] is [None].
      Doubles are exact on every integer below 2^53, far above any label
      segment or pixel count the interface can produce.
    - Pixel coordinates that the code divides or scales are rationals ([Q]).
    - The DOM is explicit state: the list of part items of a question, the
      sidebar thumbnails, the overlay markers. *)

From Stdlib Require Import List Strings.String Strings.Ascii ZArith QArith Lia Bool.
From Stdlib Require Import Qround Qabs Qminmax Permutation Sorted.
From Stdlib Require Import Lqa.
Import ListNotations.

Local Open Scope Z_scope.
Local Open Scope list_scope.

(* ================================================================== *)
(** * JavaScript string and number primitives *)
(* ================================================================== *)

Module JS.

Definition str := list ascii.

Definition lit (s : string) : str := list_ascii_of_string s.

Definition dot : ascii := "."%char.

(** [a === b] on strings. *)
Fixpoint str_eqb (a b : str) : bool :=
  match a, b with
  | [], [] => true
  | c :: a', d :: b' => Ascii.eqb c d && str_eqb a' b'
  | _, _ => false
  end.

(** [s.startsWith(p)]. *)
Fixpoint startsWith (s p : str) {struct p} : bool :=
  match p, s with
  | [], _ => true
  | c :: p', d :: s' => Ascii.eqb c d && startsWith s' p'
  | _ :: _, [] => false
  end.

(** [s.split('.')]: never empty, [''.split('.')] is [['']]. *)
Fixpoint split_dot (s : str) : list str :=
  match s with
  | [] => [[]]
  | c :: s' =>
      if Ascii.eqb c dot then [] :: split_dot s'
      else match split_dot s' with
           | h :: t => (c :: h) :: t
           | [] => [[c]]
           end
  end.

(** [parts.join('.')]. *)
Fixpoint join_dot (l : list str) : str :=
  match l with
  | [] => []
  | [x] => x
  | x :: rest => x ++ dot :: join_dot rest
  end.

(** [s.lastIndexOf('.')], [-1] when there is no dot. *)
Fixpoint lastIndexOf_dot (s : str) : Z :=
  match s with
  | [] => -1
  | c :: s' =>
      let r := lastIndexOf_dot s' in
      if 0 <=? r then r + 1
      else if Ascii.eqb c dot then 0 else -1
  end.

(** [s.substring(0, n)] and [s.substring(n)] for [0 <= n]. *)
Definition substring_to (n : Z) (s : str) : str := firstn (Z.to_nat n) s.
Definition substring_from (n : Z) (s : str) : str := skipn (Z.to_nat n) s.

Definition str_length (s : str) : Z := Z.of_nat (List.length s).

(** ** Decimal digits *)

Definition digit_char (d : Z) : ascii := ascii_of_nat (48 + Z.to_nat d).

Definition digit_val (c : ascii) : option Z :=
  let n := Z.of_nat (nat_of_ascii c) in
  if (48 <=? n) && (n <=? 57) then Some (n - 48) else None.

(** Value of the longest prefix of decimal digits, with the number of digits
    read: the scanning loop shared by [parseInt] and [Number]. *)
Fixpoint scan_digits (s : str) (acc : Z) (read : nat) : Z * nat * str :=
  match s with
  | [] => (acc, read, [])
  | c :: s' =>
      match digit_val c with
      | Some d => scan_digits s' (10 * acc + d) (S read)
      | None => (acc, read, s)
      end
  end.

(** [parseInt(s, 10)] on an optional sign followed by digits; anything after
    the digits is ignored and no leading digit gives [NaN].  Leading white
    space is not modelled.  The value is the exact integer: it is the number
    of the script as long as the digits denote an integer below 2^53, above
    which the script rounds to the nearest double. *)
Definition parse_unsigned (s : str) : option Z :=
  match scan_digits s 0 0 with
  | (_, O, _) => None
  | (v, S _, _) => Some v
  end.

Definition parseInt (s : str) : option Z :=
  match s with
  | c :: s' =>
      if Ascii.eqb c "-"%char then option_map Z.opp (parse_unsigned s')
      else if Ascii.eqb c "+"%char then parse_unsigned s'
      else parse_unsigned s
  | [] => None
  end.

(** [Number(s)] on signed decimal integers: the whole string must be
    consumed, and the empty string is [0].  Other numeric literal forms
    (exponents, hexadecimal, surrounding white space) are not modelled, and
    the value is the exact integer: it is the number of the script on
    strings of digits that denote an integer below 2^53. *)
Definition number_unsigned (s : str) : option Z :=
  match scan_digits s 0 0 with
  | (v, S _, []) => Some v
  | _ => None
  end.

Definition Number (s : str) : option Z :=
  match s with
  | [] => Some 0
  | c :: s' =>
      if Ascii.eqb c "-"%char then option_map Z.opp (number_unsigned s')
      else if Ascii.eqb c "+"%char then number_unsigned s'
      else number_unsigned s
  end.

(** Number-to-string conversion of an integer: decimal, no leading zero. *)
Fixpoint digits_of (fuel : nat) (n : Z) (acc : str) : str :=
  match fuel with
  | O => acc
  | S f =>
      let acc' := digit_char (n mod 10) :: acc in
      if n <? 10 then acc' else digits_of f (n / 10) acc'
  end.

Definition toString (n : Z) : str :=
  if n <? 0 then "-"%char :: digits_of (S (Z.to_nat (- n))) (- n) []
  else digits_of (S (Z.to_nat n)) n [].

(** [a > b] on numbers: false as soon as one side is [NaN]. *)
Definition num_gt (a b : option Z) : bool :=
  match a, b with
  | Some x, Some y => y <? x
  | _, _ => false
  end.

(** [x || 0] on a number: [NaN] and [0] both give [0]. *)
Definition or_zero (a : option Z) : Z :=
  match a with Some x => x | None => 0 end.

(** [Math.max(...l)] on a non-empty list of integers.  On the empty list
    JavaScript gives [-Infinity]; the one caller guards that case, and the
    model returns [0] there. *)
Definition Math_max (l : list Z) : Z :=
  match l with
  | [] => 0
  | x :: r => fold_left Z.max r x
  end.

(** [array.sort(cmp)]: the sort is stable, so for a consistent comparator
    its result is the one of a stable insertion sort.  [cmp a b] is the sign
    test [cmp(a, b) <= 0].  For a comparator that is not consistent the
    result of the script depends on the engine and this definition fixes one
    choice; the comparators of the script are consistent on dotted-decimal
    labels with segments below 2^53. *)
Section Sort.
Context {A : Type}.
Variable le : A -> A -> bool.

Fixpoint insert_sorted (x : A) (l : list A) : list A :=
  match l with
  | [] => [x]
  | y :: l' => if le x y then x :: l else y :: insert_sorted x l'
  end.

Definition array_sort (l : list A) : list A :=
  fold_right insert_sorted [] l.
End Sort.

End JS.

Import JS.

(* ================================================================== *)
(** * Label tree engine ([announcements_1.js]) *)
(* ================================================================== *)

Module LabelTree.

(** The number of dot-separated segments, [label.split('.').length]. *)
Definition depth (label : str) : Z := Z.of_nat (List.length (split_dot label)).

(** [parts.pop()] read-only: the last segment. *)
Definition last_segment (label : str) : str := last (split_dot label) [].

(** ** [sortPartLabels] *)

(** The comparator loop over [i = 0 .. max(len) - 1]; [n] counts the
    remaining iterations.  A missing segment is [-1]; a [NaN] difference is a
    [NaN] result. *)
Fixpoint compare_from (aParts bParts : list (option Z)) (i n : nat) : option Z :=
  match n with
  | O => Some (Z.of_nat (List.length aParts) - Z.of_nat (List.length bParts))
  | S n' =>
      let aVal := nth i aParts (Some (-1)) in
      let bVal := nth i bParts (Some (-1)) in
      match aVal, bVal with
      | Some x, Some y =>
          if negb (x =? y) then Some (x - y)
          else compare_from aParts bParts (S i) n'
      | _, _ => None
      end
  end.

Definition compareLabels (a b : str) : option Z :=
  let aParts := map Number (split_dot a) in
  let bParts := map Number (split_dot b) in
  compare_from aParts bParts 0 (Nat.max (List.length aParts) (List.length bParts)).

(** The sort keeps [a] before [b] when the comparator is not positive
    ([NaN] counts as [0]). *)
Definition label_leb (a b : str) : bool :=
  match compareLabels a b with
  | Some d => d <=? 0
  | None => true
  end.

Definition sortPartLabels (labels : list str) : list str :=
  array_sort label_leb labels.

(** ** The outcome of an edit of the part list of one question

    The part items of the DOM are the store; an edit either alerts and
    leaves them as they are or renders a new list. *)
Record outcome := Outcome {
  alert : option string;
  parts : list str
}.

(** The direct children of [parent] among [labels], as both add operations
    and [removePart] select them. *)
Definition is_direct_child (parent : str) (label : str) : bool :=
  if startsWith label (parent ++ [dot])
  then depth label =? depth parent + 1
  else false.

Definition directChildren (labels : list str) (parent : str) : list str :=
  filter (is_direct_child parent) labels.

(** ** [addSubpartToQuestion]

    [highest + 1] is the exact successor; the script computes the same
    number as long as [highest] is below 2^53. *)
Definition addSubpartToQuestion (parentQuestionNumber : str) (partLabels : list str)
  : outcome :=
  let mainParts :=
    filter (fun label => startsWith label (parentQuestionNumber ++ [dot])) partLabels in
  if 6 <=? Z.of_nat (List.length mainParts) then
    Outcome (Some "Maximum of 6 subparts reached for this question"%string) partLabels
  else
    let newLabel :=
      match mainParts with
      | [] => parentQuestionNumber ++ lit ".1"
      | _ =>
          let highest :=
            Math_max (map (fun l => or_zero (parseInt (nth 1 (split_dot l) []))) mainParts) in
          parentQuestionNumber ++ dot :: toString (highest + 1)
      end in
    Outcome None (sortPartLabels (partLabels ++ [newLabel])).

(** ** [addSubpart]

    [highestSubpart + 1] is the exact successor; the script computes the
    same number as long as the suffixes are below 2^53. *)
Definition highestSubpart (partLabels : list str) (parentLabel : str) : Z :=
  fold_left
    (fun highest label =>
       if str_eqb label parentLabel then highest
       else if startsWith label (parentLabel ++ [dot]) then
         if depth label =? depth parentLabel + 1 then
           match parseInt (last_segment label) with
           | Some lastPart => if highest <? lastPart then lastPart else highest
           | None => highest
           end
         else highest
       else highest)
    partLabels 0.

Definition addSubpart (partLabels : list str) (parentLabel : str) : outcome :=
  let parentDepth := depth parentLabel in
  if 6 <=? parentDepth then
    Outcome (Some "No more sublevels are allowed"%string) partLabels
  else if 6 <=? Z.of_nat (List.length (directChildren partLabels parentLabel)) then
    Outcome (Some "Maximum of 6 subparts reached for this part"%string) partLabels
  else
    let newLabel :=
      parentLabel ++ dot :: toString (highestSubpart partLabels parentLabel + 1) in
    Outcome None (sortPartLabels (partLabels ++ [newLabel])).

(** ** [removePart] *)

(** [lastDot > 0 ? labelToRemove.substring(0, lastDot) : null]; the test
    [if (parent)] also rejects the empty string. *)
Definition parentOf (label : str) : option str :=
  let lastDot := lastIndexOf_dot label in
  if 0 <? lastDot then
    match substring_to lastDot label with
    | [] => None
    | p => Some p
    end
  else None.

Definition in_subtree (root : str) (pl : str) : bool :=
  str_eqb pl root || startsWith pl (root ++ [dot]).

(** The comparator [aNum - bNum] of the sibling sort. *)
Definition sibling_leb (a b : str) : bool :=
  match parseInt (last_segment a), parseInt (last_segment b) with
  | Some x, Some y => x - y <=? 0
  | _, _ => true
  end.

(** One turn of [siblings.forEach]. *)
Definition renumber_step (parent : str) (removedNum : option Z)
  (partLabels : list str) (sib : str) : list str :=
  match parseInt (last_segment sib) with
  | Some sibNumber =>
      if num_gt (Some sibNumber) removedNum then
        let oldPrefix := parent ++ dot :: toString sibNumber in
        let newPrefix := parent ++ dot :: toString (sibNumber - 1) in
        map (fun pl =>
               if in_subtree oldPrefix pl
               then newPrefix ++ substring_from (str_length oldPrefix) pl
               else pl)
            partLabels
      else partLabels
  | None => partLabels
  end.

Definition removePart (confirmed : bool) (partLabels : list str) (labelToRemove : str)
  : list str :=
  if negb confirmed then partLabels
  else
    let partLabels := filter (fun pl => negb (in_subtree labelToRemove pl)) partLabels in
    match parentOf labelToRemove with
    | Some parent =>
        let siblings := array_sort sibling_leb (directChildren partLabels parent) in
        let removedNum := parseInt (last_segment labelToRemove) in
        fold_left (renumber_step parent removedNum) siblings partLabels
    | None => partLabels
    end.

End LabelTree.

Import LabelTree.

(* ================================================================== *)
(** * Composition engine ([crop-edit.js]) *)
(* ================================================================== *)

Module Composition.

(** What a raster shows.  A data URL is modelled by the picture it encodes:
    the size of the raster and the list of source fragments drawn on it, each
    with the position of its top-left corner. *)
Inductive source :=
| Caption (text : str)
| BoxCrop (page : nat) (sx sy sw sh : Q)
| PathCrop (page : nat) (ratio : Q) (points : list (Q * Q)).

Record placed := Placed {
  what : source;
  at_x : Q;
  at_y : Z
}.

Record image := Image {
  naturalWidth : Z;
  naturalHeight : Z;
  content : list placed
}.

(** One call [ctx.drawImage(img, x, y)]. *)
Record draw := Draw {
  drawn : image;
  draw_x : Q;
  draw_y : Z
}.

Record canvas := Canvas {
  canvas_width : Z;
  canvas_height : Z;
  draws : list draw
}.

(** The first [forEach] of [concatenateImages]. *)
Definition measure (images : list image) : Z * Z :=
  fold_left
    (fun '(maxWidth, totalHeight) img =>
       (Z.max maxWidth (naturalWidth img), totalHeight + naturalHeight img))
    images (0, 0).

(** The second [forEach]: the draw calls, with [currentY] threaded. *)
Fixpoint draw_all (maxWidth : Z) (currentY : Z) (images : list image) : list draw :=
  match images with
  | [] => []
  | img :: rest =>
      let x := (inject_Z (maxWidth - naturalWidth img) / 2)%Q in
      Draw img x currentY :: draw_all maxWidth (currentY + naturalHeight img) rest
  end.

Definition stitch (images : list image) : canvas :=
  let '(maxWidth, totalHeight) := measure images in
  Canvas maxWidth totalHeight (draw_all maxWidth 0 images).

(** [canvas.toDataURL()]: every fragment of every drawn image, moved by the
    offset of its draw call. *)
Definition toDataURL (c : canvas) : image :=
  Image (canvas_width c) (canvas_height c)
    (flat_map
       (fun d =>
          map (fun f => Placed (what f) (at_x f + draw_x d)%Q (at_y f + draw_y d))
              (content (drawn d)))
       (draws c)).

Definition concatenateImages (images : list image) : image :=
  toDataURL (stitch images).

Section Browser.
(** [ctx.measureText(text).width] for the caption font, a service of the
    browser. *)
Variable measureText : str -> Q.

(** [createTextImage]: a raster of the measured width plus 20 and of
    height 40; assigning a fractional width to a canvas truncates it. *)
Definition createTextImage (text : str) : image :=
  Image (Qfloor (measureText text + 20)) 40 [Placed (Caption text) 0 0].
End Browser.

End Composition.

Import Composition.

(* ================================================================== *)
(** * Region capture controller ([crop-edit.js]) *)
(* ================================================================== *)

Module Capture.

Inductive kind := Text | Table | Diagram.

Inductive cut_mode := box | freehand.

(** A page overlay with its [data-ratio]. *)
Record overlay := Overlay {
  page : nat;
  ratio : Q
}.

(** [currentBoxRect] and the result of [getBoundingBox]. *)
Record box_rect := BoxRect {
  minX : Q;
  minY : Q;
  width : Q;
  height : Q
}.

Record question := Question {
  id : Z;
  question_number : Z;
  q_parts : list str
}.

(** An entry of [regionSelections] together with the state of the DOM nodes
    it points to: the marker (its number and stacking order), the kind select
    and the part select, which exists only when the question has parts. *)
Record region := Region {
  regionId : Z;
  region_overlay : overlay;
  regionRect : box_rect;
  freehandData : option (list (Q * Q));
  selectEl : kind;
  partSelect : option str;
  region_number : Z;
  zIndex : Z
}.

(** A thumbnail of the sidebar [#cropped-images]. *)
Record wrapper := Wrapper {
  wrapper_regionId : Z;
  wrapper_src : image
}.

(** The globals of the script and the DOM they mirror; [markers] are the
    region markers attached to the overlays, by page and region id. *)
Record session := Session {
  isSelecting : bool;
  cutMode : cut_mode;
  startX : Q;
  startY : Q;
  currentOverlay : option overlay;
  currentBoxRect : option box_rect;
  pathPoints : list (Q * Q);
  questions : list question;
  currentQuestionIndex : nat;
  regionSelections : list region;
  regionCounter : Z;
  sidebar : list wrapper;
  markers : list (nat * Z)
}.

Definition set_gesture (s : session) (sel : bool) (ov : option overlay)
  (x y : Q) (r : option box_rect) (pts : list (Q * Q)) : session :=
  Session sel (cutMode s) x y ov r pts (questions s) (currentQuestionIndex s)
          (regionSelections s) (regionCounter s) (sidebar s) (markers s).

Definition set_regions (s : session) (rs : list region) (counter : Z)
  (side : list wrapper) (ms : list (nat * Z)) : session :=
  Session (isSelecting s) (cutMode s) (startX s) (startY s) (currentOverlay s)
          (currentBoxRect s) (pathPoints s) (questions s) (currentQuestionIndex s)
          rs counter side ms.

(** [startSelection] at pointer position [(x, y)] relative to overlay [ov]. *)
Definition startSelection (s : session) (ov : overlay) (x y : Q) : session :=
  match cutMode s with
  | box => set_gesture s true (Some ov) x y (currentBoxRect s) (pathPoints s)
  | freehand => set_gesture s true (Some ov) (startX s) (startY s) (currentBoxRect s) [(x, y)]
  end.

Definition Qabs_diff (a b : Q) : Q := Qabs (a - b).

(** [updateSelection]. *)
Definition updateSelection (s : session) (x y : Q) : session :=
  if negb (isSelecting s) then s
  else match cutMode s with
       | box =>
           let r := BoxRect (Qmin (startX s) x) (Qmin (startY s) y)
                            (Qabs_diff x (startX s)) (Qabs_diff y (startY s)) in
           set_gesture s true (currentOverlay s) (startX s) (startY s) (Some r) (pathPoints s)
       | freehand =>
           set_gesture s true (currentOverlay s) (startX s) (startY s) (currentBoxRect s)
                       (pathPoints s ++ [(x, y)])
       end.

(** [a < b] on rationals. *)
Definition Qltb (a b : Q) : bool := negb (Qle_bool b a).

(** [getBoundingBox]; on no point the box is infinite with width
    [-Infinity], which the size test rejects: [None] stands for it. *)
Definition getBoundingBox (points : list (Q * Q)) : option box_rect :=
  match points with
  | [] => None
  | (x0, y0) :: rest =>
      let '(loX, loY, hiX, hiY) :=
        fold_left
          (fun '(loX, loY, hiX, hiY) '(x, y) =>
             (Qmin loX x, Qmin loY y, Qmax hiX x, Qmax hiY y))
          rest (x0, y0, x0, y0) in
      Some (BoxRect loX loY (hiX - loX) (hiY - loY))
  end.

(** A region whose marker shows the number [n] and has [n] as stacking
    order. *)
Definition with_number (r : region) (n : Z) : region :=
  Region (regionId r) (region_overlay r) (regionRect r) (freehandData r)
         (selectEl r) (partSelect r) n n.

(** [updateRegionNumbers]: every thumbnail, in sidebar order, numbers the
    first region that carries its id. *)
Fixpoint set_number (rid : Z) (n : Z) (rs : list region) : list region :=
  match rs with
  | [] => []
  | r :: rest =>
      if regionId r =? rid then with_number r n :: rest
      else r :: set_number rid n rest
  end.

Fixpoint number_from (index : Z) (wrappers : list wrapper) (rs : list region)
  : list region :=
  match wrappers with
  | [] => rs
  | w :: rest =>
      number_from (index + 1) rest (set_number (wrapper_regionId w) (index + 1) rs)
  end.

Definition updateRegionNumbers (s : session) : session :=
  set_regions s (number_from 0 (sidebar s) (regionSelections s))
              (regionCounter s) (sidebar s) (markers s).

(** [addRegionSelection] followed by [addImageToSidebar]; [None] is the
    exception of reading [parts] of a question that does not exist. *)
Definition addRegionSelection (s : session) (regionRect : box_rect) (dataURL : image)
  (ov : overlay) (freehandData : option (list (Q * Q))) : option session :=
  match nth_error (questions s) (currentQuestionIndex s) with
  | None => None
  | Some q =>
      let regionId := regionCounter s in
      let partSelect :=
        match q_parts q with
        | [] => None
        | _ :: _ => Some []
        end in
      let r := Region regionId ov regionRect freehandData Text partSelect 0 0 in
      Some (updateRegionNumbers
              (set_regions s (regionSelections s ++ [r]) (regionCounter s + 1)
                           (sidebar s ++ [Wrapper regionId dataURL])
                           (markers s ++ [(page ov, regionId)])))
  end.

(** [cropAndAddImage]: the crop canvas takes the size of the source
    rectangle, truncated to whole pixels. *)
Definition cropAndAddImage (s : session) (ov : overlay)
  (canvasMinX canvasMinY canvasWidth canvasHeight : Q) (regionRect : box_rect)
  : option session :=
  let dataURL :=
    Image (Qfloor canvasWidth) (Qfloor canvasHeight)
          [Placed (BoxCrop (page ov) canvasMinX canvasMinY canvasWidth canvasHeight) 0 0] in
  addRegionSelection s regionRect dataURL ov None.

(** [cropWithPath]. *)
Definition cropWithPath (s : session) (ov : overlay) (points : list (Q * Q))
  (bbox regionRect : box_rect) : option session :=
  let dataURL :=
    Image (Qfloor (width bbox * ratio ov)) (Qfloor (height bbox * ratio ov))
          [Placed (PathCrop (page ov) (ratio ov) points) 0 0] in
  addRegionSelection s regionRect dataURL ov (Some points).

Definition too_small (r : box_rect) : bool :=
  Qltb (width r) 5 || Qltb (height r) 5.

(** [endSelection]. *)
Definition endSelection (s : session) : option session :=
  if negb (isSelecting s) then Some s
  else
    let s := set_gesture s false (currentOverlay s) (startX s) (startY s)
                         (currentBoxRect s) (pathPoints s) in
    match currentOverlay s with
    | None => None
    | Some ov =>
        match cutMode s with
        | box =>
            match currentBoxRect s with
            | None => Some s
            | Some r =>
                if too_small r then Some s
                else
                  match cropAndAddImage s ov (minX r * ratio ov) (minY r * ratio ov)
                          (width r * ratio ov) (height r * ratio ov)
                          (BoxRect (minX r) (minY r) (width r) (height r)) with
                  | None => None
                  | Some s' =>
                      Some (set_gesture s' false (currentOverlay s') (startX s') (startY s')
                                        None (pathPoints s'))
                  end
            end
        | freehand =>
            match getBoundingBox (pathPoints s) with
            | None => Some s
            | Some bbox =>
                if too_small bbox then Some s
                else
                  match cropWithPath s ov (pathPoints s) bbox
                          (BoxRect (minX bbox) (minY bbox) (width bbox) (height bbox)) with
                  | None => None
                  | Some s' =>
                      Some (set_gesture s' false (currentOverlay s') (startX s') (startY s')
                                        (currentBoxRect s') [])
                  end
            end
        end
    end.

(** The user picks a kind or a part in the selects of a region. *)
Fixpoint choose (rid : Z) (k : kind) (part : option str) (rs : list region) : list region :=
  match rs with
  | [] => []
  | r :: rest =>
      if regionId r =? rid
      then Region (regionId r) (region_overlay r) (regionRect r) (freehandData r)
                  k part (region_number r) (zIndex r) :: rest
      else r :: choose rid k part rest
  end.

(** [regionSelections.findIndex(r => r.regionId === id)]. *)
Fixpoint findIndex (rid : Z) (rs : list region) : option nat :=
  match rs with
  | [] => None
  | r :: rest =>
      if regionId r =? rid then Some O
      else option_map S (findIndex rid rest)
  end.

(** [parent.removeChild] of the first element that matches. *)
Fixpoint remove_first {A : Type} (f : A -> bool) (l : list A) : list A :=
  match l with
  | [] => []
  | x :: rest => if f x then rest else x :: remove_first f rest
  end.

(** [array.splice(i, 1)]. *)
Definition splice1 {A : Type} (i : nat) (l : list A) : list A :=
  firstn i l ++ skipn (S i) l.

(** [deleteRegion]. *)
Definition deleteRegion (s : session) (id : Z) : session :=
  match findIndex id (regionSelections s) with
  | None => s
  | Some regionIndex =>
      match nth_error (regionSelections s) regionIndex with
      | None => s
      | Some region =>
          let ms :=
            remove_first
              (fun m => (fst m =? page (region_overlay region))%nat && (snd m =? regionId region))
              (markers s) in
          let side := remove_first (fun w => wrapper_regionId w =? id) (sidebar s) in
          updateRegionNumbers
            (set_regions s (splice1 regionIndex (regionSelections s)) (regionCounter s) side ms)
      end
  end.

(** [clearCroppedImages] then [clearRegionMarkers]. *)
Definition clearCapture (s : session) : session :=
  set_regions s [] 1 []
    (filter (fun m => negb (existsb (fun r => (fst m =? page (region_overlay r))%nat
                                              && (snd m =? regionId r))
                                    (regionSelections s)))
            (markers s)).

End Capture.

Import Capture.

(* ================================================================== *)
(** * Response assembly pipeline ([crop-edit.js]) *)
(* ================================================================== *)

Module Assembly.

Record bucket := Bucket {
  bText : list image;
  bTable : list image;
  bDiagram : list image
}.

Definition empty_bucket : bucket := Bucket [] [] [].

(** [bucket[kind].push(src)]. *)
Definition push (k : kind) (src : image) (b : bucket) : bucket :=
  match k with
  | Text => Bucket (bText b ++ [src]) (bTable b) (bDiagram b)
  | Table => Bucket (bText b) (bTable b ++ [src]) (bDiagram b)
  | Diagram => Bucket (bText b) (bTable b) (bDiagram b ++ [src])
  end.

(** [partsMap], an object keyed by part label: keys keep their insertion
    order and an assignment to an existing key replaces its value. *)
Definition partsMap := list (str * bucket).

Fixpoint pm_set (p : str) (b : bucket) (m : partsMap) : partsMap :=
  match m with
  | [] => [(p, b)]
  | (k, v) :: rest =>
      if str_eqb k p then (k, b) :: rest else (k, v) :: pm_set p b rest
  end.

Fixpoint pm_get (p : str) (m : partsMap) : option bucket :=
  match m with
  | [] => None
  | (k, v) :: rest => if str_eqb k p then Some v else pm_get p rest
  end.

Record part_response := PartResponse {
  part_label : str;
  part_text_images : list image;
  part_table_images : list image;
  part_diagram_images : list image
}.

Record response := Response {
  question_id : Z;
  response_number : Z;
  text_images : list image;
  table_images : list image;
  diagram_images : list image;
  parts : list part_response
}.

(** [createTempResponse]. *)
Definition createTempResponse (questions : list question) (questionIndex : nat)
  : option response :=
  match nth_error questions questionIndex with
  | None => None
  | Some question =>
      Some (Response (id question) (question_number question) [] [] []
              (map (fun part_label => PartResponse part_label [] [] []) (q_parts question)))
  end.

(** Step 3 of [saveCurrentSelections] for one thumbnail.  [None] is the
    exception of a thumbnail without region or of a part without bucket. *)
Definition assign (rs : list region) (acc : option (bucket * partsMap)) (w : wrapper)
  : option (bucket * partsMap) :=
  match acc with
  | None => None
  | Some (mainBucket, pm) =>
      match find (fun r => regionId r =? wrapper_regionId w) rs with
      | None => None
      | Some region =>
          let kind := selectEl region in
          let part := match partSelect region with Some v => v | None => [] end in
          let src := wrapper_src w in
          match part with
          | [] => Some (push kind src mainBucket, pm)
          | _ :: _ =>
              match pm_get part pm with
              | None => None
              | Some b => Some (mainBucket, pm_set part (push kind src b) pm)
              end
          end
      end
  end.

(** [tempResponse.parts[idx] = ...] on the fields of one part. *)
Fixpoint update_part (idx : nat) (f : part_response -> part_response)
  (l : list part_response) : option (list part_response) :=
  match idx, l with
  | O, x :: rest => Some (f x :: rest)
  | S i, x :: rest => option_map (cons x) (update_part i f rest)
  | _, [] => None
  end.

(** The payload sent for one question. *)
Record payload := Payload {
  payload_question_id : Z;
  payload_question_number : Z;
  original_index : nat;
  payload_text_images : list image;
  payload_table_images : list image;
  payload_diagram_images : list image
}.

Section Browser.
Variable measureText : str -> Q.

(** [processImageWithLabel]. *)
Definition processImageWithLabel (src : image) (labelText : str) : image :=
  concatenateImages [createTextImage measureText labelText; src].

(** The text stack of a bucket: the label and all text regions in one
    image, or nothing. *)
Definition text_stack (labelText : str) (texts : list image) : list image :=
  match texts with
  | [] => []
  | _ :: _ => [concatenateImages (createTextImage measureText labelText :: texts)]
  end.

Definition questionCaption (n : Z) : str := lit "Question Number " ++ toString n.

Definition partCaption (partLabel : str) : str := lit "Part " ++ partLabel.

(** Step 7 for the part at index [idx]. *)
Definition process_part (pm : partsMap) (acc : option (list part_response))
  (entry : nat * str) : option (list part_response) :=
  let '(idx, partLabel) := entry in
  match acc, pm_get partLabel pm with
  | Some ps, Some b =>
      let pText := partCaption partLabel in
      update_part idx
        (fun partObj =>
           PartResponse (part_label partObj)
             (text_stack pText (bText b))
             (map (fun src => processImageWithLabel src pText) (bTable b))
             (map (fun src => processImageWithLabel src pText) (bDiagram b)))
        ps
  | _, _ => None
  end.

(** [saveCurrentSelections]. *)
Definition saveCurrentSelections (s : session) (tempResponse : response)
  : option response :=
  match nth_error (questions s) (currentQuestionIndex s) with
  | None => None
  | Some q =>
      let partsList := q_parts q in
      let pm0 := fold_left (fun m p => pm_set p empty_bucket m) partsList [] in
      match fold_left (assign (regionSelections s)) (sidebar s)
              (Some (empty_bucket, pm0)) with
      | None => None
      | Some (mainBucket, pm) =>
          let qNumText := questionCaption (question_number q) in
          let mainText := text_stack qNumText (bText mainBucket) in
          let mainTable :=
            map (fun src => processImageWithLabel src qNumText) (bTable mainBucket) in
          let mainDiagram :=
            map (fun src => processImageWithLabel src qNumText) (bDiagram mainBucket) in
          match fold_left (process_part pm)
                  (combine (seq 0 (List.length partsList)) partsList)
                  (Some (parts tempResponse)) with
          | None => None
          | Some ps =>
              Some (Response (question_id tempResponse) (response_number tempResponse)
                      mainText mainTable mainDiagram ps)
          end
      end
  end.

(** The body of [questionResponses.map] in [handleSubmit]. *)
Definition processResponse (idx : nat) (r : response) : payload :=
  let topLevel := text_images r in
  let partsLevel := flat_map part_text_images (parts r) in
  let finalTextImages :=
    match topLevel, partsLevel with
    | [], [] => []
    | _ :: _, _ => [concatenateImages (topLevel ++ partsLevel)]
    | [], _ :: _ =>
        let mergedPartsImg := concatenateImages partsLevel in
        let labelImg := createTextImage measureText (questionCaption (response_number r)) in
        [concatenateImages [labelImg; mergedPartsImg]]
    end in
  let finalTableImages :=
    fold_left (fun acc part => acc ++ part_table_images part) (parts r) (table_images r) in
  let finalDiagramImages :=
    fold_left (fun acc part => acc ++ part_diagram_images part) (parts r) (diagram_images r) in
  Payload (question_id r) (response_number r) idx
          finalTextImages finalTableImages finalDiagramImages.

Definition processedResponses (questionResponses : list response) : list payload :=
  map (fun '(idx, r) => processResponse idx r)
      (combine (seq 0 (List.length questionResponses)) questionResponses).
End Browser.

(** [renderAllResponses] sorts the collection in place by question
    number. *)
Definition renderAllResponses (questionResponses : list response) : list response :=
  array_sort (fun a b => response_number a - response_number b <=? 0) questionResponses.

Inductive select_mode := sequential | dropdown.

(** [questionResponses[idx] = r] for the first response of that question,
    or [push]. *)
Fixpoint replace_or_push (r : response) (l : list response) : list response :=
  match l with
  | [] => [r]
  | x :: rest =>
      if question_id x =? question_id r then r :: rest
      else x :: replace_or_push r rest
  end.

(** The collection after the click on the finish button, once
    [saveCurrentSelections] has filled [tempResponse]. *)
Definition collect (mode : select_mode) (tempResponse : response)
  (questionResponses : list response) : list response :=
  match mode with
  | dropdown => renderAllResponses (replace_or_push tempResponse questionResponses)
  | sequential => renderAllResponses (questionResponses ++ [tempResponse])
  end.

End Assembly.

Import Assembly.

(* ================================================================== *)
(** * Document stage and submission ([crop-edit.js], exam-stage script) *)
(* ================================================================== *)

Module Stage.

Definition stages : list str :=
  [lit "question_paper"; lit "marking_scheme"; lit "solution_script"; lit "answer_script"].

(** [getDocStage]. *)
Definition getDocStage (current_stage : Z) : Z :=
  if current_stage <=? 2 then 0
  else if current_stage =? 3 then 1
  else if current_stage =? 4 then 2
  else if (5 <=? current_stage) && (current_stage <=? 8) then 3
  else -1.

(** [stages[i]]: [undefined] outside the array. *)
Definition stages_at (i : Z) : option str :=
  if i <? 0 then None else nth_error stages (Z.to_nat i).

(** [document_type = stages[getDocStage(currentStage)]]. *)
Definition document_type_of (currentStage : Z) : option str :=
  stages_at (getDocStage currentStage).

(** What a [fetch] gives: a rejected promise, or a response with its [ok]
    flag and whether its body parses as JSON. *)
Inductive fetched :=
| Rejected
| Responded (ok : bool) (json : bool).

(** What the page does that the outside sees. *)
Inductive event :=
| PostQuestion (index : nat)
| PostExtract
| PostStage (stage : Z)
| PostGrade
| Alert (message : string)
| ConsoleError (message : string).

(** The answers of the server during one submission. *)
Record server := Server {
  question_answers : nat -> fetched;
  extract_answer : fetched;
  stage_answer : fetched
}.

(** [postExamStage]: the write, its error handling, then the grading
    request when the stage is 7. *)
Definition postExamStage (sv : server) (stage : Z) : list event :=
  [PostStage stage]
  ++ match stage_answer sv with
     | Responded true _ => []
     | _ => [ConsoleError "Error updating exam stage:"%string]
     end
  ++ (if stage =? 7 then [PostGrade] else []).

(** [r.json()] succeeds. *)
Definition json_ok (f : fetched) : bool :=
  match f with
  | Responded _ true => true
  | _ => false
  end.

(** Steps 2 and 3 of [handleSubmit] for [n] processed responses.  All
    question requests are sent at once; when one of them fails the
    function ends with that rejection. *)
Definition handleSubmit (sv : server) (document_type : option str) (n : nat)
  : list event :=
  map PostQuestion (seq 0 n)
  ++ (if forallb (fun i => json_ok (question_answers sv i)) (seq 0 n) then
        match document_type with
        | Some t =>
            if str_eqb t (lit "answer_script") then
              [PostExtract]
              ++ (if json_ok (extract_answer sv) then
                    [Alert "Responses submitted and processed successfully!"%string]
                    ++ postExamStage sv 7
                  else
                    [ConsoleError "Processing/Extraction error:"%string;
                     Alert "Processing/Extraction of text from individual question images failed."%string])
            else [Alert "Responses submitted successfully!"%string]
        | None => [Alert "Responses submitted successfully!"%string]
        end
      else []).

End Stage.

Import Stage.

(* ================================================================== *)
(** * The pages and their events *)
(* ================================================================== *)

(** The events of the capture page, with the handlers the script attaches:
    the three mouse listeners of an overlay ([renderPage]), the delete
    button of a marker ([addRegionSelection]), the delete button of a
    thumbnail, which takes the thumbnail away before it calls [deleteRegion]
    ([addImageToSidebar]), and the user's choice in the selects of a marker. *)
Module Page.

Inductive event :=
| mousedown (ov : overlay) (x y : Q)
| mousemove (x y : Q)
| mouseup
| click_delete_region (id : Z)
| click_delete_thumbnail (id : Z)
| change_selects (id : Z) (k : kind) (part : option str).

Definition handle (s : session) (e : event) : option session :=
  match e with
  | mousedown ov x y => Some (startSelection s ov x y)
  | mousemove x y => Some (updateSelection s x y)
  | mouseup => endSelection s
  | click_delete_region id => Some (deleteRegion s id)
  | click_delete_thumbnail id =>
      let side := remove_first (fun w => wrapper_regionId w =? id) (sidebar s) in
      Some (deleteRegion
              (set_regions s (regionSelections s) (regionCounter s) side (markers s)) id)
  | change_selects id k part =>
      Some (set_regions s (choose id k part (regionSelections s))
                        (regionCounter s) (sidebar s) (markers s))
  end.

Fixpoint run (s : session) (events : list event) : option session :=
  match events with
  | [] => Some s
  | e :: rest =>
      match handle s e with
      | None => None
      | Some s' => run s' rest
      end
  end.

End Page.

(** The document and the mode that [load_pdf_in_cropper] settles once the
    user record has arrived. *)
Module Access.

Inductive opened :=
| Denied
| Requested (document_type : option str).

Record page_setup := PageSetup {
  selectMode : select_mode;
  document : opened
}.

(** [document_type != "answer_script"]; [undefined] differs from every
    string. *)
Definition is_answer_script (document_type : option str) : bool :=
  match document_type with
  | Some t => str_eqb t (lit "answer_script")
  | None => false
  end.

Definition load_pdf_in_cropper (currentStage : Z) (is_professor : bool) : page_setup :=
  let doc_stage := getDocStage currentStage in
  let document_type := stages_at doc_stage in
  let mode := if is_professor then dropdown else sequential in
  if negb (is_answer_script document_type) && negb is_professor
  then PageSetup mode Denied
  else PageSetup mode (Requested document_type).

End Access.

(** The three buttons of the part editor of one question: the button of the
    question card ([renderQuestions]) and the two buttons of a part item
    ([createPartItem]), which exist for the labels in the list only; the
    removal is confirmed.  A disabled button gives no click; here every
    button can be clicked, which covers the clicks that occur. *)
Module Editor.

Inductive edit :=
| add_to_question
| add_under (parentLabel : str)
| remove (label : str).

Definition click (q : str) (labels : list str) (e : edit) : option (list str) :=
  match e with
  | add_to_question => Some (LabelTree.parts (addSubpartToQuestion q labels))
  | add_under parentLabel =>
      if existsb (str_eqb parentLabel) labels
      then Some (LabelTree.parts (addSubpart labels parentLabel))
      else None
  | remove label =>
      if existsb (str_eqb label) labels
      then Some (removePart true labels label)
      else None
  end.

Fixpoint clicks (q : str) (labels : list str) (edits : list edit) : option (list str) :=
  match edits with
  | [] => Some labels
  | e :: rest =>
      match click q labels e with
      | None => None
      | Some labels' => clicks q labels' rest
      end
  end.

End Editor.

(** The editor with the state of the add button of the question card:
    [addSubpartToQuestion] disables it when it alerts, and nothing enables it
    again. *)
Module Header.

Record editor := Editor {
  header_enabled : bool;
  part_labels : list str
}.

Definition press (q : str) (s : editor) (e : Editor.edit) : option editor :=
  match e with
  | Editor.add_to_question =>
      if header_enabled s then
        let o := addSubpartToQuestion q (part_labels s) in
        Some (Editor (match alert o with Some _ => false | None => true end)
                     (LabelTree.parts o))
      else None
  | _ =>
      match Editor.click q (part_labels s) e with
      | Some labels => Some (Editor (header_enabled s) labels)
      | None => None
      end
  end.

Fixpoint presses (q : str) (s : editor) (edits : list Editor.edit) : option editor :=
  match edits with
  | [] => Some s
  | e :: rest =>
      match press q s e with
      | None => None
      | Some s' => presses q s' rest
      end
  end.

(** The number of top-level parts. *)
Definition top (q : str) (labels : list str) : nat :=
  List.length (directChildren labels q).

End Header.

(** The page with its collection: the capture session, [tempResponse],
    [questionResponses] and whether the submit button is shown.  The events
    are those of the capture, the finish button ([part-btn]), the redo button
    of a collected response ([createResponseDiv]) and the question selector
    ([populateQuestionSelector]).  [None] is an exception in a handler, or an
    event the page does not offer: a redo without such a response, the
    selector in sequential mode, where it is hidden. *)
Module Workflow.

Record page := Page {
  capture : session;
  tempResponse : option response;
  questionResponses : list response;
  submit_shown : bool
}.

Inductive event :=
| on_capture (e : Page.event)
| part_btn
| redo (question_id : Z)
| select_question (idx : nat).

(** [setCurrentQuestion(idx, -1)] on the session. *)
Definition setCurrentQuestion (s : session) (idx : nat) : session :=
  Session (isSelecting s) (cutMode s) (startX s) (startY s) (currentOverlay s)
          (currentBoxRect s) (pathPoints s) (questions s) idx
          (regionSelections s) (regionCounter s) (sidebar s) (markers s).

(** [questions.findIndex(q => q.id === id)]. *)
Fixpoint question_index (qid : Z) (qs : list question) : option nat :=
  match qs with
  | [] => None
  | q :: rest => if id q =? qid then Some O else option_map S (question_index qid rest)
  end.

Section Browser.
Variable measureText : str -> Q.
Variable mode : select_mode.

Definition handle (st : page) (e : event) : option page :=
  match e with
  | on_capture ce =>
      match Page.handle (capture st) ce with
      | None => None
      | Some s => Some (Page s (tempResponse st) (questionResponses st) (submit_shown st))
      end
  | part_btn =>
      match tempResponse st with
      | None => None
      | Some temp =>
          match saveCurrentSelections measureText (capture st) temp with
          | None => None
          | Some r =>
              let collected := collect mode r (questionResponses st) in
              let s1 := clearCapture (capture st) in
              match mode with
              | dropdown =>
                  match createTempResponse (questions s1) (currentQuestionIndex s1) with
                  | None => None
                  | Some t => Some (Page s1 (Some t) collected (submit_shown st))
                  end
              | sequential =>
                  let idx := S (currentQuestionIndex s1) in
                  let s2 := setCurrentQuestion s1 idx in
                  if (idx <? List.length (questions s1))%nat then
                    match createTempResponse (questions s1) idx with
                    | None => None
                    | Some t => Some (Page s2 (Some t) collected (submit_shown st))
                    end
                  else Some (Page s2 (Some r) collected true)
              end
          end
      end
  | redo qid =>
      if existsb (fun r => question_id r =? qid) (questionResponses st) then
        let kept :=
          renderAllResponses
            (filter (fun r => negb (question_id r =? qid)) (questionResponses st)) in
        let s1 := clearCapture (capture st) in
        match question_index qid (questions s1) with
        | None => None
        | Some idx =>
            match createTempResponse (questions s1) idx with
            | None => None
            | Some t =>
                Some (Page (setCurrentQuestion s1 idx) (Some t) kept (submit_shown st))
            end
        end
      else None
  | select_question idx =>
      match mode with
      | sequential => None
      | dropdown =>
          match createTempResponse (questions (capture st)) idx with
          | None => None
          | Some t =>
              Some (Page (clearCapture (setCurrentQuestion (capture st) idx)) (Some t)
                         (questionResponses st) (submit_shown st))
          end
      end
  end.

Fixpoint run (st : page) (events : list event) : option page :=
  match events with
  | [] => Some st
  | e :: rest =>
      match handle st e with
      | None => None
      | Some st' => run st' rest
      end
  end.
End Browser.

End Workflow.

Example sort_spec_example :
  sortPartLabels [lit "2.10"; lit "2.2"; lit "2"] = [lit "2"; lit "2.2"; lit "2.10"].
Proof. reflexivity. Qed.

Example remove_spec_example :
  removePart true [lit "2.1"; lit "2.2"; lit "2.3"; lit "2.3.1"] (lit "2.2")
  = [lit "2.1"; lit "2.2"; lit "2.2.1"].
Proof. reflexivity. Qed.

(* ================================================================== *)
(** * Facts about the string primitives *)
(* ================================================================== *)

Module JSFacts.

Lemma ascii_eqb_refl c : Ascii.eqb c c = true.
Proof. apply Ascii.eqb_eq; reflexivity. Qed.

Lemma str_eqb_spec a b : str_eqb a b = true <-> a = b.
Proof.
  revert b; induction a as [|c a IH]; intros [|d b]; simpl; split; intro H;
    try reflexivity; try discriminate.
  - apply andb_true_iff in H as [H1 H2].
    apply Ascii.eqb_eq in H1. apply IH in H2. congruence.
  - inversion H; subst. rewrite ascii_eqb_refl. simpl. apply IH. reflexivity.
Qed.

Lemma str_eqb_refl a : str_eqb a a = true.
Proof. apply str_eqb_spec; reflexivity. Qed.

Lemma startsWith_spec s p : startsWith s p = true <-> exists t, s = p ++ t.
Proof.
  revert s; induction p as [|c p IH]; intros s; simpl.
  - split; [intros _; exists s; reflexivity | reflexivity].
  - destruct s as [|d s].
    + split; [discriminate | intros [t Ht]; discriminate].
    + rewrite andb_true_iff, Ascii.eqb_eq, IH. split.
      * intros [-> [t ->]]. exists t. reflexivity.
      * intros [t Ht]. inversion Ht; subst. split; [reflexivity | exists t; reflexivity].
Qed.

Lemma startsWith_app p t : startsWith (p ++ t) p = true.
Proof. apply startsWith_spec. exists t. reflexivity. Qed.

Lemma startsWith_cancel p s t : startsWith (p ++ s) (p ++ t) = startsWith s t.
Proof.
  induction p as [|c p IH]; simpl; [reflexivity|].
  rewrite ascii_eqb_refl. exact IH.
Qed.

(** A subtree test is one prefix test on the dot-terminated strings. *)
Lemma subtree_as_prefix root pl :
  str_eqb pl root || startsWith pl (root ++ [dot])
  = startsWith (pl ++ [dot]) (root ++ [dot]).
Proof.
  revert pl; induction root as [|r root IH]; intros [|c pl]; simpl.
  - reflexivity.
  - rewrite !andb_true_r. reflexivity.
  - destruct root; simpl; rewrite ?andb_false_r; reflexivity.
  - rewrite <- IH. rewrite (Ascii.eqb_sym c r).
    destruct (Ascii.eqb r c); simpl; reflexivity.
Qed.

(** ** Splitting on dots *)

Definition dotfree (s : str) : Prop := ~ In dot s.

Lemma dotfree_cons c s : dotfree (c :: s) <-> c <> dot /\ dotfree s.
Proof.
  unfold dotfree; simpl. split.
  - intros H. split; [intro E; apply H; left; congruence | intro E; apply H; right; exact E].
  - intros [H1 H2] [E|E]; [apply H1; congruence | contradiction].
Qed.

Lemma eqb_dot_false c : c <> dot -> Ascii.eqb c dot = false.
Proof. intro H. apply Ascii.eqb_neq. exact H. Qed.

Lemma split_dot_nonnil s : split_dot s <> [].
Proof.
  destruct s as [|c s]; simpl; [discriminate|].
  destruct (Ascii.eqb c dot); [discriminate|].
  destruct (split_dot s); discriminate.
Qed.

Lemma split_dot_dotfree s : dotfree s -> split_dot s = [s].
Proof.
  induction s as [|c s IH]; intro H; simpl; [reflexivity|].
  apply dotfree_cons in H as [H1 H2].
  rewrite (eqb_dot_false _ H1), (IH H2). reflexivity.
Qed.

Lemma split_dot_app a b : split_dot (a ++ dot :: b) = split_dot a ++ split_dot b.
Proof.
  induction a as [|c a IH]; simpl.
  - reflexivity.
  - destruct (Ascii.eqb c dot).
    + rewrite IH. reflexivity.
    + rewrite IH. destruct (split_dot a) eqn:E.
      * exfalso. exact (split_dot_nonnil _ E).
      * reflexivity.
Qed.

Lemma join_split s : join_dot (split_dot s) = s.
Proof.
  induction s as [|c s IH]; simpl; [reflexivity|].
  destruct (Ascii.eqb c dot) eqn:E.
  - apply Ascii.eqb_eq in E. subst c.
    destruct (split_dot s) eqn:Es; [exfalso; exact (split_dot_nonnil _ Es)|].
    simpl in *. rewrite IH. reflexivity.
  - destruct (split_dot s) as [|h t] eqn:Es; [exfalso; exact (split_dot_nonnil _ Es)|].
    destruct t; simpl in *; rewrite <- IH; reflexivity.
Qed.

Lemma split_dot_all_dotfree s : Forall dotfree (split_dot s).
Proof.
  induction s as [|c s IH]; simpl.
  - constructor; [intros []|constructor].
  - destruct (Ascii.eqb c dot) eqn:E.
    + constructor; [intros []|exact IH].
    + destruct (split_dot s) as [|h t]; [constructor; [|constructor]|].
      * apply dotfree_cons. split; [apply Ascii.eqb_neq; exact E | intros []].
      * inversion IH; subst. constructor; [|assumption].
        apply dotfree_cons. split; [apply Ascii.eqb_neq; exact E | assumption].
Qed.

(** Two strings that agree up to their first dot. *)
Lemma first_dot_unique a b x y :
  dotfree a -> dotfree b -> a ++ dot :: x = b ++ dot :: y -> a = b /\ x = y.
Proof.
  revert b; induction a as [|c a IH]; intros [|d b] Ha Hb E; simpl in E.
  - inversion E. split; reflexivity.
  - inversion E; subst. apply dotfree_cons in Hb as [Hb _]. contradiction.
  - inversion E; subst. apply dotfree_cons in Ha as [Ha _]. contradiction.
  - inversion E; subst.
    apply dotfree_cons in Ha as [_ Ha]. apply dotfree_cons in Hb as [_ Hb].
    destruct (IH b Ha Hb H1) as [-> ->]. split; reflexivity.
Qed.

Lemma startsWith_first_dot a b x y :
  dotfree a -> dotfree b ->
  startsWith (b ++ dot :: y) (a ++ dot :: x) = true -> a = b.
Proof.
  intros Ha Hb H. apply startsWith_spec in H as [t Ht].
  rewrite <- app_assoc in Ht. simpl in Ht.
  symmetry in Ht. apply (first_dot_unique _ _ _ _ Ha Hb) in Ht. tauto.
Qed.

Lemma startsWith_dotfree_false b a x :
  dotfree b -> startsWith b (a ++ dot :: x) = false.
Proof.
  intro Hb. destruct (startsWith b (a ++ dot :: x)) eqn:E; [|reflexivity].
  apply startsWith_spec in E as [t Ht]. exfalso. apply Hb. rewrite Ht.
  rewrite <- app_assoc. apply in_or_app. right. left. reflexivity.
Qed.

(** ** The last dot *)

Lemma lastIndexOf_dotfree s : dotfree s -> lastIndexOf_dot s = -1.
Proof.
  induction s as [|c s IH]; intro H; simpl; [reflexivity|].
  apply dotfree_cons in H as [H1 H2].
  rewrite (IH H2). simpl. rewrite (eqb_dot_false _ H1). reflexivity.
Qed.

Lemma lastIndexOf_app a b :
  dotfree b -> lastIndexOf_dot (a ++ dot :: b) = Z.of_nat (List.length a).
Proof.
  intro Hb. induction a as [|c a IH].
  - simpl. rewrite (lastIndexOf_dotfree _ Hb). simpl. reflexivity.
  - cbn [app lastIndexOf_dot List.length]. rewrite IH.
    destruct (0 <=? Z.of_nat (List.length a)) eqn:E; [lia|].
    apply Z.leb_gt in E. lia.
Qed.

(** ** Decimal digits *)

Definition is_digit (c : ascii) : Prop := digit_val c <> None.

Lemma digit_val_char d : 0 <= d < 10 -> digit_val (digit_char d) = Some d.
Proof.
  intro H.
  assert (E : d = 0 \/ d = 1 \/ d = 2 \/ d = 3 \/ d = 4 \/ d = 5 \/ d = 6
              \/ d = 7 \/ d = 8 \/ d = 9) by lia.
  repeat (destruct E as [-> | E]; [reflexivity|]). subst d. reflexivity.
Qed.

Lemma digit_char_is_digit d : 0 <= d < 10 -> is_digit (digit_char d).
Proof. intros H E. rewrite (digit_val_char _ H) in E. discriminate. Qed.

Lemma is_digit_not_dot c : is_digit c -> c <> dot.
Proof. intros H ->. apply H. reflexivity. Qed.

Lemma digits_dotfree s : Forall is_digit s -> dotfree s.
Proof.
  intros H Hin. rewrite Forall_forall in H.
  exact (is_digit_not_dot _ (H _ Hin) eq_refl).
Qed.

(** The value read from left to right, most significant digit first. *)
Definition horner (a : Z) (s : str) : Z :=
  fold_left (fun acc c => 10 * acc + or_zero (digit_val c)) s a.

Lemma scan_digits_all s : forall a rd,
  Forall is_digit s ->
  scan_digits s a rd = (horner a s, (rd + List.length s)%nat, []).
Proof.
  induction s as [|c s IH]; intros a rd H; simpl.
  - rewrite Nat.add_0_r. reflexivity.
  - inversion H as [|? ? Hc Hs]; subst.
    destruct (digit_val c) as [d|] eqn:E; [|contradiction].
    rewrite (IH _ _ Hs). simpl. rewrite Nat.add_succ_r. reflexivity.
Qed.

Lemma digits_of_is_digit fuel : forall n acc,
  0 <= n -> Forall is_digit acc -> Forall is_digit (digits_of fuel n acc).
Proof.
  induction fuel as [|f IH]; intros n acc Hn Hacc; simpl; [exact Hacc|].
  assert (Hd : is_digit (digit_char (n mod 10))).
  { apply digit_char_is_digit. apply Z.mod_pos_bound. lia. }
  destruct (n <? 10).
  - constructor; assumption.
  - apply IH; [apply Z.div_pos; lia | constructor; assumption].
Qed.

Lemma digits_of_nonnil fuel : forall n acc, digits_of (S fuel) n acc <> [].
Proof.
  induction fuel as [|f IH]; intros n acc; cbn [digits_of].
  - destruct (n <? 10); discriminate.
  - destruct (n <? 10); [discriminate|]. apply IH.
Qed.

Lemma digits_of_horner fuel : forall n acc,
  0 <= n -> (Z.to_nat n < fuel)%nat ->
  horner 0 (digits_of fuel n acc) = horner n acc.
Proof.
  induction fuel as [|f IH]; intros n acc Hn Hf; [lia|].
  cbn [digits_of]. destruct (n <? 10) eqn:E.
  - apply Z.ltb_lt in E. unfold horner. cbn [fold_left].
    rewrite digit_val_char by (rewrite Z.mod_small; lia).
    cbn [or_zero]. rewrite Z.mod_small by lia. reflexivity.
  - apply Z.ltb_ge in E. rewrite IH.
    + unfold horner. cbn [fold_left].
      rewrite digit_val_char by (apply Z.mod_pos_bound; lia).
      cbn [or_zero]. f_equal. rewrite (Z.div_mod n 10) at 3 by lia. reflexivity.
    + apply Z.div_pos; lia.
    + assert (n / 10 < n) by (apply Z.div_lt; lia).
      assert (0 <= n / 10) by (apply Z.div_pos; lia). lia.
Qed.

Lemma toString_nonneg n : 0 <= n -> toString n = digits_of (S (Z.to_nat n)) n [].
Proof.
  intro H. unfold toString. destruct (n <? 0) eqn:E; [|reflexivity].
  apply Z.ltb_lt in E. lia.
Qed.

Lemma toString_digits n : 0 <= n -> Forall is_digit (toString n).
Proof.
  intro H. rewrite (toString_nonneg _ H). apply digits_of_is_digit; [exact H|constructor].
Qed.

Lemma toString_dotfree n : 0 <= n -> dotfree (toString n).
Proof. intro H. apply digits_dotfree, toString_digits, H. Qed.

Lemma toString_nonnil n : toString n <> [].
Proof.
  unfold toString. destruct (n <? 0); [discriminate|]. apply digits_of_nonnil.
Qed.

Lemma toString_horner n : 0 <= n -> horner 0 (toString n) = n.
Proof.
  intro H. rewrite (toString_nonneg _ H).
  rewrite digits_of_horner by lia. reflexivity.
Qed.

Lemma parse_unsigned_digits s :
  Forall is_digit s -> s <> [] -> parse_unsigned s = Some (horner 0 s).
Proof.
  intros H Hne. unfold parse_unsigned. rewrite (scan_digits_all _ _ _ H).
  destruct s; [contradiction|]. reflexivity.
Qed.

Lemma number_unsigned_digits s :
  Forall is_digit s -> s <> [] -> number_unsigned s = Some (horner 0 s).
Proof.
  intros H Hne. unfold number_unsigned. rewrite (scan_digits_all _ _ _ H).
  destruct s; [contradiction|]. reflexivity.
Qed.

Lemma digit_not_sign c :
  is_digit c -> Ascii.eqb c "-"%char = false /\ Ascii.eqb c "+"%char = false.
Proof.
  intro H. split; apply Ascii.eqb_neq; intros ->; apply H; reflexivity.
Qed.

Lemma parseInt_digits s :
  Forall is_digit s -> s <> [] -> parseInt s = Some (horner 0 s).
Proof.
  intros H Hne. destruct s as [|c s]; [contradiction|].
  unfold parseInt. inversion H as [|? ? Hc Hs]; subst.
  destruct (digit_not_sign _ Hc) as [-> ->].
  apply parse_unsigned_digits; assumption.
Qed.

Lemma Number_digits s :
  Forall is_digit s -> s <> [] -> Number s = Some (horner 0 s).
Proof.
  intros H Hne. destruct s as [|c s]; [contradiction|].
  unfold Number. inversion H as [|? ? Hc Hs]; subst.
  destruct (digit_not_sign _ Hc) as [-> ->].
  apply number_unsigned_digits; assumption.
Qed.

Lemma parseInt_toString n : 0 <= n -> parseInt (toString n) = Some n.
Proof.
  intro H. rewrite parseInt_digits.
  - rewrite (toString_horner _ H). reflexivity.
  - apply toString_digits, H.
  - apply toString_nonnil.
Qed.

Lemma toString_inj a b : 0 <= a -> 0 <= b -> toString a = toString b -> a = b.
Proof.
  intros Ha Hb E.
  assert (H : parseInt (toString a) = parseInt (toString b)) by (rewrite E; reflexivity).
  rewrite (parseInt_toString _ Ha), (parseInt_toString _ Hb) in H. congruence.
Qed.

End JSFacts.

(* ================================================================== *)
(** * Labels as paths of integers *)
(* ================================================================== *)

(** A well-formed label is the rendering of a non-empty list of natural
    numbers; the string tests of the engine are then tests on such lists. *)
Module Paths.

Import JSFacts.

Definition path := list Z.

Definition render (p : path) : str := join_dot (map toString p).

(** The rendering with a dot after every segment. *)
Definition stem (p : path) : str := flat_map (fun x => toString x ++ [dot]) p.

Definition nonneg (p : path) : Prop := Forall (fun x => 0 <= x) p.

Fixpoint prefixb (a p : path) {struct a} : bool :=
  match a, p with
  | [], _ => true
  | x :: a', y :: p' => (x =? y) && prefixb a' p'
  | _ :: _, [] => false
  end.

Definition childb (P p : path) : bool :=
  prefixb P p && (List.length p =? S (List.length P))%nat.

Lemma prefixb_spec a p : prefixb a p = true <-> exists b, p = a ++ b.
Proof.
  revert p; induction a as [|x a IH]; intros p; simpl.
  - split; [intros _; exists p; reflexivity | reflexivity].
  - destruct p as [|y p].
    + split; [discriminate | intros [b Hb]; discriminate].
    + rewrite andb_true_iff, Z.eqb_eq, IH. split.
      * intros [-> [b ->]]. exists b. reflexivity.
      * intros [b Hb]. inversion Hb; subst. split; [reflexivity | exists b; reflexivity].
Qed.

Lemma prefixb_app a b : prefixb a (a ++ b) = true.
Proof. apply prefixb_spec. exists b. reflexivity. Qed.

Lemma prefixb_refl a : prefixb a a = true.
Proof. apply prefixb_spec. exists []. rewrite app_nil_r. reflexivity. Qed.

Lemma render_cons x p : p <> [] -> render (x :: p) = toString x ++ dot :: render p.
Proof. destruct p; [contradiction | reflexivity]. Qed.

Lemma render_stem p : p <> [] -> render p ++ [dot] = stem p.
Proof.
  induction p as [|x p IH]; intro H; [contradiction|].
  destruct p as [|y p].
  - simpl. rewrite app_nil_r. reflexivity.
  - rewrite render_cons by discriminate.
    change (stem (x :: y :: p)) with ((toString x ++ [dot]) ++ stem (y :: p)).
    rewrite <- IH by discriminate.
    rewrite <- !app_assoc. reflexivity.
Qed.

Lemma render_app a b : b <> [] -> render (a ++ b) = stem a ++ render b.
Proof.
  intro Hb. induction a as [|x a IH]; [reflexivity|].
  cbn [app]. rewrite render_cons.
  - rewrite IH. change (stem (x :: a)) with ((toString x ++ [dot]) ++ stem a).
    rewrite <- !app_assoc. reflexivity.
  - destruct a; [exact Hb | discriminate].
Qed.

Lemma render_nonnil p : p <> [] -> render p <> [].
Proof.
  destruct p as [|x p]; [contradiction|]. intros _ E.
  destruct p as [|y p].
  - exact (toString_nonnil _ E).
  - rewrite render_cons in E by discriminate.
    apply app_eq_nil in E as [E _]. exact (toString_nonnil _ E).
Qed.

Lemma split_render p :
  nonneg p -> p <> [] -> split_dot (render p) = map toString p.
Proof.
  induction p as [|x p IH]; intros Hn Hne; [contradiction|].
  inversion Hn as [|? ? Hx Hp]; subst.
  destruct p as [|y p].
  - simpl. apply split_dot_dotfree, toString_dotfree, Hx.
  - rewrite render_cons by discriminate. rewrite split_dot_app.
    rewrite (split_dot_dotfree _ (toString_dotfree _ Hx)).
    rewrite IH by (assumption || discriminate). reflexivity.
Qed.

Lemma depth_render p :
  nonneg p -> p <> [] -> depth (render p) = Z.of_nat (List.length p).
Proof.
  intros Hn Hne. unfold depth. rewrite split_render by assumption.
  rewrite length_map. reflexivity.
Qed.

Lemma last_map_toString p : p <> [] -> last (map toString p) [] = toString (last p 0).
Proof.
  induction p as [|x p IH]; intro H; [contradiction|].
  destruct p as [|y p]; [reflexivity|].
  change (last (toString x :: map toString (y :: p)) [] = toString (last (y :: p) 0)).
  cbn [last map] in *. apply IH. discriminate.
Qed.

Lemma last_nonneg p : nonneg p -> 0 <= last p 0.
Proof.
  induction p as [|x p IH]; intro H; [simpl; lia|].
  inversion H; subst. destruct p; [assumption|]. apply IH. assumption.
Qed.

Lemma parseInt_last_render p :
  nonneg p -> p <> [] -> parseInt (last_segment (render p)) = Some (last p 0).
Proof.
  intros Hn Hne. unfold last_segment. rewrite split_render by assumption.
  rewrite last_map_toString by assumption.
  apply parseInt_toString, last_nonneg, Hn.
Qed.

Lemma stem_prefix a : forall p,
  nonneg a -> nonneg p -> startsWith (stem p) (stem a) = prefixb a p.
Proof.
  induction a as [|x a IH]; intros p Ha Hp; [reflexivity|].
  inversion Ha as [|? ? Hx Ha']; subst.
  destruct p as [|y p].
  - simpl. destruct (toString x ++ [dot]) eqn:E; [|reflexivity].
    apply app_eq_nil in E as [_ E]. discriminate.
  - inversion Hp as [|? ? Hy Hp']; subst.
    change (stem (x :: a)) with ((toString x ++ [dot]) ++ stem a).
    change (stem (y :: p)) with ((toString y ++ [dot]) ++ stem p).
    cbn [prefixb]. destruct (x =? y) eqn:E.
    + apply Z.eqb_eq in E. subst y. rewrite startsWith_cancel. simpl. apply IH; assumption.
    + simpl. rewrite <- !app_assoc. cbn [app].
      destruct (startsWith (toString y ++ dot :: stem p) (toString x ++ dot :: stem a)) eqn:S;
        [|reflexivity].
      apply startsWith_first_dot in S; try (apply toString_dotfree; assumption).
      apply toString_inj in S; try assumption.
      apply Z.eqb_neq in E. contradiction.
Qed.

Lemma in_subtree_render a p :
  nonneg a -> nonneg p -> a <> [] -> p <> [] ->
  in_subtree (render a) (render p) = prefixb a p.
Proof.
  intros Ha Hp Na Np. unfold in_subtree. rewrite subtree_as_prefix.
  rewrite !render_stem by assumption. apply stem_prefix; assumption.
Qed.

Lemma startsWith_render_stem P : forall p,
  nonneg P -> nonneg p -> p <> [] ->
  startsWith (render p) (stem P)
  = prefixb P p && (List.length P <? List.length p)%nat.
Proof.
  induction P as [|x P IH]; intros p HP Hp Np.
  - simpl. destruct p; [contradiction | reflexivity].
  - destruct p as [|y p]; [contradiction|].
    inversion HP as [|? ? Hx HP']; inversion Hp as [|? ? Hy Hp']; subst.
    change (stem (x :: P)) with ((toString x ++ [dot]) ++ stem P).
    rewrite <- app_assoc. cbn [app prefixb List.length].
    destruct p as [|z p].
    + cbn [render map join_dot].
      rewrite startsWith_dotfree_false by (apply toString_dotfree; assumption).
      destruct P; simpl; rewrite andb_false_r; reflexivity.
    + rewrite render_cons by discriminate.
      destruct (x =? y) eqn:E.
      * apply Z.eqb_eq in E. subst y.
        change (toString x ++ dot :: render (z :: p))
          with (toString x ++ [dot] ++ render (z :: p)).
        change (toString x ++ dot :: stem P) with (toString x ++ [dot] ++ stem P).
        rewrite !app_assoc, startsWith_cancel. cbn [andb].
        rewrite IH by (assumption || discriminate). reflexivity.
      * cbn [andb].
        destruct (startsWith (toString y ++ dot :: render (z :: p))
                             (toString x ++ dot :: stem P)) eqn:S; [|reflexivity].
        apply startsWith_first_dot in S; try (apply toString_dotfree; assumption).
        apply toString_inj in S; try assumption.
        apply Z.eqb_neq in E. contradiction.
Qed.

Lemma is_direct_child_render P p :
  nonneg P -> nonneg p -> P <> [] -> p <> [] ->
  is_direct_child (render P) (render p) = childb P p.
Proof.
  intros HP Hp NP Np. unfold is_direct_child, childb.
  rewrite render_stem by assumption.
  rewrite startsWith_render_stem by assumption.
  rewrite !depth_render by assumption.
  destruct (prefixb P p); cbn [andb]; [|reflexivity].
  destruct (List.length P <? List.length p)%nat eqn:E.
  - destruct (Nat.eqb_spec (List.length p) (S (List.length P))) as [H|H].
    + apply Z.eqb_eq. lia.
    + apply Z.eqb_neq. lia.
  - apply Nat.ltb_ge in E.
    destruct (Nat.eqb_spec (List.length p) (S (List.length P))) as [H|H]; [lia|reflexivity].
Qed.

Lemma parentOf_render_child P r :
  nonneg P -> 0 <= r -> P <> [] ->
  parentOf (render (P ++ [r])) = Some (render P).
Proof.
  intros HP Hr NP. unfold parentOf.
  rewrite render_app by discriminate.
  rewrite <- render_stem by assumption. rewrite <- app_assoc.
  cbn [app render map join_dot].
  rewrite lastIndexOf_app by (apply toString_dotfree; assumption).
  pose proof (render_nonnil _ NP) as Hne.
  destruct (0 <? Z.of_nat (List.length (render P))) eqn:E.
  - unfold substring_to. rewrite Nat2Z.id.
    rewrite firstn_app, Nat.sub_diag, firstn_all. cbn [firstn]. rewrite app_nil_r.
    destruct (render P); [contradiction | reflexivity].
  - apply Z.ltb_ge in E. destruct (render P); [contradiction | simpl in E; lia].
Qed.

Lemma parentOf_render_root r : 0 <= r -> parentOf (render [r]) = None.
Proof.
  intro Hr. unfold parentOf. cbn [render map join_dot].
  rewrite lastIndexOf_dotfree by (apply toString_dotfree; assumption). reflexivity.
Qed.

End Paths.

(* ================================================================== *)
(** * [removePart] on paths *)
(* ================================================================== *)

Module RemoveSegs.

Import JSFacts Paths.

(** The removal as the code runs it, on lists of integers: the same filter,
    the same sibling sort, the same loop of prefix rewrites. *)
Definition rename_seg (P : path) (n : Z) (p : path) : path :=
  if prefixb (P ++ [n]) p
  then (P ++ [n - 1]) ++ skipn (S (List.length P)) p
  else p.

Definition sibling_le (a b : path) : bool := last a 0 - last b 0 <=? 0.

Definition renumber_step_segs (P : path) (r : Z) (L : list path) (sib : path)
  : list path :=
  if r <? last sib 0 then map (rename_seg P (last sib 0)) L else L.

Definition removePart_segs (L : list path) (lp : path) : list path :=
  let L0 := filter (fun p => negb (prefixb lp p)) L in
  match lp with
  | _ :: _ :: _ =>
      let P := removelast lp in
      fold_left (renumber_step_segs P (last lp 0))
                (array_sort sibling_le (filter (childb P) L0)) L0
  | _ => L0
  end.

Definition wf_path (p : path) : Prop := nonneg p /\ p <> [].

(** ** General list facts *)

Lemma filter_map_agree {A B : Type} (h : A -> B) (f : B -> bool) (g : A -> bool) l :
  (forall x, In x l -> f (h x) = g x) ->
  filter f (map h l) = map h (filter g l).
Proof.
  induction l as [|x l IH]; intro H; simpl; [reflexivity|].
  rewrite (H x) by (left; reflexivity).
  rewrite IH by (intros y Hy; apply H; right; exact Hy).
  destruct (g x); reflexivity.
Qed.

Lemma skipn_app_exact {A : Type} (a b : list A) : skipn (List.length a) (a ++ b) = b.
Proof. induction a as [|x a IH]; [reflexivity | exact IH]. Qed.

Lemma skipn_incl {A : Type} n : forall (l : list A) x, In x (skipn n l) -> In x l.
Proof.
  induction n as [|n IH]; intros l x H; [exact H|].
  destruct l as [|y l]; [exact H|]. right. apply IH. exact H.
Qed.

Lemma insert_sorted_in {A : Type} (le : A -> A -> bool) x y l :
  In y (insert_sorted le x l) <-> y = x \/ In y l.
Proof.
  induction l as [|z l IH]; simpl.
  - split; [intros [H|[]]; left; congruence | intros [H|[]]; left; congruence].
  - destruct (le x z); simpl.
    + split; [intros [H|H]; [left; congruence | right; exact H]
             | intros [H|H]; [left; congruence | right; exact H]].
    + rewrite IH. split.
      * intros [H|[H|H]]; [right; left; exact H | left; exact H | right; right; exact H].
      * intros [H|[H|H]]; [right; left; exact H | left; exact H | right; right; exact H].
Qed.

Lemma array_sort_in {A : Type} (le : A -> A -> bool) y l :
  In y (array_sort le l) <-> In y l.
Proof.
  induction l as [|x l IH]; simpl; [reflexivity|].
  rewrite insert_sorted_in, IH. split; intros [H|H]; auto.
Qed.

Lemma insert_sorted_map {A B : Type} (h : A -> B) (le1 : B -> B -> bool)
  (le2 : A -> A -> bool) x l :
  (forall y, In y l -> le1 (h x) (h y) = le2 x y) ->
  insert_sorted le1 (h x) (map h l) = map h (insert_sorted le2 x l).
Proof.
  induction l as [|z l IH]; intro H; simpl; [reflexivity|].
  rewrite (H z) by (left; reflexivity).
  destruct (le2 x z); [reflexivity|]. simpl. f_equal.
  apply IH. intros y Hy. apply H. right. exact Hy.
Qed.

Lemma array_sort_map {A B : Type} (h : A -> B) (le1 : B -> B -> bool)
  (le2 : A -> A -> bool) l :
  (forall x y, In x l -> In y l -> le1 (h x) (h y) = le2 x y) ->
  array_sort le1 (map h l) = map h (array_sort le2 l).
Proof.
  induction l as [|x l IH]; intro H; simpl; [reflexivity|].
  rewrite IH by (intros a b Ha Hb; apply H; right; assumption).
  apply insert_sorted_map. intros y Hy. apply H; [left; reflexivity|].
  right. apply (array_sort_in le2). exact Hy.
Qed.

(** ** The string code computes the path code *)

Lemma wf_path_app P n : nonneg P -> 0 <= n -> wf_path (P ++ [n]).
Proof.
  intros HP Hn. split.
  - apply Forall_app. split; [exact HP | constructor; [exact Hn | constructor]].
  - destruct P; discriminate.
Qed.

Lemma render_snoc P n : P <> [] -> render (P ++ [n]) = render P ++ dot :: toString n.
Proof.
  intro NP. rewrite render_app by discriminate.
  rewrite <- render_stem by exact NP. rewrite <- app_assoc. reflexivity.
Qed.

Lemma rename_render P n p :
  nonneg P -> P <> [] -> 1 <= n -> wf_path p ->
  (if in_subtree (render P ++ dot :: toString n) (render p)
   then (render P ++ dot :: toString (n - 1))
        ++ substring_from (str_length (render P ++ dot :: toString n)) (render p)
   else render p)
  = render (rename_seg P n p).
Proof.
  intros HP NP Hn [Hp Np]. rewrite <- !render_snoc by exact NP.
  destruct (wf_path_app P n HP ltac:(lia)) as [Hold Nold].
  rewrite in_subtree_render by assumption.
  unfold rename_seg. destruct (prefixb (P ++ [n]) p) eqn:E; [|reflexivity].
  apply prefixb_spec in E as [rest ->].
  assert (Hskip : skipn (S (List.length P)) ((P ++ [n]) ++ rest) = rest).
  { replace (S (List.length P)) with (List.length (P ++ [n]))
      by (rewrite length_app; simpl; lia).
    apply skipn_app_exact. }
  rewrite Hskip. unfold substring_from, str_length. rewrite Nat2Z.id.
  destruct rest as [|x rest].
  - rewrite !app_nil_r. rewrite skipn_all. rewrite app_nil_r. reflexivity.
  - rewrite (render_app (P ++ [n])) by discriminate.
    rewrite (render_app (P ++ [n - 1])) by discriminate.
    rewrite <- !render_stem by (destruct P; discriminate).
    rewrite <- !app_assoc.
    rewrite skipn_app_exact. reflexivity.
Qed.

Lemma rename_seg_wf P n p :
  nonneg P -> 1 <= n -> wf_path p -> wf_path (rename_seg P n p).
Proof.
  intros HP Hn [Hp Np]. unfold rename_seg.
  destruct (prefixb (P ++ [n]) p); [|split; assumption].
  split.
  - apply Forall_app. split.
    + apply Forall_app. split; [exact HP | constructor; [lia | constructor]].
    + apply Forall_forall. intros x Hx. unfold nonneg in Hp. rewrite Forall_forall in Hp.
      apply Hp. eapply skipn_incl. exact Hx.
  - destruct P; discriminate.
Qed.

Lemma renumber_step_render P r L sib :
  nonneg P -> P <> [] -> 0 <= r -> Forall wf_path L -> wf_path sib ->
  renumber_step (render P) (Some r) (map render L) (render sib)
  = map render (renumber_step_segs P r L sib).
Proof.
  intros HP NP Hr HL [Hs Ns]. unfold renumber_step, renumber_step_segs.
  rewrite parseInt_last_render by assumption. cbn [num_gt].
  destruct (r <? last sib 0) eqn:E; [|reflexivity].
  apply Z.ltb_lt in E. rewrite !map_map. apply map_ext_in.
  intros p Hp. rewrite Forall_forall in HL.
  apply rename_render; try assumption; [lia | apply HL; exact Hp].
Qed.

Lemma renumber_step_segs_wf P r L sib :
  nonneg P -> 0 <= r -> Forall wf_path L -> Forall wf_path (renumber_step_segs P r L sib).
Proof.
  intros HP Hr HL. unfold renumber_step_segs.
  destruct (r <? last sib 0) eqn:E; [|exact HL].
  apply Z.ltb_lt in E. apply Forall_map. rewrite Forall_forall in *.
  intros p Hp. apply rename_seg_wf; [assumption | lia | apply HL; exact Hp].
Qed.

Lemma fold_renumber_render P r sibs : forall L,
  nonneg P -> P <> [] -> 0 <= r -> Forall wf_path L -> Forall wf_path sibs ->
  fold_left (renumber_step (render P) (Some r)) (map render sibs) (map render L)
  = map render (fold_left (renumber_step_segs P r) sibs L).
Proof.
  induction sibs as [|sib sibs IH]; intros L HP NP Hr HL Hs; [reflexivity|].
  inversion Hs; subst. cbn [map fold_left].
  rewrite renumber_step_render by assumption.
  apply IH; try assumption. apply renumber_step_segs_wf; assumption.
Qed.

Lemma fold_renumber_wf P r sibs : forall L,
  nonneg P -> 0 <= r -> Forall wf_path L ->
  Forall wf_path (fold_left (renumber_step_segs P r) sibs L).
Proof.
  induction sibs as [|sib sibs IH]; intros L HP Hr HL; [exact HL|].
  cbn [fold_left]. apply IH; try assumption. apply renumber_step_segs_wf; assumption.
Qed.

Lemma Forall_filter_keep {A : Type} (Q : A -> Prop) f l :
  Forall Q l -> Forall Q (filter f l).
Proof.
  intro H. rewrite Forall_forall in *. intros x Hx.
  apply filter_In in Hx as [Hx _]. apply H. exact Hx.
Qed.

Lemma nonneg_removelast p : nonneg p -> nonneg (removelast p).
Proof.
  induction p as [|x p IH]; intro H; [constructor|].
  inversion H; subst. destruct p as [|y p]; [constructor|].
  change (nonneg (x :: removelast (y :: p))). constructor; [assumption|].
  apply IH. assumption.
Qed.

Theorem removePart_render L lp :
  Forall wf_path L -> wf_path lp ->
  removePart true (map render L) (render lp) = map render (removePart_segs L lp).
Proof.
  intros HL [Hlp Nlp]. unfold removePart, removePart_segs. cbn [negb].
  assert (Hf : filter (fun pl => negb (in_subtree (render lp) pl)) (map render L)
               = map render (filter (fun p => negb (prefixb lp p)) L)).
  { apply filter_map_agree. intros p Hp. rewrite Forall_forall in HL.
    destruct (HL p Hp) as [H1 H2]. rewrite in_subtree_render by assumption. reflexivity. }
  rewrite Hf. set (L0 := filter (fun p => negb (prefixb lp p)) L).
  assert (HL0 : Forall wf_path L0) by (apply Forall_filter_keep; exact HL).
  destruct lp as [|x [|y lp']]; [contradiction| |].
  - inversion Hlp; subst. rewrite parentOf_render_root by assumption. reflexivity.
  - set (lp := x :: y :: lp') in *.
    assert (Elp : lp = removelast lp ++ [last lp 0])
      by (apply app_removelast_last; discriminate).
    assert (HP : nonneg (removelast lp)) by (apply nonneg_removelast; exact Hlp).
    assert (NP : removelast lp <> []) by (subst lp; simpl; destruct lp'; discriminate).
    assert (Hr : 0 <= last lp 0) by (apply last_nonneg; exact Hlp).
    rewrite Elp at 1. rewrite parentOf_render_child by assumption.
    rewrite parseInt_last_render by assumption.
    assert (Hc : directChildren (map render L0) (render (removelast lp))
                 = map render (filter (childb (removelast lp)) L0)).
    { unfold directChildren. apply filter_map_agree. intros p Hp.
      rewrite Forall_forall in HL0. destruct (HL0 p Hp).
      apply is_direct_child_render; assumption. }
    rewrite Hc.
    assert (Hsibs : Forall wf_path (filter (childb (removelast lp)) L0))
      by (apply Forall_filter_keep; exact HL0).
    rewrite (array_sort_map render sibling_leb sibling_le).
    + apply fold_renumber_render; try assumption.
      rewrite Forall_forall in *. intros p Hp. apply Hsibs.
      apply (array_sort_in sibling_le). exact Hp.
    + intros a b Ha Hb. rewrite Forall_forall in Hsibs.
      destruct (Hsibs a Ha), (Hsibs b Hb). unfold sibling_leb, sibling_le.
      rewrite !parseInt_last_render by assumption. reflexivity.
Qed.

End RemoveSegs.

(* ================================================================== *)
(** * The sort *)
(* ================================================================== *)

Module SortFacts.

Import RemoveSegs.

Section Sorting.
Context {A : Type}.
Variable le : A -> A -> bool.
(** The comparator need only be consistent on the values that occur. *)
Variable D : A -> Prop.
Hypothesis le_total : forall x y, D x -> D y -> le x y = true \/ le y x = true.
Hypothesis le_trans :
  forall x y z, D x -> D y -> D z -> le x y = true -> le y z = true -> le x z = true.

Let leP (a b : A) : Prop := le a b = true.

Lemma insert_sorted_perm x l : Permutation (insert_sorted le x l) (x :: l).
Proof.
  induction l as [|y l IH]; simpl; [apply Permutation_refl|].
  destruct (le x y); [apply Permutation_refl|].
  eapply Permutation_trans; [apply perm_skip, IH | apply perm_swap].
Qed.

Lemma array_sort_perm l : Permutation (array_sort le l) l.
Proof.
  induction l as [|x l IH]; simpl; [apply perm_nil|].
  eapply Permutation_trans; [apply insert_sorted_perm | apply perm_skip, IH].
Qed.

Lemma insert_sorted_sorted x l :
  D x -> Forall D l -> StronglySorted leP l ->
  StronglySorted leP (insert_sorted le x l).
Proof.
  intros Dx Dl Hs. induction l as [|y l IH]; simpl.
  - constructor; constructor.
  - inversion Dl as [|? ? Dy Dl']; subst.
    apply StronglySorted_inv in Hs as [Hs Hy].
    destruct (le x y) eqn:E.
    + constructor; [constructor; assumption|].
      constructor; [exact E|].
      apply Forall_forall. intros z Hz.
      rewrite Forall_forall in Hy, Dl'.
      apply (le_trans x y z); auto. apply Hy. exact Hz.
    + constructor; [apply IH; assumption|].
      apply Forall_forall. intros z Hz.
      apply insert_sorted_in in Hz as [->|Hz].
      * destruct (le_total x y Dx Dy) as [H|H]; [congruence | exact H].
      * rewrite Forall_forall in Hy. apply Hy. exact Hz.
Qed.

Lemma array_sort_sorted l :
  Forall D l -> StronglySorted leP (array_sort le l).
Proof.
  induction l as [|x l IH]; intro Dl; simpl; [constructor|].
  inversion Dl; subst. apply insert_sorted_sorted; auto.
  apply Forall_forall. intros y Hy. apply array_sort_in in Hy.
  rewrite Forall_forall in Dl. apply Dl. right. exact Hy.
Qed.
End Sorting.

End SortFacts.

(* ================================================================== *)
(** * What [removePart] computes *)
(* ================================================================== *)

Module RemoveSpec.

Import JSFacts Paths RemoveSegs SortFacts.

Definition path_eqb (a b : path) : bool :=
  if list_eq_dec Z.eq_dec a b then true else false.

Definition mem (p : path) (L : list path) : bool := existsb (path_eqb p) L.

(** The renumbering in the words of the specification: a label below a
    sibling [P.m] of the removed part [P.r] with [m > r] has that segment
    lowered by one; every other label stays. *)
Definition renumber (L : list path) (P : path) (r : Z) (p : path) : path :=
  if prefixb P p then
    match skipn (List.length P) p with
    | m :: rest =>
        if (r <? m) && mem (P ++ [m]) L then P ++ (m - 1) :: rest else p
    | [] => p
    end
  else p.

(** The removal in the words of the specification: the part and its
    descendants go, then the later siblings are renumbered.  A label of one
    segment has no sibling. *)
Definition removePart_spec (L : list path) (lp : path) : list path :=
  let L0 := filter (fun p => negb (prefixb lp p)) L in
  match lp with
  | _ :: _ :: _ => map (renumber L (removelast lp) (last lp 0)) L0
  | _ => L0
  end.

Lemma mem_spec p L : mem p L = true <-> In p L.
Proof.
  unfold mem. rewrite existsb_exists. split.
  - intros [q [Hq E]]. unfold path_eqb in E.
    destruct (list_eq_dec Z.eq_dec p q); [subst; exact Hq | discriminate].
  - intro H. exists p. split; [exact H|]. unfold path_eqb.
    destruct (list_eq_dec Z.eq_dec p p); [reflexivity | contradiction].
Qed.

Lemma prefixb_snoc P n m rest : prefixb (P ++ [n]) (P ++ m :: rest) = (n =? m).
Proof.
  induction P as [|x P IH]; simpl.
  - rewrite andb_true_r. reflexivity.
  - rewrite Z.eqb_refl. exact IH.
Qed.

Lemma prefixb_longer P n : prefixb (P ++ [n]) P = false.
Proof.
  induction P as [|x P IH]; simpl; [reflexivity|].
  rewrite Z.eqb_refl. exact IH.
Qed.

Lemma prefixb_trans a b p : prefixb a b = true -> prefixb b p = true -> prefixb a p = true.
Proof.
  rewrite !prefixb_spec. intros [x ->] [y ->]. exists (x ++ y). symmetry. apply app_assoc.
Qed.

Lemma childb_spec P p : childb P p = true <-> exists n, p = P ++ [n].
Proof.
  unfold childb. rewrite andb_true_iff, prefixb_spec, Nat.eqb_eq. split.
  - intros [[b ->] Hl]. rewrite length_app in Hl.
    destruct b as [|n [|? ?]]; simpl in Hl; try lia. exists n. reflexivity.
  - intros [n ->]. split; [exists [n]; reflexivity|].
    rewrite length_app. simpl. lia.
Qed.

Lemma rename_seg_hit P m rest : rename_seg P m (P ++ m :: rest) = P ++ (m - 1) :: rest.
Proof.
  unfold rename_seg. rewrite prefixb_snoc, Z.eqb_refl.
  replace (P ++ m :: rest) with ((P ++ [m]) ++ rest) by (rewrite <- app_assoc; reflexivity).
  replace (S (List.length P)) with (List.length (P ++ [m]))
    by (rewrite length_app; simpl; lia).
  rewrite skipn_app_exact. rewrite <- app_assoc. reflexivity.
Qed.

Lemma rename_seg_miss P n p : prefixb (P ++ [n]) p = false -> rename_seg P n p = p.
Proof. intro H. unfold rename_seg. rewrite H. reflexivity. Qed.

(** The loop rewrites every label on its own. *)
Definition apply_all (P : path) (r : Z) (sibs : list path) (p : path) : path :=
  fold_left (fun q sib => if r <? last sib 0 then rename_seg P (last sib 0) q else q)
            sibs p.

Lemma fold_renumber_pointwise P r sibs : forall L,
  fold_left (renumber_step_segs P r) sibs L = map (apply_all P r sibs) L.
Proof.
  induction sibs as [|sib sibs IH]; intro L; cbn [fold_left].
  - unfold apply_all. simpl. rewrite map_id. reflexivity.
  - rewrite IH. unfold renumber_step_segs, apply_all. cbn [fold_left].
    destruct (r <? last sib 0); [rewrite map_map|]; reflexivity.
Qed.

Lemma apply_all_miss P r sibs : forall p,
  (forall sib, In sib sibs -> r < last sib 0 -> prefixb (P ++ [last sib 0]) p = false) ->
  apply_all P r sibs p = p.
Proof.
  induction sibs as [|sib sibs IH]; intros p H; [reflexivity|].
  unfold apply_all. cbn [fold_left].
  assert (E : (if r <? last sib 0 then rename_seg P (last sib 0) p else p) = p).
  { destruct (r <? last sib 0) eqn:E; [|reflexivity].
    apply rename_seg_miss. apply H; [left; reflexivity | apply Z.ltb_lt; exact E]. }
  rewrite E. apply IH. intros s Hs. apply H. right. exact Hs.
Qed.

Lemma apply_all_hit P r m rest sibs :
  StronglySorted (fun a b => sibling_le a b = true) sibs ->
  r < m -> (exists sib, In sib sibs /\ last sib 0 = m) ->
  apply_all P r sibs (P ++ m :: rest) = P ++ (m - 1) :: rest.
Proof.
  intros Hs Hr. induction sibs as [|sib sibs IH]; intros [w [Hw Hlast]]; [destruct Hw|].
  apply StronglySorted_inv in Hs as [Hs Hhd].
  unfold apply_all. cbn [fold_left].
  destruct (Z.eq_dec (last sib 0) m) as [E|E].
  - rewrite E. destruct (r <? m) eqn:Er; [|apply Z.ltb_ge in Er; lia].
    rewrite rename_seg_hit. apply apply_all_miss.
    intros s Hin _. rewrite prefixb_snoc. apply Z.eqb_neq.
    rewrite Forall_forall in Hhd. specialize (Hhd s Hin).
    unfold sibling_le in Hhd. apply Z.leb_le in Hhd. lia.
  - assert (Em : (if r <? last sib 0 then rename_seg P (last sib 0) (P ++ m :: rest)
                  else P ++ m :: rest) = P ++ m :: rest).
    { destruct (r <? last sib 0); [|reflexivity].
      apply rename_seg_miss. rewrite prefixb_snoc. apply Z.eqb_neq. exact E. }
    rewrite Em. apply IH; [exact Hs|].
    destruct Hw as [->|Hw]; [contradiction|]. exists w. split; assumption.
Qed.

Lemma sibling_sort_sorted sibs :
  StronglySorted (fun a b => sibling_le a b = true) (array_sort sibling_le sibs).
Proof.
  apply (array_sort_sorted sibling_le (fun _ => True)).
  - intros x y _ _. unfold sibling_le. rewrite !Z.leb_le. lia.
  - intros x y z _ _ _. unfold sibling_le. rewrite !Z.leb_le. lia.
  - apply Forall_forall. intros; exact I.
Qed.

(** The loop over the sorted siblings is the renumbering of the
    specification, on every list of labels. *)
Theorem removePart_segs_spec L lp : removePart_segs L lp = removePart_spec L lp.
Proof.
  unfold removePart_segs, removePart_spec.
  destruct lp as [|x [|y lp']]; [reflexivity | reflexivity |].
  set (lp := x :: y :: lp').
  set (P := removelast lp). set (r := last lp 0).
  set (L0 := filter (fun p => negb (prefixb lp p)) L).
  assert (Elp : lp = P ++ [r]) by (apply app_removelast_last; discriminate).
  rewrite fold_renumber_pointwise. apply map_ext_in. intros p Hp.
  set (sibs := array_sort sibling_le (filter (childb P) L0)).
  assert (Hsib : forall s, In s sibs ->
            exists n, s = P ++ [n] /\ last s 0 = n /\ In (P ++ [n]) L).
  { intros s Hs. unfold sibs in Hs. apply (proj1 (array_sort_in sibling_le _ _)) in Hs.
    apply filter_In in Hs as [Hs Hc]. apply childb_spec in Hc as [n ->].
    exists n. split; [reflexivity|]. split; [apply last_last|].
    apply filter_In in Hs as [Hs _]. exact Hs. }
  unfold renumber. destruct (prefixb P p) eqn:EP.
  - apply prefixb_spec in EP as [tail ->]. rewrite skipn_app_exact.
    destruct tail as [|m rest].
    + apply apply_all_miss. intros s Hs _. rewrite app_nil_r. apply prefixb_longer.
    + destruct ((r <? m) && mem (P ++ [m]) L) eqn:Eh.
      * apply andb_true_iff in Eh as [Hr Hm].
        apply Z.ltb_lt in Hr. apply mem_spec in Hm.
        apply apply_all_hit; [apply sibling_sort_sorted | exact Hr |].
        exists (P ++ [m]). split; [|apply last_last].
        apply (proj2 (array_sort_in sibling_le _ _)). apply filter_In. split.
        -- apply filter_In. split; [exact Hm|].
           rewrite Elp, (prefixb_snoc P r m []). apply negb_true_iff, Z.eqb_neq. lia.
        -- apply childb_spec. exists m. reflexivity.
      * apply apply_all_miss. intros s Hs Hlt.
        destruct (Hsib s Hs) as [n [-> [Hn Hin]]]. rewrite Hn in *.
        rewrite prefixb_snoc. apply Z.eqb_neq. intros ->.
        apply andb_false_iff in Eh as [Eh|Eh].
        -- apply Z.ltb_ge in Eh. lia.
        -- apply mem_spec in Hin. congruence.
  - apply apply_all_miss. intros s Hs _.
    destruct (prefixb (P ++ [last s 0]) p) eqn:E; [|reflexivity].
    rewrite (prefixb_trans P (P ++ [last s 0]) p) in EP;
      [discriminate | apply prefixb_app | exact E].
Qed.

End RemoveSpec.

(* ================================================================== *)
(** * Sibling contiguity on paths *)
(* ================================================================== *)

Module Contiguity.

Import JSFacts Paths RemoveSegs SortFacts RemoveSpec.

(** Below every parent the final segments start at 1 and have no gap:
    a child numbered [n] is at least 1 and, above 1, has its predecessor. *)
Definition contig (L : list path) : Prop :=
  forall Q n, Q <> [] -> In (Q ++ [n]) L ->
    1 <= n /\ (1 < n -> In (Q ++ [n - 1]) L).

Lemma exists_last_or_nil {A : Type} (l : list A) :
  l = [] \/ exists l' x, l = l' ++ [x].
Proof.
  destruct l as [|a l]; [left; reflexivity|]. right.
  destruct (@exists_last A (a :: l)) as [l' [x E]]; [discriminate|].
  exists l', x. exact E.
Qed.

Lemma prefixb_snoc_r lp Q n :
  prefixb lp (Q ++ [n]) = true -> prefixb lp Q = true \/ lp = Q ++ [n].
Proof.
  rewrite !prefixb_spec. intros [b Hb].
  destruct (exists_last_or_nil b) as [->|[b' [x ->]]].
  - right. rewrite app_nil_r in Hb. congruence.
  - left. rewrite app_assoc in Hb. apply app_inj_tail in Hb as [-> _].
    exists b'. reflexivity.
Qed.

Lemma renumber_hit L P r m rest :
  r < m -> In (P ++ [m]) L ->
  renumber L P r (P ++ m :: rest) = P ++ (m - 1) :: rest.
Proof.
  intros Hr Hm. unfold renumber. rewrite prefixb_app, skipn_app_exact.
  apply Z.ltb_lt in Hr. apply mem_spec in Hm. rewrite Hr, Hm. reflexivity.
Qed.

Lemma renumber_cases L P r p :
  renumber L P r p = p
  \/ exists m rest, p = P ++ m :: rest /\ r < m /\ In (P ++ [m]) L
                    /\ renumber L P r p = P ++ (m - 1) :: rest.
Proof.
  unfold renumber. destruct (prefixb P p) eqn:E; [|left; reflexivity].
  apply prefixb_spec in E as [tail ->]. rewrite skipn_app_exact.
  destruct tail as [|m rest]; [left; reflexivity|].
  destruct ((r <? m) && mem (P ++ [m]) L) eqn:Eh; [|left; reflexivity].
  apply andb_true_iff in Eh as [Hr Hm]. apply Z.ltb_lt in Hr. apply mem_spec in Hm.
  right. exists m, rest. repeat split; assumption.
Qed.

Lemma renumber_fixed_not_hit L P r m rest :
  renumber L P r (P ++ m :: rest) = P ++ m :: rest -> r < m -> In (P ++ [m]) L -> False.
Proof.
  intros Hfix Hr Hm. rewrite renumber_hit in Hfix by assumption.
  apply app_inv_head in Hfix. inversion Hfix. lia.
Qed.

Lemma renumber_miss L P r p :
  (forall m rest, p = P ++ m :: rest -> r < m -> In (P ++ [m]) L -> False) ->
  renumber L P r p = p.
Proof.
  intro H. destruct (renumber_cases L P r p) as [E|[m [rest [Hp [Hr [Hm _]]]]]];
    [exact E | exfalso; exact (H m rest Hp Hr Hm)].
Qed.

Lemma snoc_eq_cons_cases (P Q : path) m n rest :
  Q ++ [n] = P ++ m :: rest ->
  (rest = [] /\ Q = P /\ n = m)
  \/ exists rest', rest = rest' ++ [n] /\ Q = P ++ m :: rest'.
Proof.
  intro E. destruct (exists_last_or_nil rest) as [->|[rest' [x ->]]].
  - left. apply app_inj_tail in E as [-> ->]. auto.
  - right. exists rest'.
    replace (P ++ m :: rest' ++ [x]) with ((P ++ m :: rest') ++ [x]) in E
      by (rewrite <- app_assoc; reflexivity).
    apply app_inj_tail in E as [-> ->]. auto.
Qed.

Lemma contig_filter_root L lp :
  (List.length lp <= 1)%nat -> contig L ->
  contig (filter (fun p => negb (prefixb lp p)) L).
Proof.
  intros Hlen HL Q n NQ H. apply filter_In in H as [H Hn].
  destruct (HL Q n NQ H) as [H1 H2]. split; [exact H1|].
  intro Hgt. apply filter_In. split; [apply H2; exact Hgt|].
  apply negb_true_iff in Hn. apply negb_true_iff.
  destruct (prefixb lp (Q ++ [n - 1])) eqn:E; [|reflexivity].
  apply prefixb_snoc_r in E as [E|E].
  - rewrite (prefixb_trans lp Q (Q ++ [n])) in Hn;
      [discriminate | exact E | apply prefixb_app].
  - subst lp. rewrite length_app in Hlen. simpl in Hlen.
    destruct Q; [contradiction | simpl in Hlen; lia].
Qed.

Lemma contig_renumber L P r :
  P <> [] -> contig L -> In (P ++ [r]) L ->
  contig (map (renumber L P r) (filter (fun p => negb (prefixb (P ++ [r]) p)) L)).
Proof.
  intros NP HL Hlp.
  set (R := map (renumber L P r) (filter (fun p => negb (prefixb (P ++ [r]) p)) L)).
  assert (inR : forall p, In p L -> prefixb (P ++ [r]) p = false ->
                          In (renumber L P r p) R).
  { intros p Hp Hn. apply in_map. apply filter_In. split; [exact Hp|].
    rewrite Hn. reflexivity. }
  destruct (HL P r NP Hlp) as [Hr1 Hrpred].
  intros Q n NQ H. apply in_map_iff in H as [p [Hrho Hp]].
  apply filter_In in Hp as [HpL Hpn]. apply negb_true_iff in Hpn.
  destruct (renumber_cases L P r p) as [Hid|[m [rest [Ep [Hrm [Hm Hrho']]]]]].
  - (* the label is not renumbered *)
    rewrite Hid in Hrho. subst p.
    destruct (HL Q n NQ HpL) as [H1 H2]. split; [exact H1|].
    intro Hgt. specialize (H2 Hgt).
    assert (Hfix : renumber L P r (Q ++ [n - 1]) = Q ++ [n - 1]).
    { apply renumber_miss. intros m rest E Hrm Hm.
      apply snoc_eq_cons_cases in E as [[-> [-> <-]]|[rest' [-> ->]]].
      - apply (renumber_fixed_not_hit L P r n []); [exact Hid | lia|].
        destruct (HL P n NP HpL) as [_ Hpred]. exact HpL.
      - apply (renumber_fixed_not_hit L P r m (rest' ++ [n])); [|exact Hrm|exact Hm].
        replace (P ++ m :: rest' ++ [n]) with ((P ++ m :: rest') ++ [n])
          by (rewrite <- app_assoc; reflexivity).
        exact Hid. }
    rewrite <- Hfix. apply inR; [exact H2|].
    destruct (prefixb (P ++ [r]) (Q ++ [n - 1])) eqn:E; [|reflexivity].
    apply prefixb_snoc_r in E as [E|E].
    + rewrite (prefixb_trans (P ++ [r]) Q (Q ++ [n])) in Hpn;
        [discriminate | exact E | apply prefixb_app].
    + apply app_inj_tail in E as [-> ->]. exfalso.
      apply (renumber_fixed_not_hit L Q (n - 1) n []); [exact Hid | lia | exact HpL].
  - (* the label sits below a renumbered sibling *)
    rewrite Hrho' in Hrho. subst p. symmetry in Hrho.
    apply snoc_eq_cons_cases in Hrho as [[-> [-> ->]]|[rest' [-> ->]]].
    + split; [lia|]. intro Hgt.
      destruct (Z.eq_dec (m - 1) r) as [E|E].
      * (* the sibling right after the removed part takes its number *)
        rewrite E. assert (Hin : In (P ++ [r - 1]) L) by (apply Hrpred; lia).
        assert (Hfix : renumber L P r (P ++ [r - 1]) = P ++ [r - 1]).
        { apply renumber_miss. intros m' rest' E' Hlt _.
          apply app_inv_head in E'. inversion E'. lia. }
        rewrite <- Hfix. apply inR; [exact Hin|].
        rewrite (prefixb_snoc P r (r - 1) []). apply Z.eqb_neq. lia.
      * destruct (HL P m NP HpL) as [_ Hpred].
        assert (Hin : In (P ++ [m - 1]) L) by (apply Hpred; lia).
        replace (P ++ [m - 1 - 1]) with (renumber L P r (P ++ [m - 1]))
          by (apply renumber_hit; [lia | exact Hin]).
        apply inR; [exact Hin|].
        rewrite (prefixb_snoc P r (m - 1) []). apply Z.eqb_neq. lia.
    + replace (P ++ m :: rest' ++ [n]) with ((P ++ m :: rest') ++ [n]) in HpL
        by (rewrite <- app_assoc; reflexivity).
      assert (NQ' : P ++ m :: rest' <> []) by (destruct P; discriminate).
      destruct (HL _ n NQ' HpL) as [H1 H2]. split; [exact H1|].
      intro Hgt. specialize (H2 Hgt).
      rewrite <- app_assoc in H2. cbn [app] in H2.
      replace ((P ++ m - 1 :: rest') ++ [n - 1])
        with (renumber L P r (P ++ m :: rest' ++ [n - 1])).
      * apply inR; [exact H2|]. rewrite prefixb_snoc. apply Z.eqb_neq. lia.
      * rewrite renumber_hit by assumption. rewrite <- app_assoc. reflexivity.
Qed.

Theorem contig_removePart_spec L lp :
  contig L -> In lp L -> contig (removePart_spec L lp).
Proof.
  intros HL Hin. unfold removePart_spec.
  destruct lp as [|x [|y lp']].
  - apply contig_filter_root; [simpl; lia | exact HL].
  - apply contig_filter_root; [simpl; lia | exact HL].
  - set (lp := x :: y :: lp') in *.
    assert (Elp : lp = removelast lp ++ [last lp 0])
      by (apply app_removelast_last; discriminate).
    assert (NP : removelast lp <> []) by (subst lp; simpl; destruct lp'; discriminate).
    pose proof (contig_renumber L (removelast lp) (last lp 0) NP HL) as H.
    rewrite <- Elp in H. apply H. exact Hin.
Qed.

(** ** At most six children *)

Definition branching (L : list path) : Prop :=
  forall Q, Q <> [] -> (List.length (filter (childb Q) L) <= 6)%nat.

Lemma filter_length_impl {A : Type} (f g : A -> bool) l :
  (forall x, In x l -> f x = true -> g x = true) ->
  (List.length (filter f l) <= List.length (filter g l))%nat.
Proof.
  induction l as [|x l IH]; intro H; [apply Nat.le_refl|]. cbn [filter].
  assert (IH' : (List.length (filter f l) <= List.length (filter g l))%nat)
    by (apply IH; intros y Hy; apply H; right; exact Hy).
  destruct (f x) eqn:E.
  - rewrite (H x (or_introl eq_refl) E). simpl. lia.
  - destruct (g x); simpl; lia.
Qed.

Lemma filter_filter_length {A : Type} (f h : A -> bool) l :
  (List.length (filter f (filter h l)) <= List.length (filter f l))%nat.
Proof.
  induction l as [|x l IH]; [apply Nat.le_refl|]. cbn [filter].
  destruct (h x); cbn [filter]; destruct (f x); simpl; lia.
Qed.

Lemma renumber_length L P r p :
  List.length (renumber L P r p) = List.length p.
Proof.
  destruct (renumber_cases L P r p) as [->|[m [rest [-> [_ [_ ->]]]]]]; [reflexivity|].
  rewrite !length_app. reflexivity.
Qed.

(** The parent whose children become the children of [Q]: the later
    sibling subtree that moves onto [Q], or [Q] itself. *)
Definition source_parent (L : list path) (P : path) (r : Z) (Q : path) : path :=
  if prefixb P Q then
    match skipn (List.length P) Q with
    | x :: rest =>
        if (r <=? x) && mem (P ++ [x + 1]) L then P ++ (x + 1) :: rest else Q
    | [] => Q
    end
  else Q.

Lemma source_parent_nonnil L P r Q : Q <> [] -> source_parent L P r Q <> [].
Proof.
  intro NQ. unfold source_parent. destruct (prefixb P Q); [|exact NQ].
  destruct (skipn (List.length P) Q) as [|x rest]; [exact NQ|].
  destruct ((r <=? x) && mem (P ++ [x + 1]) L); [|exact NQ].
  destruct P; discriminate.
Qed.

Lemma children_source L P r Q p :
  P <> [] -> contig L -> In (P ++ [r]) L ->
  In p L -> prefixb (P ++ [r]) p = false ->
  childb Q (renumber L P r p) = true -> childb (source_parent L P r Q) p = true.
Proof.
  intros NP HL Hlp Hp Hn Hc.
  destruct (HL P r NP Hlp) as [Hr1 _].
  apply childb_spec in Hc as [n Hc].
  destruct (renumber_cases L P r p) as [Hid|[m [rest [Ep [Hrm [Hm Hrho]]]]]].
  - rewrite Hid in Hc. subst p. unfold source_parent.
    destruct (prefixb P Q) eqn:EP; [|apply childb_spec; exists n; reflexivity].
    apply prefixb_spec in EP as [tail ->]. rewrite skipn_app_exact.
    destruct tail as [|x rest]; [apply childb_spec; exists n; reflexivity|].
    destruct ((r <=? x) && mem (P ++ [x + 1]) L) eqn:E;
      [|apply childb_spec; exists n; reflexivity].
    exfalso. apply andb_true_iff in E as [E1 E2].
    apply Z.leb_le in E1. apply mem_spec in E2.
    rewrite <- app_assoc in Hn, Hid. cbn [app] in Hn, Hid.
    rewrite prefixb_snoc in Hn. apply Z.eqb_neq in Hn.
    destruct (HL P (x + 1) NP E2) as [_ Hpred].
    apply (renumber_fixed_not_hit L P r x (rest ++ [n])); [exact Hid | lia|].
    replace x with (x + 1 - 1) by lia. apply Hpred. lia.
  - rewrite Hrho in Hc. subst p. symmetry in Hc.
    apply snoc_eq_cons_cases in Hc as [[-> [-> ->]]|[rest' [-> ->]]].
    + unfold source_parent. rewrite prefixb_refl.
      replace (skipn (List.length P) P) with (@nil Z)
        by (symmetry; apply skipn_all).
      apply childb_spec. exists m. reflexivity.
    + unfold source_parent. rewrite prefixb_app, skipn_app_exact.
      replace (m - 1 + 1) with m by lia.
      apply mem_spec in Hm. rewrite Hm.
      replace (r <=? m - 1) with true by (symmetry; apply Z.leb_le; lia).
      cbn [andb]. apply childb_spec. exists n. rewrite <- app_assoc. reflexivity.
Qed.

Lemma branching_renumber L P r :
  P <> [] -> contig L -> branching L -> In (P ++ [r]) L ->
  branching (map (renumber L P r) (filter (fun p => negb (prefixb (P ++ [r]) p)) L)).
Proof.
  intros NP HL HB Hlp Q NQ. rewrite filter_map_swap, length_map.
  etransitivity;
    [apply (filter_length_impl _ (childb (source_parent L P r Q)))|].
  - intros p Hp Hc. apply filter_In in Hp as [Hp Hn]. apply negb_true_iff in Hn.
    apply children_source; assumption.
  - etransitivity; [apply filter_filter_length|].
    apply HB. apply source_parent_nonnil. exact NQ.
Qed.

Theorem branching_removePart_spec L lp :
  contig L -> branching L -> In lp L -> branching (removePart_spec L lp).
Proof.
  intros HL HB Hin. unfold removePart_spec.
  destruct lp as [|x [|y lp']].
  - intros Q NQ. etransitivity; [apply filter_filter_length | apply HB; exact NQ].
  - intros Q NQ. etransitivity; [apply filter_filter_length | apply HB; exact NQ].
  - set (lp := x :: y :: lp') in *.
    assert (Elp : lp = removelast lp ++ [last lp 0])
      by (apply app_removelast_last; discriminate).
    assert (NP : removelast lp <> []) by (subst lp; simpl; destruct lp'; discriminate).
    pose proof (branching_renumber L (removelast lp) (last lp 0) NP HL HB) as H.
    rewrite <- Elp in H. apply H. exact Hin.
Qed.

Lemma removePart_spec_length L lp q :
  In q (removePart_spec L lp) -> exists p, In p L /\ List.length q = List.length p.
Proof.
  unfold removePart_spec. intro H.
  destruct lp as [|x [|y lp']];
    try (apply filter_In in H as [H _]; exists q; split; [exact H | reflexivity]).
  apply in_map_iff in H as [p [<- Hp]]. apply filter_In in Hp as [Hp _].
  exists p. split; [exact Hp | apply renumber_length].
Qed.

End Contiguity.

(* ================================================================== *)
(** * Valid label sets *)
(* ================================================================== *)

Module LabelInvariant.

Import JSFacts Paths RemoveSegs SortFacts RemoveSpec Contiguity.

(** The integers of a label, one per segment. *)
Definition segs (label : str) : path :=
  map (fun s => or_zero (parseInt s)) (split_dot label).

(** A label is well formed when it is the dotted rendering of natural
    numbers without leading zeros: it prints back from its integers. *)
Definition wf_label (label : str) : bool :=
  str_eqb (render (segs label)) label && forallb (fun x => 0 <=? x) (segs label).

(** The final segments of the direct children of [parent]. *)
Definition childSuffixes (labels : list str) (parent : str) : list Z :=
  map (fun l => or_zero (parseInt (last_segment l))) (directChildren labels parent).

(** The integers [1 .. k]. *)
Definition upto (k : Z) : list Z := map Z.of_nat (seq 1 (Z.to_nat k)).

Definition largest (l : list Z) : Z := fold_left Z.max l 0.

(** The children of [parent] are numbered exactly [1 .. k]: every suffix is
    at least 1 and every integer up to the largest suffix is one. *)
Definition contiguous_at (labels : list str) (parent : str) : bool :=
  let cs := childSuffixes labels parent in
  forallb (fun n => 1 <=? n) cs
  && forallb (fun j => existsb (Z.eqb j) cs) (upto (largest cs)).

Definition branching_at (labels : list str) (parent : str) : bool :=
  Z.of_nat (List.length (directChildren labels parent)) <=? 6.

(** A valid label set: well-formed labels of depth at most 6, and under the
    parent of every label at most 6 children, numbered from 1 without gap. *)
Definition valid (labels : list str) : bool :=
  forallb wf_label labels
  && forallb (fun l => depth l <=? 6) labels
  && forallb (fun l =>
                match parentOf l with
                | Some parent => branching_at labels parent && contiguous_at labels parent
                | None => true
                end)
             labels.

(** The sibling-contiguity invariant as the specification words it. *)
Definition contiguous (labels : list str) : Prop :=
  forall parent, exists k, 0 <= k /\
    forall n, In n (childSuffixes labels parent) <-> 1 <= n <= k.

(** ** Well-formed labels are rendered paths *)

Lemma segs_render p : nonneg p -> p <> [] -> segs (render p) = p.
Proof.
  intros Hp Np. unfold segs. rewrite split_render by assumption.
  rewrite map_map. rewrite <- (map_id p) at 2. apply map_ext_in.
  intros x Hx. unfold nonneg in Hp. rewrite Forall_forall in Hp.
  rewrite parseInt_toString by (apply Hp; exact Hx). reflexivity.
Qed.

Lemma segs_nonnil label : segs label <> [].
Proof.
  unfold segs. intro E. apply map_eq_nil in E. exact (split_dot_nonnil _ E).
Qed.

Lemma wf_label_path label :
  wf_label label = true -> wf_path (segs label) /\ label = render (segs label).
Proof.
  unfold wf_label. intro H. apply andb_true_iff in H as [H1 H2].
  apply str_eqb_spec in H1. split; [split|].
  - apply Forall_forall. intros x Hx. rewrite forallb_forall in H2.
    apply Z.leb_le. apply H2. exact Hx.
  - apply segs_nonnil.
  - symmetry. exact H1.
Qed.

Lemma wf_label_render p : wf_path p -> wf_label (render p) = true.
Proof.
  intros [Hp Np]. unfold wf_label. rewrite segs_render by assumption.
  rewrite str_eqb_refl. simpl. apply forallb_forall. intros x Hx.
  apply Z.leb_le. unfold nonneg in Hp. rewrite Forall_forall in Hp. apply Hp. exact Hx.
Qed.

Lemma wf_labels_paths labels :
  forallb wf_label labels = true ->
  Forall wf_path (map segs labels) /\ labels = map render (map segs labels).
Proof.
  intro H. rewrite forallb_forall in H. split.
  - apply Forall_forall. intros p Hp. apply in_map_iff in Hp as [l [<- Hl]].
    apply wf_label_path. apply H. exact Hl.
  - rewrite map_map. rewrite <- (map_id labels) at 1. apply map_ext_in.
    intros l Hl. apply wf_label_path. apply H. exact Hl.
Qed.

Lemma map_segs_render R : Forall wf_path R -> map segs (map render R) = R.
Proof.
  intro H. rewrite map_map. rewrite <- (map_id R) at 2. apply map_ext_in.
  intros p Hp. rewrite Forall_forall in H. destruct (H p Hp). apply segs_render; assumption.
Qed.

(** ** Child suffixes of rendered paths *)

Lemma childSuffixes_render R Q :
  Forall wf_path R -> wf_path Q ->
  childSuffixes (map render R) (render Q)
  = map (fun p => last p 0) (filter (childb Q) R).
Proof.
  intros HR [HQ NQ]. unfold childSuffixes, directChildren.
  rewrite (filter_map_agree render (is_direct_child (render Q)) (childb Q)).
  - rewrite map_map. apply map_ext_in. intros p Hp.
    apply filter_In in Hp as [Hp _]. rewrite Forall_forall in HR.
    destruct (HR p Hp). rewrite parseInt_last_render by assumption. reflexivity.
  - intros p Hp. rewrite Forall_forall in HR. destruct (HR p Hp).
    apply is_direct_child_render; assumption.
Qed.

Lemma in_child_lasts R Q n :
  In n (map (fun p => last p 0) (filter (childb Q) R)) <-> In (Q ++ [n]) R.
Proof.
  rewrite in_map_iff. split.
  - intros [p [Hl Hp]]. apply filter_In in Hp as [Hp Hc].
    apply childb_spec in Hc as [m ->]. rewrite last_last in Hl. subst m. exact Hp.
  - intro H. exists (Q ++ [n]). split; [apply last_last|].
    apply filter_In. split; [exact H|]. apply childb_spec. exists n. reflexivity.
Qed.

(** A string that has a rendered path as direct child is itself one. *)
Lemma direct_child_parent parent p :
  wf_path p -> is_direct_child parent (render p) = true ->
  exists Q, wf_path Q /\ parent = render Q.
Proof.
  intros [Hp Np] H. unfold is_direct_child in H.
  destruct (startsWith (render p) (parent ++ [dot])) eqn:E; [|discriminate].
  apply Z.eqb_eq in H. apply startsWith_spec in E as [t Et].
  rewrite <- app_assoc in Et. cbn [app] in Et.
  assert (Hs : split_dot (render p) = split_dot parent ++ split_dot t)
    by (rewrite Et; apply split_dot_app).
  unfold depth in H. rewrite Hs, length_app in H.
  destruct (split_dot t) as [|t0 [|t1 ts]] eqn:Est;
    [exfalso; exact (split_dot_nonnil _ Est) | | simpl in H; lia].
  rewrite split_render in Hs by assumption.
  destruct (exists_last_or_nil p) as [->|[p' [x ->]]]; [contradiction|].
  rewrite map_app in Hs. cbn [map] in Hs. apply app_inj_tail in Hs as [Hs _].
  assert (Hp' : nonneg p') by (apply Forall_app in Hp; tauto).
  exists p'. split; [split|].
  - exact Hp'.
  - intros ->. symmetry in Hs. exact (split_dot_nonnil _ Hs).
  - rewrite <- (join_split parent), <- Hs. reflexivity.
Qed.

(** ** From the checks to the path invariant and back *)

Lemma fold_max_ge_init l : forall a, a <= fold_left Z.max l a.
Proof.
  induction l as [|x l IH]; intro a; cbn [fold_left]; [lia|].
  specialize (IH (Z.max a x)). lia.
Qed.

Lemma largest_ge l : forall a n, In n l -> n <= fold_left Z.max l a.
Proof.
  induction l as [|x l IH]; intros a n H; [destruct H|].
  cbn [fold_left]. destruct H as [->|H].
  - pose proof (fold_max_ge_init l (Z.max a n)). lia.
  - apply IH. exact H.
Qed.

Lemma largest_in l : forall a, a < fold_left Z.max l a -> In (fold_left Z.max l a) l.
Proof.
  induction l as [|x l IH]; intros a H; cbn [fold_left] in *; [lia|].
  pose proof (fold_max_ge_init l (Z.max a x)) as Hge.
  destruct (Z.eq_dec (fold_left Z.max l (Z.max a x)) (Z.max a x)) as [E|E].
  - left. rewrite E in *. lia.
  - right. apply IH. lia.
Qed.

Lemma in_upto j k : In j (upto k) <-> 1 <= j <= k.
Proof.
  unfold upto. rewrite in_map_iff. split.
  - intros [i [<- Hi]]. apply in_seq in Hi. lia.
  - intro H. exists (Z.to_nat j). split; [lia|]. apply in_seq. lia.
Qed.

Lemma valid_contig labels :
  valid labels = true -> contig (map segs labels).
Proof.
  intros H. unfold valid in H.
  apply andb_true_iff in H as [H H3]. apply andb_true_iff in H as [H1 _].
  destruct (wf_labels_paths _ H1) as [HR EL].
  intros Q n NQ Hin.
  assert (Hwf : wf_path (Q ++ [n])) by (rewrite Forall_forall in HR; apply HR; exact Hin).
  destruct Hwf as [Hnn _]. apply Forall_app in Hnn as [HQ Hn].
  inversion Hn as [|? ? Hn0 _]; subst.
  apply in_map_iff in Hin as [l [El Hl]].
  rewrite forallb_forall in H3. specialize (H3 l Hl).
  rewrite forallb_forall in H1. destruct (wf_label_path l (H1 l Hl)) as [_ Er].
  rewrite Er, El in H3. rewrite parentOf_render_child in H3 by assumption.
  apply andb_true_iff in H3 as [_ H3]. unfold contiguous_at in H3.
  rewrite EL in H3. rewrite childSuffixes_render in H3 by (try split; assumption).
  apply andb_true_iff in H3 as [Hlow Hall].
  rewrite forallb_forall in Hlow, Hall.
  assert (Hn' : In n (map (fun p => last p 0) (filter (childb Q) (map segs labels)))).
  { apply in_child_lasts. rewrite <- El. apply in_map. exact Hl. }
  split; [apply Z.leb_le, Hlow, Hn'|].
  intro Hgt. apply in_child_lasts.
  assert (Hj : In (n - 1) (upto (largest (map (fun p => last p 0)
                                           (filter (childb Q) (map segs labels)))))).
  { apply in_upto. pose proof (largest_ge _ 0 n Hn'). unfold largest. lia. }
  specialize (Hall _ Hj). apply existsb_exists in Hall as [j [Hj' E]].
  apply Z.eqb_eq in E. subst j. exact Hj'.
Qed.

Lemma contig_range R Q :
  Q <> [] -> contig R ->
  exists k, 0 <= k /\ forall n, In (Q ++ [n]) R <-> 1 <= n <= k.
Proof.
  intros NQ HR.
  set (cs := map (fun p => last p 0) (filter (childb Q) R)).
  exists (largest cs). split.
  - apply fold_max_ge_init.
  - intro n. split.
    + intro H. split; [apply (HR Q n NQ H)|].
      apply largest_ge. apply in_child_lasts. exact H.
    + intros [H1 Hk].
      assert (Hmax : In (Q ++ [largest cs]) R).
      { apply in_child_lasts. fold cs. apply (largest_in cs 0).
        unfold largest in Hk. lia. }
      assert (Hdown : forall d : nat, 1 <= largest cs - Z.of_nat d ->
                                      In (Q ++ [largest cs - Z.of_nat d]) R).
      { induction d as [|d IH]; intro Hd.
        - replace (largest cs - Z.of_nat 0) with (largest cs) by lia. exact Hmax.
        - replace (largest cs - Z.of_nat (S d)) with (largest cs - Z.of_nat d - 1) by lia.
          apply (HR Q (largest cs - Z.of_nat d) NQ); [apply IH; lia | lia]. }
      replace n with (largest cs - Z.of_nat (Z.to_nat (largest cs - n))) by lia.
      apply Hdown. lia.
Qed.

Lemma contig_contiguous R :
  Forall wf_path R -> contig R -> contiguous (map render R).
Proof.
  intros HR HC parent.
  destruct (directChildren (map render R) parent) as [|c cs] eqn:E.
  - exists 0. split; [lia|]. intro n. unfold childSuffixes. rewrite E. simpl.
    split; [intros [] | lia].
  - assert (Hc : In c (directChildren (map render R) parent)) by (rewrite E; left; reflexivity).
    apply filter_In in Hc as [Hc Hd]. apply in_map_iff in Hc as [p [<- Hp]].
    rewrite Forall_forall in HR.
    destruct (direct_child_parent parent p (HR p Hp) Hd) as [Q [HQ ->]].
    destruct (contig_range R Q (proj2 HQ) HC) as [k [Hk Hrange]].
    exists k. split; [exact Hk|]. intro n.
    rewrite childSuffixes_render by (try apply Forall_forall; assumption).
    rewrite in_child_lasts. apply Hrange.
Qed.

Lemma removePart_segs_wf L lp :
  Forall wf_path L -> wf_path lp -> Forall wf_path (removePart_segs L lp).
Proof.
  intros HL [Hlp Nlp]. unfold removePart_segs.
  destruct lp as [|x [|y lp']]; try (apply Forall_filter_keep; exact HL).
  apply fold_renumber_wf.
  - apply nonneg_removelast. exact Hlp.
  - apply last_nonneg. exact Hlp.
  - apply Forall_filter_keep. exact HL.
Qed.

(** ** Validity of a list of rendered paths *)

Lemma valid_branching labels :
  valid labels = true -> branching (map segs labels).
Proof.
  intros H Q NQ. unfold valid in H.
  apply andb_true_iff in H as [H H3]. apply andb_true_iff in H as [H1 _].
  destruct (wf_labels_paths _ H1) as [HR EL].
  destruct (filter (childb Q) (map segs labels)) as [|c cs] eqn:E; [simpl; lia|].
  assert (Hc : In c (filter (childb Q) (map segs labels))) by (rewrite E; left; reflexivity).
  apply filter_In in Hc as [Hc Hd]. apply childb_spec in Hd as [n ->].
  assert (Hwf : wf_path (Q ++ [n])) by (rewrite Forall_forall in HR; apply HR; exact Hc).
  destruct Hwf as [Hnn _]. apply Forall_app in Hnn as [HQ Hn].
  inversion Hn as [|? ? Hn0 _]; subst.
  apply in_map_iff in Hc as [l [El Hl]].
  rewrite forallb_forall in H3. specialize (H3 l Hl).
  rewrite forallb_forall in H1. destruct (wf_label_path l (H1 l Hl)) as [_ Er].
  rewrite Er, El in H3. rewrite parentOf_render_child in H3 by assumption.
  apply andb_true_iff in H3 as [H3 _]. unfold branching_at in H3.
  apply Z.leb_le in H3. rewrite EL in H3. unfold directChildren in H3.
  rewrite (filter_map_agree render (is_direct_child (render Q)) (childb Q)) in H3.
  - rewrite length_map, E in H3. lia.
  - intros p Hp. rewrite Forall_forall in HR. destruct (HR p Hp).
    apply is_direct_child_render; assumption.
Qed.

Lemma valid_depth labels p :
  valid labels = true -> In p (map segs labels) -> (List.length p <= 6)%nat.
Proof.
  intros H Hp. unfold valid in H.
  apply andb_true_iff in H as [H _]. apply andb_true_iff in H as [H1 H2].
  apply in_map_iff in Hp as [l [<- Hl]].
  rewrite forallb_forall in H1, H2.
  destruct (wf_label_path l (H1 l Hl)) as [[Hn Hne] Er].
  specialize (H2 l Hl). apply Z.leb_le in H2.
  rewrite Er, depth_render in H2 by assumption. lia.
Qed.

Lemma fold_max_le l : forall a k,
  a <= k -> (forall n, In n l -> n <= k) -> fold_left Z.max l a <= k.
Proof.
  induction l as [|x l IH]; intros a k Ha H; cbn [fold_left]; [exact Ha|].
  apply IH; [|intros n Hn; apply H; right; exact Hn].
  specialize (H x (or_introl eq_refl)). lia.
Qed.

Lemma largest_le l k : 0 <= k -> (forall n, In n l -> n <= k) -> largest l <= k.
Proof. intros Hk H. unfold largest. apply fold_max_le; assumption. Qed.

Lemma valid_of_paths R :
  Forall wf_path R -> (forall p, In p R -> (List.length p <= 6)%nat) ->
  branching R -> contig R -> valid (map render R) = true.
Proof.
  intros HR Hd HB HC. unfold valid. rewrite !andb_true_iff. split; [split|].
  - apply forallb_forall. intros l Hl. apply in_map_iff in Hl as [p [<- Hp]].
    apply wf_label_render. rewrite Forall_forall in HR. apply HR. exact Hp.
  - apply forallb_forall. intros l Hl. apply in_map_iff in Hl as [p [<- Hp]].
    rewrite Forall_forall in HR. destruct (HR p Hp).
    rewrite depth_render by assumption. apply Z.leb_le. specialize (Hd p Hp). lia.
  - apply forallb_forall. intros l Hl. apply in_map_iff in Hl as [p [<- Hp]].
    pose proof HR as HR'. rewrite Forall_forall in HR'. destruct (HR' p Hp) as [Hn Hne].
    destruct (exists_last_or_nil p) as [->|[Q [n ->]]]; [contradiction|].
    apply Forall_app in Hn as [HQ Hn]. inversion Hn as [|? ? Hn0 _]; subst.
    destruct Q as [|x Q]; [cbn [app]; rewrite parentOf_render_root by exact Hn0; reflexivity|].
    set (Q' := x :: Q) in *. assert (NQ : Q' <> []) by discriminate.
    rewrite parentOf_render_child by assumption.
    apply andb_true_iff. split.
    + unfold branching_at, directChildren.
      rewrite (filter_map_agree render (is_direct_child (render Q')) (childb Q')).
      * rewrite length_map. apply Z.leb_le. specialize (HB Q' NQ). lia.
      * intros p' Hp'. destruct (HR' p' Hp').
        apply is_direct_child_render; assumption.
    + unfold contiguous_at.
      rewrite childSuffixes_render by (try split; assumption).
      set (cs := map (fun p => last p 0) (filter (childb Q') R)).
      destruct (contig_range R Q' NQ HC) as [k [Hk Hrange]].
      apply andb_true_iff. split.
      * apply forallb_forall. intros m Hm. apply Z.leb_le.
        apply in_child_lasts in Hm. apply Hrange in Hm. lia.
      * apply forallb_forall. intros j Hj. apply in_upto in Hj.
        apply existsb_exists. exists j. split; [|apply Z.eqb_refl].
        apply in_child_lasts. apply Hrange.
        assert (largest cs <= k).
        { apply largest_le; [exact Hk|]. intros m Hm.
          apply in_child_lasts in Hm. apply Hrange in Hm. lia. }
        lia.
Qed.

End LabelInvariant.

Import LabelInvariant.

(** C1. For every valid label set (well-formed labels, siblings contiguous
    from 1, depth at most 6, at most 6 children per parent) and every label
    of it, [removePart] deletes the label and all labels below it and lowers
    by one the segment of every later sibling together with its whole
    subtree: the integers of the result are [removePart_spec] of the integers
    of the input.  Afterwards the child suffixes of every parent are exactly
    [1 .. k] for some [k >= 0], and the result is again a valid label set. *)
Theorem removePart_preserves_contiguity (labels : list str) (label : str) :
  valid labels = true -> In label labels ->
  map segs (removePart true labels label)
    = RemoveSpec.removePart_spec (map segs labels) (segs label)
  /\ contiguous (removePart true labels label)
  /\ valid (removePart true labels label) = true.
Proof.
  intros Hv Hin.
  pose proof (valid_contig labels Hv) as HC.
  pose proof (valid_branching labels Hv) as HB.
  pose proof (fun p => valid_depth labels p Hv) as HD.
  unfold valid in Hv. apply andb_true_iff in Hv as [Hv _].
  apply andb_true_iff in Hv as [Hwf _].
  destruct (wf_labels_paths labels Hwf) as [HL EL].
  rewrite forallb_forall in Hwf.
  destruct (wf_label_path label (Hwf label Hin)) as [Hlp El].
  assert (Hinp : In (segs label) (map segs labels)) by (apply in_map; exact Hin).
  assert (HR : Forall RemoveSegs.wf_path (RemoveSegs.removePart_segs (map segs labels) (segs label)))
    by (apply removePart_segs_wf; assumption).
  assert (E : removePart true labels label
              = map Paths.render (RemoveSegs.removePart_segs (map segs labels) (segs label))).
  { rewrite EL at 1. rewrite El at 1. apply RemoveSegs.removePart_render; assumption. }
  assert (HC' : Contiguity.contig (RemoveSegs.removePart_segs (map segs labels) (segs label))).
  { rewrite RemoveSpec.removePart_segs_spec.
    apply Contiguity.contig_removePart_spec; assumption. }
  rewrite E. split; [|split].
  - rewrite map_segs_render by exact HR. apply RemoveSpec.removePart_segs_spec.
  - apply contig_contiguous; assumption.
  - apply valid_of_paths; try assumption.
    + intros q Hq. rewrite RemoveSpec.removePart_segs_spec in Hq.
      apply Contiguity.removePart_spec_length in Hq as [p [Hp ->]]. apply HD. exact Hp.
    + rewrite RemoveSpec.removePart_segs_spec.
      apply Contiguity.branching_removePart_spec; assumption.
Qed.

Lemma removePart_preserves_contiguity_witness :
  let labels := [lit "2.1"; lit "2.2"; lit "2.3"; lit "2.3.1"] in
  valid labels = true /\ In (lit "2.2") labels
  /\ map segs (removePart true labels (lit "2.2"))
       = RemoveSpec.removePart_spec (map segs labels) (segs (lit "2.2"))
  /\ contiguous (removePart true labels (lit "2.2"))
  /\ valid (removePart true labels (lit "2.2")) = true.
Proof.
  assert (Hv : valid [lit "2.1"; lit "2.2"; lit "2.3"; lit "2.3.1"] = true) by reflexivity.
  assert (Hi : In (lit "2.2") [lit "2.1"; lit "2.2"; lit "2.3"; lit "2.3.1"])
    by (simpl; tauto).
  exact (conj Hv (conj Hi (removePart_preserves_contiguity _ _ Hv Hi))).
Defined.

(* ================================================================== *)
(** * The order of [sortPartLabels] *)
(* ================================================================== *)

Module SortLabels.

Import JSFacts SortFacts.

Definition is_digitb (c : ascii) : bool :=
  match digit_val c with Some _ => true | None => false end.

(** A dotted-decimal label: every segment is a non-empty string of decimal
    digits. *)
Definition dotted_decimal (label : str) : bool :=
  forallb (fun seg => negb (str_eqb seg []) && forallb is_digitb seg) (split_dot label).

(** The integer segments of a label, as the comparator reads them. *)
Definition numbers (label : str) : list Z :=
  map (fun seg => or_zero (Number seg)) (split_dot label).

(** The labels on which the numbers of the script are exact integers: every
    segment is a string of decimal digits and denotes an integer below 2^53.
    On these [parseInt] and [Number] read the integer without rounding,
    [highest + 1] and the differences of the comparators are exact, and the
    comparator of [sortPartLabels] is consistent, so that the stable sort has
    one result. *)
Definition exact_label (label : str) : bool :=
  dotted_decimal label && forallb (fun n => n <? 2 ^ 53) (numbers label).

(** The order in the words of the specification: segments are compared as
    integers from the left, and where one label ends first it comes first. *)
Fixpoint segments_le (a b : list Z) : bool :=
  match a, b with
  | [], _ => true
  | _ :: _, [] => false
  | x :: a', y :: b' => (x <? y) || ((x =? y) && segments_le a' b')
  end.

Lemma compare_from_shift A B a b : forall n i,
  compare_from (a :: A) (b :: B) (S i) n = compare_from A B i n.
Proof.
  induction n as [|n IH]; intro i; cbn [compare_from nth].
  - cbn [List.length]. f_equal. lia.
  - rewrite IH. reflexivity.
Qed.

(** The comparator is not positive exactly when the segments are in
    order. *)
Lemma compare_from_sign xa : forall xb,
  Forall (fun x => 0 <= x) xa -> Forall (fun x => 0 <= x) xb ->
  exists d,
    compare_from (map Some xa) (map Some xb) 0
                 (Nat.max (List.length (map Some xa)) (List.length (map Some xb))) = Some d
    /\ (d <=? 0) = segments_le xa xb.
Proof.
  induction xa as [|x xa IH]; intros [|y xb] Ha Hb.
  - exists 0. split; reflexivity.
  - inversion Hb; subst. cbn [map List.length Nat.max compare_from nth].
    destruct (negb (-1 =? y)) eqn:E.
    + exists (-1 - y). split; [reflexivity|]. cbn [segments_le]. apply Z.leb_le. lia.
    + apply negb_false_iff, Z.eqb_eq in E. lia.
  - inversion Ha; subst. cbn [map List.length Nat.max compare_from nth].
    destruct (negb (x =? -1)) eqn:E.
    + exists (x - -1). split; [reflexivity|]. cbn [segments_le]. apply Z.leb_gt. lia.
    + apply negb_false_iff, Z.eqb_eq in E. lia.
  - inversion Ha; inversion Hb; subst.
    cbn [map List.length]. rewrite <- Nat.succ_max_distr.
    cbn [compare_from nth segments_le].
    destruct (Z.eqb_spec x y) as [->|Hne]; cbn [negb].
    + rewrite compare_from_shift. destruct (IH xb) as [d [Hd Hs]]; try assumption.
      exists d. split; [exact Hd|]. rewrite Hs, Z.ltb_irrefl. reflexivity.
    + exists (x - y). split; [reflexivity|].
      rewrite andb_false_l, orb_false_r.
      destruct (Z.ltb_spec x y); [apply Z.leb_le | apply Z.leb_gt]; lia.
Qed.






Lemma segments_le_total a : forall b, segments_le a b = true \/ segments_le b a = true.
Proof.
  induction a as [|x a IH]; intros [|y b]; simpl; auto.
  destruct (Z.ltb_spec x y); [left; reflexivity|].
  destruct (Z.ltb_spec y x); [right; reflexivity|].
  assert (x = y) by lia. subst y. rewrite Z.eqb_refl. simpl. apply IH.
Qed.

Lemma segments_le_trans a : forall b c,
  segments_le a b = true -> segments_le b c = true -> segments_le a c = true.
Proof.
  induction a as [|x a IH]; intros [|y b] [|z c]; simpl; intros H1 H2;
    try reflexivity; try discriminate.
  apply orb_true_iff in H1. apply orb_true_iff in H2. apply orb_true_iff.
  destruct H1 as [H1|H1], H2 as [H2|H2];
    rewrite ?andb_true_iff, ?Z.ltb_lt, ?Z.eqb_eq in *.
  - left. lia.
  - left. lia.
  - left. lia.
  - right. destruct H1 as [-> H1], H2 as [-> H2]. split; [reflexivity|].
    apply (IH b c); assumption.
Qed.

Lemma StronglySorted_agree {A : Type} (R R' : A -> A -> Prop) l :
  (forall a b, In a l -> In b l -> R a b -> R' a b) ->
  StronglySorted R l -> StronglySorted R' l.
Proof.
  intros H Hs. induction Hs as [|a l Hs IH Hall]; [constructor|].
  constructor.
  - apply IH. intros x y Hx Hy. apply H; right; assumption.
  - rewrite Forall_forall in *. intros x Hx.
    apply H; [left; reflexivity | right; exact Hx | apply Hall; exact Hx].
Qed.

End SortLabels.

Import SortLabels.



(* ================================================================== *)
(** * The limits of the add operations *)
(* ================================================================== *)

Module AddLimits.

Import JSFacts SortFacts.





Lemma toString_dotfree_all n : dotfree (toString n).
Proof.
  unfold toString. destruct (n <? 0) eqn:E.
  - apply Z.ltb_lt in E. apply dotfree_cons. split; [discriminate|].
    apply digits_dotfree. apply digits_of_is_digit; [lia | constructor].
  - apply Z.ltb_ge in E. apply digits_dotfree.
    apply digits_of_is_digit; [lia | constructor].
Qed.

Lemma depth_child parent t :
  dotfree t -> depth (parent ++ dot :: t) = depth parent + 1.
Proof.
  intro H. unfold depth. rewrite split_dot_app, length_app.
  rewrite (split_dot_dotfree _ H). simpl. lia.
Qed.




Lemma Permutation_filter_keep {A : Type} (f : A -> bool) l l' :
  Permutation l l' -> Permutation (filter f l) (filter f l').
Proof.
  intro H. induction H as [|x l l' H IH|x y l|l l' l'' H1 IH1 H2 IH2]; simpl.
  - apply perm_nil.
  - destruct (f x); [apply perm_skip|]; exact IH.
  - destruct (f x), (f y); try apply Permutation_refl. apply perm_swap.
  - eapply Permutation_trans; eassumption.
Qed.



Lemma highestSubpart_largest labels parent :
  highestSubpart labels parent = LabelInvariant.largest (LabelInvariant.childSuffixes labels parent).
Proof.
  unfold highestSubpart, LabelInvariant.largest, LabelInvariant.childSuffixes, directChildren.
  assert (G : forall a, 0 <= a ->
    fold_left
      (fun highest label =>
         if str_eqb label parent then highest
         else if startsWith label (parent ++ [dot]) then
           if depth label =? depth parent + 1 then
             match parseInt (last_segment label) with
             | Some lastPart => if highest <? lastPart then lastPart else highest
             | None => highest
             end
           else highest
         else highest) labels a
    = fold_left Z.max
        (map (fun l => or_zero (parseInt (last_segment l)))
             (filter (is_direct_child parent) labels)) a).
  { induction labels as [|l labels IH]; intros a Ha; [reflexivity|].
    cbn [fold_left filter].
    assert (Hc : is_direct_child parent l
                 = if startsWith l (parent ++ [dot]) then depth l =? depth parent + 1
                   else false) by reflexivity.
    rewrite Hc. clear Hc.
    destruct (str_eqb l parent) eqn:El.
    - apply str_eqb_spec in El. subst l.
      assert (Hs : startsWith parent (parent ++ [dot]) = false).
      { destruct (startsWith parent (parent ++ [dot])) eqn:S; [|reflexivity].
        apply startsWith_spec in S as [t Ht].
        apply (f_equal (@List.length ascii)) in Ht.
        rewrite !length_app in Ht. simpl in Ht. lia. }
      rewrite Hs. apply IH. exact Ha.
    - destruct (startsWith l (parent ++ [dot])); [|apply IH; exact Ha].
      destruct (depth l =? depth parent + 1); [|apply IH; exact Ha].
      cbn [map fold_left].
      destruct (parseInt (last_segment l)) as [v|]; cbn [or_zero].
      + destruct (Z.ltb_spec a v).
        * rewrite Z.max_r by lia. apply IH. lia.
        * rewrite Z.max_l by lia. apply IH. lia.
      + rewrite Z.max_l by lia. apply IH. exact Ha. }
  apply G. lia.
Qed.






End AddLimits.

Import AddLimits.



(** C2. One top-level part with five sub-parts, a valid label set that the
    add buttons produce from the empty list, already makes
    [addSubpartToQuestion] alert and add nothing: the test counts every
    label that starts with the question number and a dot, not the top-level
    parts only. *)
Theorem addSubpartToQuestion_counts_descendants :
  let labels := [lit "1.1"; lit "1.1.1"; lit "1.1.2"; lit "1.1.3"; lit "1.1.4"; lit "1.1.5"] in
  let add_under l := LabelTree.parts (addSubpart l (lit "1.1")) in
  add_under (add_under (add_under (add_under (add_under
    (LabelTree.parts (addSubpartToQuestion (lit "1") []))))))
  = labels
  /\ valid labels = true
  /\ List.length (directChildren labels (lit "1")) = 1%nat
  /\ addSubpartToQuestion (lit "1") labels
     = Outcome (Some "Maximum of 6 subparts reached for this question"%string) labels.
Proof. repeat split; reflexivity. Qed.

(* ================================================================== *)
(** * The document stage *)
(* ================================================================== *)

(** C6, as stated, fails: stage [-1] lies outside [0 .. 8] and yet resolves
    to the question paper. *)
Lemma negative_stage_is_question_paper :
  ~ (0 <= -1 <= 8)
  /\ getDocStage (-1) = 0
  /\ document_type_of (-1) = Some (lit "question_paper").
Proof. split; [lia | split; reflexivity]. Qed.

(** C6, amended. The role is a function of the stage alone: every stage up
    to 2, negative ones included, is the question paper, 3 the marking
    scheme, 4 the solution script, 5 to 8 the answer script, and every stage
    above 8 has no role ([getDocStage] gives [-1]). *)
Theorem document_type_of_stage (stage : Z) :
  (stage <= 2 -> document_type_of stage = Some (lit "question_paper"))
  /\ (stage = 3 -> document_type_of stage = Some (lit "marking_scheme"))
  /\ (stage = 4 -> document_type_of stage = Some (lit "solution_script"))
  /\ (5 <= stage <= 8 -> document_type_of stage = Some (lit "answer_script"))
  /\ (8 < stage -> getDocStage stage = -1 /\ document_type_of stage = None).
Proof.
  unfold document_type_of, getDocStage.
  split; [|split; [|split; [|split]]]; intro H.
  - destruct (Z.leb_spec stage 2); [reflexivity | lia].
  - subst. reflexivity.
  - subst. reflexivity.
  - destruct (Z.leb_spec stage 2); [lia|].
    destruct (Z.eqb_spec stage 3); [lia|]. destruct (Z.eqb_spec stage 4); [lia|].
    destruct (Z.leb_spec 5 stage); [|lia]. destruct (Z.leb_spec stage 8); [|lia].
    reflexivity.
  - destruct (Z.leb_spec stage 2); [lia|].
    destruct (Z.eqb_spec stage 3); [lia|]. destruct (Z.eqb_spec stage 4); [lia|].
    destruct (Z.leb_spec 5 stage); [|lia]. destruct (Z.leb_spec stage 8); [lia|].
    split; reflexivity.
Qed.

Lemma document_type_of_stage_witness :
  document_type_of 0 = Some (lit "question_paper")
  /\ document_type_of 3 = Some (lit "marking_scheme")
  /\ document_type_of 4 = Some (lit "solution_script")
  /\ document_type_of 6 = Some (lit "answer_script")
  /\ document_type_of 9 = None.
Proof.
  split; [apply (proj1 (document_type_of_stage 0)); lia|].
  split; [apply (proj1 (proj2 (document_type_of_stage 3))); reflexivity|].
  split; [apply (proj1 (proj2 (proj2 (document_type_of_stage 4)))); reflexivity|].
  split; [apply (proj1 (proj2 (proj2 (proj2 (document_type_of_stage 6))))); lia|].
  apply (proj2 (proj2 (proj2 (proj2 (document_type_of_stage 9))))). lia.
Defined.

(* ================================================================== *)
(** * Final submission and the stage advance *)
(* ================================================================== *)

Module SubmitFacts.

(** The extract request is sent for the answer script only. *)
Lemma extract_only_for_answer_script sv document_type n :
  In PostExtract (handleSubmit sv document_type n) ->
  document_type = Some (lit "answer_script").
Proof.
  unfold handleSubmit. intro H. apply in_app_or in H as [H|H].
  - apply in_map_iff in H as [i [E _]]. discriminate.
  - destruct (forallb _ _); [|destruct H].
    destruct document_type as [t|].
    + destruct (str_eqb t (lit "answer_script")) eqn:E.
      * apply JSFacts.str_eqb_spec in E. subst. reflexivity.
      * destruct H as [H|[]]. discriminate.
    + destruct H as [H|[]]. discriminate.
Qed.

(** A rejected extract request, or an answer that is not JSON, stops the
    submission before the stage write and the grading request. *)
Lemma failed_parse_blocks_stage sv document_type n :
  json_ok (extract_answer sv) = false ->
  ~ In (PostStage 7) (handleSubmit sv document_type n)
  /\ ~ In PostGrade (handleSubmit sv document_type n).
Proof.
  intro Hx. unfold handleSubmit. rewrite Hx.
  split; intro H; apply in_app_or in H as [H|H];
    try (apply in_map_iff in H as [i [E _]]; discriminate);
    (destruct (forallb _ _); [|destruct H]);
    (destruct document_type as [t|];
     [destruct (str_eqb t (lit "answer_script"))|]);
    simpl in H; intuition discriminate.
Qed.

End SubmitFacts.

(** C7. The extract answer is an error status with a JSON body (what the
    server sends on a failure): [handleSubmit] reads the body without testing
    [ok], reports success, writes stage 7 and requests the grading. *)
Theorem error_status_still_advances_stage :
  let sv := Server (fun _ => Responded true true) (Responded false true)
                   (Responded true true) in
  handleSubmit sv (Some (lit "answer_script")) 1
  = [PostQuestion 0; PostExtract;
     Alert "Responses submitted and processed successfully!"%string;
     PostStage 7; PostGrade].
Proof. reflexivity. Qed.

(* ================================================================== *)
(** * The geometry of a stitched image *)
(* ================================================================== *)

Module StitchFacts.

(** The sum of the heights. *)
Definition heights (images : list image) : Z :=
  fold_right (fun img acc => naturalHeight img + acc) 0 images.

Lemma measure_from images : forall w h,
  fold_left
    (fun '(maxWidth, totalHeight) img =>
       (Z.max maxWidth (naturalWidth img), totalHeight + naturalHeight img))
    images (w, h)
  = (fold_left Z.max (map naturalWidth images) w, h + heights images).
Proof.
  induction images as [|img images IH]; intros w h; cbn [fold_left map].
  - unfold heights. cbn [fold_right]. f_equal. lia.
  - rewrite IH. unfold heights. cbn [fold_right]. f_equal. lia.
Qed.

Lemma measure_spec images :
  measure images = (fold_left Z.max (map naturalWidth images) 0, heights images).
Proof. unfold measure. rewrite measure_from. reflexivity. Qed.

Lemma draw_all_nth maxWidth images : forall y i img,
  nth_error images i = Some img ->
  nth_error (draw_all maxWidth y images) i
  = Some (Draw img (inject_Z (maxWidth - naturalWidth img) / 2)%Q
               (y + heights (firstn i images))).
Proof.
  induction images as [|x images IH]; intros y i img H; [destruct i; discriminate|].
  destruct i as [|i]; cbn [nth_error draw_all firstn] in *.
  - inversion H; subst. unfold heights. cbn [fold_right]. do 2 f_equal. lia.
  - rewrite (IH _ _ _ H). unfold heights. cbn [fold_right]. do 2 f_equal. lia.
Qed.

Lemma draw_all_length maxWidth images : forall y,
  List.length (draw_all maxWidth y images) = List.length images.
Proof.
  induction images as [|x images IH]; intro y; [reflexivity|].
  cbn [draw_all List.length]. rewrite IH. reflexivity.
Qed.

(** The fragments of an image drawn with its top-left corner at [(x, y)]. *)
Definition drawn_at (img : image) (x : Q) (y : Z) : list placed :=
  map (fun f => Placed (what f) (at_x f + x)%Q (at_y f + y)) (content img).

Lemma heights_append pre img :
  heights (pre ++ [img]) = heights pre + naturalHeight img.
Proof.
  induction pre as [|x pre IH]; unfold heights in *; cbn [app fold_right]; lia.
Qed.

Lemma firstn_prefix {A : Type} (pre rest : list A) :
  firstn (List.length pre) (pre ++ rest) = pre.
Proof.
  rewrite firstn_app, Nat.sub_diag, firstn_all. cbn [firstn]. apply app_nil_r.
Qed.

Lemma draw_all_content maxWidth rest : forall pre,
  flat_map (fun d => drawn_at (drawn d) (draw_x d) (draw_y d))
           (draw_all maxWidth (heights pre) rest)
  = flat_map
      (fun '(i, img) =>
         drawn_at img (inject_Z (maxWidth - naturalWidth img) / 2)%Q
                  (heights (firstn i (pre ++ rest))))
      (combine (seq (List.length pre) (List.length rest)) rest).
Proof.
  induction rest as [|img rest IH]; intro pre; [reflexivity|].
  cbn [draw_all List.length seq combine flat_map drawn draw_x draw_y].
  rewrite firstn_prefix. f_equal.
  rewrite <- heights_append, (IH (pre ++ [img])).
  rewrite <- app_assoc, length_app. cbn [app List.length].
  rewrite Nat.add_1_r. reflexivity.
Qed.

(** What the image that [concatenateImages] returns shows: the fragments of
    every input, in the order of the inputs, the i-th input moved to the
    horizontal offset [(maxWidth - width) / 2] and to the vertical offset that
    is the sum of the heights before it. *)
Lemma concatenateImages_content images :
  content (concatenateImages images)
  = flat_map
      (fun '(i, img) =>
         drawn_at img
           (inject_Z (canvas_width (stitch images) - naturalWidth img) / 2)%Q
           (heights (firstn i images)))
      (combine (seq 0 (List.length images)) images).
Proof.
  unfold concatenateImages, toDataURL, stitch. rewrite measure_spec.
  cbn [content draws canvas_width].
  exact (draw_all_content _ images []).
Qed.

End StitchFacts.

Import StitchFacts.

(** C5. For a non-empty sequence of images (of non-negative widths)
    [concatenateImages] makes a canvas as wide as the widest image and as
    high as the sum of the heights; it draws the images in their order, the
    i-th at the vertical offset that is the sum of the heights before it and
    at the horizontal offset [(maxWidth - width) / 2]; the image it returns
    has the size of the canvas and shows exactly that: the fragments of the
    inputs, in the order of the inputs, each input moved to its offsets. *)
Theorem concatenateImages_layout (images : list image) :
  images <> [] -> Forall (fun img => 0 <= naturalWidth img) images ->
  let c := stitch images in
  (forall img, In img images -> naturalWidth img <= canvas_width c)
  /\ (exists img, In img images /\ naturalWidth img = canvas_width c)
  /\ canvas_height c = heights images
  /\ List.length (draws c) = List.length images
  /\ (forall i img, nth_error images i = Some img ->
        nth_error (draws c) i
        = Some (Draw img (inject_Z (canvas_width c - naturalWidth img) / 2)%Q
                     (heights (firstn i images))))
  /\ naturalWidth (concatenateImages images) = canvas_width c
  /\ naturalHeight (concatenateImages images) = heights images
  /\ content (concatenateImages images)
     = flat_map
         (fun '(i, img) =>
            drawn_at img (inject_Z (canvas_width c - naturalWidth img) / 2)%Q
                     (heights (firstn i images)))
         (combine (seq 0 (List.length images)) images).
Proof.
  intros Hne Hw. cbv zeta.
  split; [|split; [|split; [|split; [|split; [|split; [|split]]]]]];
    try apply concatenateImages_content;
    unfold concatenateImages, toDataURL, stitch;
    rewrite measure_spec; cbn [canvas_width canvas_height draws naturalWidth naturalHeight];
    set (W := fold_left Z.max (map naturalWidth images) 0); try reflexivity.
  - intros img Hin. apply LabelInvariant.largest_ge. apply in_map. exact Hin.
  - destruct (Z.eq_dec W 0) as [E|E].
    + destruct images as [|img rest]; [contradiction|]. exists img.
      split; [left; reflexivity|]. inversion Hw; subst.
      assert (naturalWidth img <= W)
        by (apply LabelInvariant.largest_ge; left; reflexivity).
      lia.
    + assert (Hin : In W (map naturalWidth images)).
      { apply LabelInvariant.largest_in.
        pose proof (LabelInvariant.fold_max_ge_init (map naturalWidth images) 0).
        fold W in H. fold W. lia. }
      apply in_map_iff in Hin as [img [Ei Hi]]. exists img. split; assumption.
  - apply draw_all_length.
  - intros i img H. rewrite (draw_all_nth W images 0 i img H). do 2 f_equal.
Qed.

Lemma concatenateImages_layout_witness :
  let a := Image 300 40 [Placed (Caption (lit "Question Number 1")) 0 0] in
  let b := Image 500 120 [Placed (BoxCrop 0 20 20 500 120) 0 0] in
  canvas_width (stitch [a; b]) = 500
  /\ canvas_height (stitch [a; b]) = 160
  /\ nth_error (draws (stitch [a; b])) 1 = Some (Draw b (inject_Z (500 - 500) / 2)%Q 40)
  /\ naturalHeight (concatenateImages [a; b]) = 160
  /\ content (concatenateImages [a; b])
     = [Placed (Caption (lit "Question Number 1")) (0 + inject_Z (500 - 300) / 2)%Q (0 + 0);
        Placed (BoxCrop 0 20 20 500 120) (0 + inject_Z (500 - 500) / 2)%Q (0 + 40)].
Proof.
  pose (a := Image 300 40 [Placed (Caption (lit "Question Number 1")) 0 0]).
  pose (b := Image 500 120 [Placed (BoxCrop 0 20 20 500 120) 0 0]).
  assert (Hne : [a; b] <> []) by discriminate.
  assert (Hw : Forall (fun img => 0 <= naturalWidth img) [a; b])
    by (repeat constructor; simpl; lia).
  destruct (concatenateImages_layout [a; b] Hne Hw)
    as [_ [_ [Hh [_ [Hd [_ [Hn Hc]]]]]]].
  split; [reflexivity|]. split; [exact Hh|].
  split; [exact (Hd 1%nat b eq_refl)|]. split; [exact Hn|].
  exact (eq_trans Hc eq_refl).
Defined.

(* ================================================================== *)
(** * Capture: end of a gesture and deletion of a region *)
(* ================================================================== *)

Module CaptureFacts.

(** Numbering changes the number and the stacking order of a region and
    nothing else. *)
Section Projection.
Context {B : Type}.
Variable f : region -> B.
Hypothesis f_number : forall r n, f (with_number r n) = f r.

Lemma set_number_map rid n rs : map f (set_number rid n rs) = map f rs.
Proof.
  induction rs as [|r rs IH]; [reflexivity|]. cbn [set_number].
  destruct (regionId r =? rid); cbn [map]; [rewrite f_number | rewrite IH]; reflexivity.
Qed.

Lemma number_from_map ws : forall i rs, map f (number_from i ws rs) = map f rs.
Proof.
  induction ws as [|w ws IH]; intros i rs; [reflexivity|].
  cbn [number_from]. rewrite IH. apply set_number_map.
Qed.
End Projection.

Lemma Qltb_lt a b : Qltb a b = true <-> (a < b)%Q.
Proof.
  unfold Qltb. rewrite negb_true_iff. split.
  - intro H. apply Qnot_le_lt. intro Hle. apply Qle_bool_iff in Hle. congruence.
  - intro H. destruct (Qle_bool b a) eqn:E; [|reflexivity].
    apply Qle_bool_iff in E. exfalso. exact (Qlt_not_le _ _ H E).
Qed.

Lemma too_small_spec r :
  too_small r = true <-> (width r < 5)%Q \/ (height r < 5)%Q.
Proof. unfold too_small. rewrite orb_true_iff, !Qltb_lt. reflexivity. Qed.

Lemma too_small_false r :
  too_small r = false <-> (5 <= width r)%Q /\ (5 <= height r)%Q.
Proof.
  split.
  - intro H. split; apply Qnot_lt_le; intro Hlt;
      assert (too_small r = true) by (apply too_small_spec; auto); congruence.
  - intros [H1 H2]. destruct (too_small r) eqn:E; [|reflexivity].
    apply too_small_spec in E as [E|E]; exfalso;
      [exact (Qle_not_lt _ _ H1 E) | exact (Qle_not_lt _ _ H2 E)].
Qed.

(** The raster that [cropAndAddImage] cuts for rectangle [r] on overlay
    [ov]: the rectangle scaled by the ratio of the overlay. *)
Definition crop_of (ov : overlay) (r : box_rect) : image :=
  Image (Qfloor (width r * ratio ov)) (Qfloor (height r * ratio ov))
        [Placed (BoxCrop (page ov) (minX r * ratio ov) (minY r * ratio ov)
                         (width r * ratio ov) (height r * ratio ov)) 0 0].

(** ** Deletion *)

Fixpoint nodupb (l : list Z) : bool :=
  match l with
  | [] => true
  | x :: rest => negb (existsb (Z.eqb x) rest) && nodupb rest
  end.

(** Regions and thumbnails correspond one to one. *)
Definition in_sync (s : session) : bool :=
  nodupb (map regionId (regionSelections s))
  && nodupb (map wrapper_regionId (sidebar s))
  && forallb (fun w => existsb (fun r => regionId r =? wrapper_regionId w)
                               (regionSelections s)) (sidebar s)
  && forallb (fun r => existsb (fun w => wrapper_regionId w =? regionId r)
                               (sidebar s)) (regionSelections s).

(** The same, except that the thumbnail of region [id] may be gone already:
    the delete button of a thumbnail removes its wrapper before it calls
    [deleteRegion], the delete button of a marker does not. *)
Definition in_sync_but (id : Z) (s : session) : bool :=
  nodupb (map regionId (regionSelections s))
  && nodupb (map wrapper_regionId (sidebar s))
  && forallb (fun w => existsb (fun r => regionId r =? wrapper_regionId w)
                               (regionSelections s)) (sidebar s)
  && forallb (fun r => (regionId r =? id)
                       || existsb (fun w => wrapper_regionId w =? regionId r)
                                  (sidebar s)) (regionSelections s).


Lemma nodupb_spec l : nodupb l = true -> NoDup l.
Proof.
  induction l as [|x l IH]; intro H; [constructor|].
  cbn [nodupb] in H. apply andb_true_iff in H as [H1 H2].
  constructor; [|apply IH; exact H2].
  intro Hin. apply negb_true_iff in H1.
  assert (existsb (Z.eqb x) l = true)
    by (apply existsb_exists; exists x; split; [exact Hin | apply Z.eqb_refl]).
  congruence.
Qed.

Lemma findIndex_none id rs :
  findIndex id rs = None <-> forall r, In r rs -> regionId r <> id.
Proof.
  induction rs as [|r rs IH]; cbn [findIndex].
  - split; [intros _ r [] | reflexivity].
  - destruct (Z.eqb_spec (regionId r) id) as [E|E].
    + split; [discriminate|]. intro H. exfalso. apply (H r); [left; reflexivity | exact E].
    + destruct (findIndex id rs) eqn:F; cbn [option_map].
      * split; [discriminate|]. intro H.
        assert (Some n = None) by (apply (proj2 IH); intros x Hx; apply H; right; exact Hx).
        discriminate.
      * split; [|reflexivity]. intros _ x [<-|Hx]; [exact E|].
        apply (proj1 IH eq_refl). exact Hx.
Qed.

Lemma findIndex_some id rs i :
  findIndex id rs = Some i ->
  exists a r b, rs = a ++ r :: b /\ List.length a = i /\ regionId r = id
                /\ forall x, In x a -> regionId x <> id.
Proof.
  revert i; induction rs as [|r rs IH]; intros i H; cbn [findIndex] in H; [discriminate|].
  destruct (Z.eqb_spec (regionId r) id) as [E|E].
  - inversion H; subst. exists [], r, rs. repeat split; auto; intros x [].
  - destruct (findIndex id rs) as [j|] eqn:F; cbn [option_map] in H; [|discriminate].
    inversion H; subst. destruct (IH j eq_refl) as [a [r0 [b [-> [Hl [Hr Ha]]]]]].
    exists (r :: a), r0, b. repeat split; auto.
    + simpl. rewrite Hl. reflexivity.
    + intros x [<-|Hx]; [exact E | apply Ha; exact Hx].
Qed.

Lemma splice1_middle {A : Type} (a : list A) r b :
  splice1 (List.length a) (a ++ r :: b) = a ++ b.
Proof.
  unfold splice1. rewrite firstn_app, Nat.sub_diag, firstn_all. cbn [firstn].
  rewrite app_nil_r.
  replace (S (List.length a)) with (List.length (a ++ [r]))
    by (rewrite length_app; simpl; lia).
  replace (a ++ r :: b) with ((a ++ [r]) ++ b) by (rewrite <- app_assoc; reflexivity).
  rewrite RemoveSegs.skipn_app_exact. reflexivity.
Qed.

Lemma filter_all {A : Type} (f : A -> bool) l :
  (forall x, In x l -> f x = true) -> filter f l = l.
Proof.
  induction l as [|x l IH]; intro H; [reflexivity|]. cbn [filter].
  rewrite (H x) by (left; reflexivity). f_equal. apply IH.
  intros y Hy. apply H. right. exact Hy.
Qed.






End CaptureFacts.

Import CaptureFacts.

Module DeleteFacts.

Lemma in_sync_props s :
  in_sync s = true ->
  NoDup (map regionId (regionSelections s))
  /\ NoDup (map wrapper_regionId (sidebar s))
  /\ (forall x, In x (map wrapper_regionId (sidebar s))
                <-> In x (map regionId (regionSelections s))).
Proof.
  unfold in_sync. intro H.
  apply andb_true_iff in H as [H H4]. apply andb_true_iff in H as [H H3].
  apply andb_true_iff in H as [H1 H2].
  split; [apply nodupb_spec; exact H1|]. split; [apply nodupb_spec; exact H2|].
  rewrite forallb_forall in H3, H4. intro x. split; intro Hx.
  - apply in_map_iff in Hx as [w [<- Hw]]. specialize (H3 w Hw).
    apply existsb_exists in H3 as [r [Hr E]]. apply Z.eqb_eq in E.
    rewrite <- E. apply in_map. exact Hr.
  - apply in_map_iff in Hx as [r [<- Hr]]. specialize (H4 r Hr).
    apply existsb_exists in H4 as [w [Hw E]]. apply Z.eqb_eq in E.
    rewrite <- E. apply in_map. exact Hw.
Qed.


(** A session in which regions and thumbnails correspond stays within
    [in_sync_but id] when the thumbnail of [id] is taken out first. *)
Lemma in_sync_in_sync_but id s :
  in_sync s = true -> in_sync_but id s = true.
Proof.
  unfold in_sync, in_sync_but. intro H.
  apply andb_true_iff in H as [H H4]. rewrite H. cbn [andb].
  rewrite forallb_forall in H4 |- *. intros r Hr.
  rewrite (H4 r Hr). apply orb_true_r.
Qed.

Lemma map_filter_key {A : Type} (key : A -> Z) (g : Z -> bool) l :
  map key (filter (fun x => g (key x)) l) = filter g (map key l).
Proof.
  induction l as [|x l IH]; [reflexivity|]. cbn [filter map].
  destruct (g (key x)); cbn [map]; rewrite IH; reflexivity.
Qed.

End DeleteFacts.



(** C9, as stated, fails: a box 3 wide and 100 high is below the threshold
    in one dimension only, and the end of the gesture stores no region. *)
Lemma thin_box_is_rejected :
  let ov := Overlay 0 2 in
  let r := BoxRect 10 10 3 100 in
  let s := Session true box 10 10 (Some ov) (Some r) [] [Question 7 1 []] 0 [] 1 [] [] in
  ~ ((width r < 5)%Q /\ (height r < 5)%Q)
  /\ option_map regionSelections (endSelection s) = Some []
  /\ option_map sidebar (endSelection s) = Some []
  /\ option_map regionCounter (endSelection s) = Some 1.
Proof.
  cbv zeta. split; [|repeat split; reflexivity].
  intros [_ H]. revert H. unfold Qlt. simpl. lia.
Qed.

(** C9, amended. At the end of a box gesture a rectangle narrower than 5
    or lower than 5 is rejected: the gesture flag is reset and the regions,
    the counter, the thumbnails and the markers stay as they are.  Otherwise
    the rectangle scaled by the ratio of the overlay is cropped and stored:
    the new region takes the value of the counter as its id, the counter
    grows by one (so, when every stored id is below the counter, the new id is
    above all of them and this stays so), its kind is Text and its part
    select, present only when the question has parts, is on "Main". *)
Theorem endSelection_box (s : session) (ov : overlay) (r : box_rect) (q : question) :
  isSelecting s = true -> cutMode s = box ->
  currentOverlay s = Some ov -> currentBoxRect s = Some r ->
  nth_error (questions s) (currentQuestionIndex s) = Some q ->
  exists s', endSelection s = Some s' /\ isSelecting s' = false
    /\ ((width r < 5)%Q \/ (height r < 5)%Q ->
        regionSelections s' = regionSelections s /\ regionCounter s' = regionCounter s
        /\ sidebar s' = sidebar s /\ markers s' = markers s)
    /\ ((5 <= width r)%Q /\ (5 <= height r)%Q ->
        sidebar s' = sidebar s ++ [Wrapper (regionCounter s) (crop_of ov r)]
        /\ markers s' = markers s ++ [(page ov, regionCounter s)]
        /\ regionCounter s' = regionCounter s + 1
        /\ map regionId (regionSelections s')
           = map regionId (regionSelections s) ++ [regionCounter s]
        /\ map selectEl (regionSelections s') = map selectEl (regionSelections s) ++ [Text]
        /\ map partSelect (regionSelections s')
           = map partSelect (regionSelections s)
             ++ [match q_parts q with [] => None | _ :: _ => Some [] end]
        /\ currentBoxRect s' = None
        /\ ((forall x, In x (map regionId (regionSelections s)) -> x < regionCounter s) ->
            forall x, In x (map regionId (regionSelections s')) -> x < regionCounter s')).
Proof.
  intros Hsel Hmode Hov Hrect Hq.
  unfold endSelection. rewrite Hsel. cbn [negb].
  cbn [set_gesture currentOverlay cutMode currentBoxRect].
  rewrite Hov, Hmode, Hrect.
  destruct (too_small r) eqn:Ets.
  - eexists. split; [reflexivity|]. split; [reflexivity|]. split.
    + intros _. repeat split; reflexivity.
    + intro H. apply too_small_false in H. congruence.
  - unfold cropAndAddImage, addRegionSelection.
    cbn [set_gesture questions currentQuestionIndex]. rewrite Hq.
    eexists. split; [reflexivity|]. split; [reflexivity|]. split.
    + intro H. apply too_small_spec in H. congruence.
    + intros _.
      cbn [set_gesture updateRegionNumbers set_regions regionSelections sidebar markers
           regionCounter currentBoxRect].
      assert (Eid : map regionId
                (number_from 0 (sidebar s ++ [Wrapper (regionCounter s) (crop_of ov r)])
                   (regionSelections s ++
                      [Region (regionCounter s) ov (BoxRect (minX r) (minY r) (width r) (height r))
                              None Text
                              match q_parts q with [] => None | _ :: _ => Some [] end 0 0]))
              = map regionId (regionSelections s) ++ [regionCounter s]).
      { rewrite (number_from_map regionId (fun _ _ => eq_refl)).
        rewrite map_app. reflexivity. }
      split; [reflexivity|]. split; [reflexivity|]. split; [reflexivity|].
      split; [exact Eid|]. split; [|split; [|split]].
      * rewrite (number_from_map selectEl (fun _ _ => eq_refl)).
        rewrite map_app. reflexivity.
      * rewrite (number_from_map partSelect (fun _ _ => eq_refl)).
        rewrite map_app. reflexivity.
      * reflexivity.
      * intros Hlt x Hx.
        assert (Hx' : In x (map regionId (regionSelections s) ++ [regionCounter s]))
          by (rewrite <- Eid; exact Hx).
        apply in_app_or in Hx' as [Hx'|[<-|[]]]; [specialize (Hlt x Hx')|]; lia.
Qed.

Lemma endSelection_box_witness :
  let ov := Overlay 0 2 in
  let r := BoxRect 10 10 100 50 in
  let s := Session true box 10 10 (Some ov) (Some r) [] [Question 7 1 []] 0 [] 1 [] [] in
  exists s', endSelection s = Some s'
    /\ sidebar s' = [Wrapper 1 (crop_of ov r)]
    /\ map regionId (regionSelections s') = [1]
    /\ map selectEl (regionSelections s') = [Text]
    /\ regionCounter s' = 2.
Proof.
  cbv zeta.
  set (ov := Overlay 0 2). set (r := BoxRect 10 10 100 50).
  set (s := Session true box 10 10 (Some ov) (Some r) [] [Question 7 1 []] 0 [] 1 [] []).
  destruct (endSelection_box s ov r (Question 7 1 []) eq_refl eq_refl eq_refl eq_refl eq_refl)
    as [s' [E [_ [_ Hbig]]]].
  assert (H5 : (5 <= width r)%Q /\ (5 <= height r)%Q)
    by (split; unfold Qle; simpl; lia).
  destruct (Hbig H5) as [Hside [_ [Hc [Hid [Hk _]]]]].
  exists s'. repeat split; assumption.
Defined.

(* ================================================================== *)
(** * End to end: one question with one part *)
(* ================================================================== *)

Module EndToEnd.

(** Question 1 with the single part "1.1", shown on page 0 at ratio 2. *)
Definition q1 : question := Question 101 1 [lit "1.1"].

Definition page0 : overlay := Overlay 0 2.

Definition start : session :=
  Session false box 0 0 None None [] [q1] 0 [] 1 [] [].

(** The user sets the selects of region [rid]. *)
Definition select (rid : Z) (k : kind) (part : str) (s : session) : session :=
  set_regions s (choose rid k (Some part) (regionSelections s))
              (regionCounter s) (sidebar s) (markers s).

(** Two crops are stored, the second is given to part "1.1". *)
Definition captured (rect1 rect2 : box_rect) (img1 img2 : image) : option session :=
  match addRegionSelection start rect1 img1 page0 None with
  | None => None
  | Some s1 =>
      match addRegionSelection s1 rect2 img2 page0 None with
      | None => None
      | Some s2 => Some (select 2 Text (lit "1.1") s2)
      end
  end.

(** The same through two box gestures. *)
Definition drawn_boxes : option session :=
  match endSelection (updateSelection (startSelection start page0 10 10) 110 60) with
  | None => None
  | Some s1 =>
      match endSelection (updateSelection (startSelection s1 page0 10 100) 210 180) with
      | None => None
      | Some s2 => Some (select 2 Text (lit "1.1") s2)
      end
  end.

(** The click on the finish button in sequential mode. *)
Definition finish (measureText : str -> Q) (s : session) : option (list response) :=
  match createTempResponse (questions s) (currentQuestionIndex s) with
  | None => None
  | Some tempResponse =>
      match saveCurrentSelections measureText s tempResponse with
      | None => None
      | Some r => Some (collect sequential r [])
      end
  end.

(** What an image shows, from top to bottom. *)
Definition shown (img : image) : list source := map what (content img).

Definition captions (img : image) : list str :=
  flat_map (fun f => match what f with Caption t => [t] | _ => [] end) (content img).

Lemma shown_concatenate images :
  shown (concatenateImages images) = flat_map shown images.
Proof.
  unfold shown, concatenateImages, toDataURL, stitch.
  destruct (measure images) as [maxWidth totalHeight]. cbn [content draws].
  generalize 0 as y. induction images as [|img images IH]; intro y; [reflexivity|].
  cbn [draw_all flat_map]. rewrite map_app, IH. f_equal.
  cbn [drawn]. rewrite map_map. reflexivity.
Qed.

Lemma fold_append {A B : Type} (f : A -> list B) l : forall acc,
  fold_left (fun acc x => acc ++ f x) l acc = acc ++ flat_map f l.
Proof.
  induction l as [|x l IH]; intro acc; cbn [fold_left flat_map].
  - rewrite app_nil_r. reflexivity.
  - rewrite IH, app_assoc. reflexivity.
Qed.

End EndToEnd.

Import EndToEnd.

(** C8, as stated, fails: after two box gestures, the second given to part
    "1.1", the merged text image of the submission shows two captions, the
    caption of the question above the first crop and the caption of the part
    above the second; it is not one caption above both crops. *)
Lemma merged_text_keeps_part_caption :
  let measureText := fun t : str => inject_Z (12 * Z.of_nat (List.length t)) in
  let crop1 := BoxCrop 0 (10 * 2) (10 * 2) (Qabs_diff 110 10 * 2) (Qabs_diff 60 10 * 2) in
  let crop2 := BoxCrop 0 (10 * 2) (100 * 2) (Qabs_diff 210 10 * 2) (Qabs_diff 180 100 * 2) in
  exists s responses merged,
    drawn_boxes = Some s
    /\ finish measureText s = Some responses
    /\ map payload_text_images (processedResponses measureText responses) = [[merged]]
    /\ shown merged
       = [Caption (lit "Question Number 1"); crop1; Caption (lit "Part 1.1"); crop2]
    /\ captions merged = [lit "Question Number 1"; lit "Part 1.1"]
    /\ List.length (captions merged) <> 1%nat.
Proof.
  cbv zeta. do 3 eexists.
  split; [vm_compute; reflexivity|].
  split; [vm_compute; reflexivity|].
  split; [vm_compute; reflexivity|].
  split; [vm_compute; reflexivity|].
  split; [vm_compute; reflexivity|].
  vm_compute. discriminate.
Qed.

(** C8, amended. One Text crop kept on "Main" and one Text crop given to
    part "1.1" of question 1: finishing the question gives a response whose
    [text_images] is the one image "caption of the question above the first
    crop" and whose only part has as [text_images] the one image "caption of
    the part above the second crop"; the submission then sends one text
    image, the first of these stitched above the second, so that it shows
    the caption of the question, the first crop, the caption of the part and
    the second crop, from top to bottom.  For every response the table and
    diagram images of the parts are appended as they are, in order, to those
    of the question. *)
Theorem one_part_end_to_end (measureText : str -> Q)
  (rect1 rect2 : box_rect) (img1 img2 : image) :
  let main := concatenateImages
                [createTextImage measureText (lit "Question Number 1"); img1] in
  let part := concatenateImages [createTextImage measureText (lit "Part 1.1"); img2] in
  (exists s r,
     captured rect1 rect2 img1 img2 = Some s
     /\ finish measureText s = Some [r]
     /\ text_images r = [main]
     /\ map part_label (Assembly.parts r) = [lit "1.1"]
     /\ map part_text_images (Assembly.parts r) = [[part]]
     /\ map payload_text_images (processedResponses measureText [r])
        = [[concatenateImages [main; part]]]
     /\ shown (concatenateImages [main; part])
        = [Caption (lit "Question Number 1")] ++ shown img1
          ++ [Caption (lit "Part 1.1")] ++ shown img2)
  /\ (forall idx r,
        payload_table_images (processResponse measureText idx r)
        = table_images r ++ flat_map part_table_images (Assembly.parts r)
        /\ payload_diagram_images (processResponse measureText idx r)
           = diagram_images r ++ flat_map part_diagram_images (Assembly.parts r)).
Proof.
  cbv zeta. split.
  - do 2 eexists.
    split; [reflexivity|]. split; [reflexivity|]. split; [reflexivity|].
    split; [reflexivity|]. split; [reflexivity|]. split; [reflexivity|].
    rewrite !shown_concatenate. cbn [flat_map]. rewrite !shown_concatenate.
    cbn [flat_map]. rewrite !app_nil_r. unfold shown at 1 3.
    cbn [createTextImage content map what]. rewrite <- !app_assoc. reflexivity.
  - intros idx r. unfold processResponse.
    cbn [payload_table_images payload_diagram_images].
    rewrite !fold_append. split; reflexivity.
Qed.

(* ================================================================== *)
(** * More on the label engine *)
(* ================================================================== *)

Module AddFacts.

Import JSFacts Paths RemoveSegs SortFacts RemoveSpec Contiguity.

Lemma parseInt_toString_all n : parseInt (toString n) = Some n.
Proof.
  destruct (Z.ltb_spec n 0) as [H|H]; [|apply parseInt_toString; exact H].
  unfold toString. replace (n <? 0) with true by (symmetry; apply Z.ltb_lt; exact H).
  cbn [parseInt]. rewrite ascii_eqb_refl.
  rewrite parse_unsigned_digits.
  - rewrite digits_of_horner by lia. cbn [option_map horner fold_left]. f_equal. lia.
  - apply digits_of_is_digit; [lia | constructor].
  - apply digits_of_nonnil.
Qed.

Lemma last_segment_child parent t :
  dotfree t -> last_segment (parent ++ dot :: t) = t.
Proof.
  intro H. unfold last_segment. rewrite split_dot_app, (split_dot_dotfree _ H).
  apply last_last.
Qed.

Lemma direct_child_snoc parent t :
  dotfree t -> is_direct_child parent (parent ++ dot :: t) = true.
Proof.
  intro H. unfold is_direct_child.
  replace (parent ++ dot :: t) with ((parent ++ [dot]) ++ t)
    by (rewrite <- app_assoc; reflexivity).
  rewrite startsWith_app. rewrite <- app_assoc. cbn [app].
  rewrite (AddLimits.depth_child _ _ H). apply Z.eqb_refl.
Qed.

Lemma depth_one_dotfree q : depth q = 1 -> dotfree q.
Proof.
  unfold depth. intro H. pose proof (split_dot_all_dotfree q) as Hd.
  destruct (split_dot q) as [|x [|y l]] eqn:E; simpl in H; try lia.
  inversion Hd; subst. rewrite <- (join_split q), E. assumption.
Qed.

(** The label [addSubpart] makes. *)
Definition newSubpart (labels : list str) (parentLabel : str) : str :=
  parentLabel ++ dot ::
    toString (LabelInvariant.largest (LabelInvariant.childSuffixes labels parentLabel) + 1).

Lemma largest_nonneg l : 0 <= LabelInvariant.largest l.
Proof. apply LabelInvariant.fold_max_ge_init. Qed.

Lemma addSubpart_success labels parentLabel :
  alert (addSubpart labels parentLabel) = None ->
  depth parentLabel < 6
  /\ Z.of_nat (List.length (directChildren labels parentLabel)) < 6
  /\ LabelTree.parts (addSubpart labels parentLabel)
     = sortPartLabels (labels ++ [newSubpart labels parentLabel]).
Proof.
  unfold addSubpart. destruct (6 <=? depth parentLabel) eqn:E1; [discriminate|].
  destruct (6 <=? Z.of_nat (List.length (directChildren labels parentLabel))) eqn:E2;
    [discriminate|].
  intros _. apply Z.leb_gt in E1, E2. split; [exact E1|]. split; [exact E2|].
  cbn [LabelTree.parts]. rewrite AddLimits.highestSubpart_largest. reflexivity.
Qed.

Lemma child_suffix_bound labels parentLabel l :
  In l labels -> is_direct_child parentLabel l = true ->
  or_zero (parseInt (last_segment l))
  <= LabelInvariant.largest (LabelInvariant.childSuffixes labels parentLabel).
Proof.
  intros Hl Hc. apply LabelInvariant.largest_ge.
  unfold LabelInvariant.childSuffixes.
  apply (in_map (fun l => or_zero (parseInt (last_segment l)))).
  apply filter_In. split; assumption.
Qed.

Lemma newSubpart_fresh labels parentLabel :
  ~ In (newSubpart labels parentLabel) labels.
Proof.
  intro Hin. unfold newSubpart in Hin.
  set (h := LabelInvariant.largest (LabelInvariant.childSuffixes labels parentLabel)) in *.
  pose proof (child_suffix_bound labels parentLabel _ Hin
                (direct_child_snoc _ _ (AddLimits.toString_dotfree_all (h + 1)))) as Hb.
  rewrite last_segment_child in Hb by apply AddLimits.toString_dotfree_all.
  rewrite parseInt_toString_all in Hb. cbn [or_zero] in Hb. fold h in Hb. lia.
Qed.

Lemma Math_max_ge l x : In x l -> x <= Math_max l.
Proof.
  destruct l as [|y l]; intro H; [destruct H|]. cbn [Math_max].
  destruct H as [->|H].
  - apply LabelInvariant.fold_max_ge_init.
  - apply LabelInvariant.largest_ge. exact H.
Qed.

End AddFacts.

Import AddFacts.

(** X1. On dotted-decimal labels whose segments are below 2^53 neither add
    operation makes a duplicate: when [addSubpart] does not alert, the list
    it renders is a permutation of the old labels and one label that was not
    among them and is a direct child of the parent; the same holds for
    [addSubpartToQuestion] under a question number of one segment. *)
Theorem add_operations_add_a_fresh_label (labels : list str) (parentLabel q : str) :
  forallb SortLabels.exact_label labels = true ->
  SortLabels.exact_label parentLabel = true ->
  SortLabels.exact_label q = true ->
  depth q = 1 ->
  (alert (addSubpart labels parentLabel) = None ->
   exists new, ~ In new labels /\ is_direct_child parentLabel new = true
     /\ Permutation (LabelTree.parts (addSubpart labels parentLabel)) (new :: labels))
  /\ (alert (addSubpartToQuestion q labels) = None ->
      exists new, ~ In new labels /\ is_direct_child q new = true
        /\ Permutation (LabelTree.parts (addSubpartToQuestion q labels)) (new :: labels)).
Proof.
  intros _ _ _ Hq. split.
  - intro Ha. destruct (addSubpart_success labels parentLabel Ha) as [_ [_ E]].
    exists (newSubpart labels parentLabel). split; [apply newSubpart_fresh|].
    split; [apply direct_child_snoc, AddLimits.toString_dotfree_all|].
    rewrite E. eapply Permutation_trans; [apply SortFacts.array_sort_perm|].
    apply Permutation_sym, Permutation_cons_append.
  - unfold addSubpartToQuestion.
    set (mainParts := filter (fun label => startsWith label (q ++ [dot])) labels).
    destruct (6 <=? Z.of_nat (List.length mainParts)); [discriminate|]. intros _.
    cbn [LabelTree.parts].
    assert (Hmain : forall t, In (q ++ dot :: t) labels -> In (q ++ dot :: t) mainParts).
    { intros t Ht. apply filter_In. split; [exact Ht|].
      replace (q ++ dot :: t) with ((q ++ [dot]) ++ t)
        by (rewrite <- app_assoc; reflexivity).
      apply JSFacts.startsWith_app. }
    assert (Hfresh : forall t,
              JSFacts.dotfree t ->
              (forall l, In l mainParts ->
                 or_zero (parseInt (nth 1 (split_dot l) [])) < or_zero (parseInt t)) ->
              ~ In (q ++ dot :: t) labels).
    { intros t Ht Hlt Hin. specialize (Hlt _ (Hmain t Hin)).
      rewrite JSFacts.split_dot_app in Hlt.
      rewrite (JSFacts.split_dot_dotfree _ (depth_one_dotfree q Hq)) in Hlt.
      rewrite (JSFacts.split_dot_dotfree _ Ht) in Hlt. cbn [app nth] in Hlt. lia. }
    destruct mainParts as [|m ms] eqn:Em.
    + exists (q ++ lit ".1"). split; [|split].
      * intro Hin. exact (Hmain (lit "1") Hin).
      * apply direct_child_snoc. intros [H|[]]. discriminate.
      * eapply Permutation_trans; [apply SortFacts.array_sort_perm|].
        apply Permutation_sym, Permutation_cons_append.
    + set (highest := Math_max (map (fun l => or_zero (parseInt (nth 1 (split_dot l) [])))
                                    (m :: ms))).
      exists (q ++ dot :: toString (highest + 1)). split; [|split].
      * apply Hfresh; [apply AddLimits.toString_dotfree_all|].
        intros l Hl. rewrite parseInt_toString_all. cbn [or_zero].
        assert (or_zero (parseInt (nth 1 (split_dot l) [])) <= highest)
          by (apply Math_max_ge;
              apply (in_map (fun l => or_zero (parseInt (nth 1 (split_dot l) [])))); exact Hl).
        lia.
      * apply direct_child_snoc, AddLimits.toString_dotfree_all.
      * eapply Permutation_trans; [apply SortFacts.array_sort_perm|].
        apply Permutation_sym, Permutation_cons_append.
Qed.

Lemma add_operations_add_a_fresh_label_witness :
  let labels := [lit "3.1"; lit "3.1.1"; lit "3.2"] in
  forallb SortLabels.exact_label labels = true
  /\ SortLabels.exact_label (lit "3.1") = true
  /\ SortLabels.exact_label (lit "3") = true
  /\ depth (lit "3") = 1
  /\ (exists new, ~ In new labels
        /\ Permutation (LabelTree.parts (addSubpart labels (lit "3.1"))) (new :: labels))
  /\ (exists new, ~ In new labels
        /\ Permutation (LabelTree.parts (addSubpartToQuestion (lit "3") labels))
                       (new :: labels)).
Proof.
  cbv zeta.
  destruct (add_operations_add_a_fresh_label
              [lit "3.1"; lit "3.1.1"; lit "3.2"] (lit "3.1") (lit "3")
              eq_refl eq_refl eq_refl eq_refl)
    as [H1 H2].
  split; [reflexivity|]. split; [reflexivity|]. split; [reflexivity|].
  split; [reflexivity|]. split.
  - destruct (H1 eq_refl) as [new [Hf [_ Hp]]]. exists new. split; assumption.
  - destruct (H2 eq_refl) as [new [Hf [_ Hp]]]. exists new. split; assumption.
Defined.

Module ValidFacts.

Import JSFacts Paths RemoveSegs SortFacts RemoveSpec Contiguity.

Lemma contig_perm L L' : Permutation L L' -> contig L -> contig L'.
Proof.
  intros HP HC Q n NQ Hin.
  assert (Hin' : In (Q ++ [n]) L)
    by (eapply Permutation_in; [apply Permutation_sym; exact HP | exact Hin]).
  destruct (HC Q n NQ Hin') as [H1 H2]. split; [exact H1|].
  intro Hgt. eapply Permutation_in; [exact HP | apply H2; exact Hgt].
Qed.

Lemma branching_perm L L' : Permutation L L' -> branching L -> branching L'.
Proof.
  intros HP HB Q NQ.
  rewrite <- (Permutation_length (AddLimits.Permutation_filter_keep (childb Q) _ _ HP)).
  apply HB. exact NQ.
Qed.

(** A new last child keeps the numbering without gap. *)
Lemma contig_add_child L Q :
  Q <> [] -> contig L ->
  contig (L ++ [Q ++ [LabelInvariant.largest
                        (map (fun p => last p 0) (filter (childb Q) L)) + 1]]).
Proof.
  intros NQ HC.
  set (cs := map (fun p => last p 0) (filter (childb Q) L)).
  intros Q' n NQ' Hin. apply in_app_or in Hin as [Hin|[Hin|[]]].
  - destruct (HC Q' n NQ' Hin) as [H1 H2]. split; [exact H1|].
    intro Hgt. apply in_or_app. left. apply H2. exact Hgt.
  - apply app_inj_tail in Hin as [-> <-].
    pose proof (AddFacts.largest_nonneg cs) as H0. split; [lia|].
    intro Hgt. apply in_or_app. left.
    replace (LabelInvariant.largest cs + 1 - 1) with (LabelInvariant.largest cs) by lia.
    apply LabelInvariant.in_child_lasts. fold cs.
    apply (LabelInvariant.largest_in cs 0). unfold LabelInvariant.largest in *. lia.
Qed.

Lemma branching_add_child L Q n :
  branching L -> (List.length (filter (childb Q) L) < 6)%nat ->
  branching (L ++ [Q ++ [n]]).
Proof.
  intros HB Hroom Q' NQ'. rewrite filter_app, length_app. cbn [filter].
  destruct (childb Q' (Q ++ [n])) eqn:E.
  - apply childb_spec in E as [m E]. apply app_inj_tail in E as [-> _].
    simpl. lia.
  - specialize (HB Q' NQ'). simpl. lia.
Qed.

End ValidFacts.

(** X2. [addSubpart] keeps a valid label set valid: for valid labels and a
    well-formed parent label, the labels it leaves (the old ones after an
    alert, the sorted ones with the new child otherwise) are well formed, of
    depth at most 6, with at most 6 children per parent numbered from 1
    without gap. *)
Theorem addSubpart_preserves_valid (labels : list str) (parentLabel : str) :
  valid labels = true -> wf_label parentLabel = true ->
  valid (LabelTree.parts (addSubpart labels parentLabel)) = true.
Proof.
  intros Hv Hp.
  destruct (alert (addSubpart labels parentLabel)) eqn:Ea.
  { unfold addSubpart in *. destruct (6 <=? depth parentLabel); [exact Hv|].
    destruct (6 <=? _); [exact Hv | discriminate]. }
  destruct (addSubpart_success labels parentLabel Ea) as [Hd [Hroom E]]. rewrite E.
  pose proof (valid_contig labels Hv) as HC.
  pose proof (valid_branching labels Hv) as HB.
  pose proof (fun p => valid_depth labels p Hv) as HD.
  unfold valid in Hv. apply andb_true_iff in Hv as [Hv _].
  apply andb_true_iff in Hv as [Hwf _].
  destruct (wf_labels_paths labels Hwf) as [HL EL].
  destruct (wf_label_path parentLabel Hp) as [[HQ NQ] EQ].
  set (Lp := map segs labels) in *. set (Q := segs parentLabel) in *.
  set (k := LabelInvariant.largest (map (fun p => last p 0) (filter (Paths.childb Q) Lp))).
  assert (Ecs : LabelInvariant.childSuffixes labels parentLabel
                = map (fun p => last p 0) (filter (Paths.childb Q) Lp)).
  { rewrite EL, EQ. apply childSuffixes_render; [exact HL | split; assumption]. }
  assert (Enew : newSubpart labels parentLabel = Paths.render (Q ++ [k + 1])).
  { unfold newSubpart. rewrite Ecs. fold k. rewrite EQ at 1.
    symmetry. apply RemoveSegs.render_snoc. exact NQ. }
  assert (Hk : 0 <= k) by apply AddFacts.largest_nonneg.
  assert (Hnew : RemoveSegs.wf_path (Q ++ [k + 1]))
    by (apply RemoveSegs.wf_path_app; [exact HQ | lia]).
  assert (Eall : labels ++ [newSubpart labels parentLabel]
                 = map Paths.render (Lp ++ [Q ++ [k + 1]])).
  { rewrite map_app, <- EL, Enew. reflexivity. }
  rewrite Eall.
  destruct (Permutation_map_inv Paths.render (Lp ++ [Q ++ [k + 1]])
              (SortFacts.array_sort_perm label_leb
                 (map Paths.render (Lp ++ [Q ++ [k + 1]]))))
    as [R [ER HPR]].
  unfold sortPartLabels. rewrite ER.
  assert (Hroom' : (List.length (filter (Paths.childb Q) Lp) < 6)%nat).
  { rewrite EL, EQ in Hroom. unfold directChildren in Hroom.
    rewrite (RemoveSegs.filter_map_agree Paths.render
               (is_direct_child (Paths.render Q)) (Paths.childb Q)) in Hroom.
    - rewrite length_map in Hroom. lia.
    - intros p Hin. rewrite Forall_forall in HL. destruct (HL p Hin).
      apply Paths.is_direct_child_render; assumption. }
  apply valid_of_paths.
  - eapply Permutation_Forall; [exact HPR|].
    apply Forall_app. split; [exact HL | constructor; [exact Hnew | constructor]].
  - intros p Hin.
    assert (Hin' : In p (Lp ++ [Q ++ [k + 1]]))
      by (eapply Permutation_in; [apply Permutation_sym; exact HPR | exact Hin]).
    apply in_app_or in Hin' as [Hin'|[<-|[]]]; [apply HD; exact Hin'|].
    rewrite length_app. cbn [List.length].
    rewrite EQ, Paths.depth_render in Hd by assumption. lia.
  - eapply ValidFacts.branching_perm; [exact HPR|].
    apply ValidFacts.branching_add_child; assumption.
  - eapply ValidFacts.contig_perm; [exact HPR|].
    apply ValidFacts.contig_add_child; assumption.
Qed.

Lemma addSubpart_preserves_valid_witness :
  let labels := [lit "3.1"; lit "3.1.1"; lit "3.2"] in
  valid labels = true /\ wf_label (lit "3.1") = true
  /\ LabelTree.parts (addSubpart labels (lit "3.1"))
     = [lit "3.1"; lit "3.1.1"; lit "3.1.2"; lit "3.2"]
  /\ valid (LabelTree.parts (addSubpart labels (lit "3.1"))) = true.
Proof.
  cbv zeta. split; [reflexivity|]. split; [reflexivity|]. split; [reflexivity|].
  apply (addSubpart_preserves_valid [lit "3.1"; lit "3.1.1"; lit "3.2"] (lit "3.1"));
    reflexivity.
Defined.

Module UndoFacts.

Import JSFacts.

Lemma renumber_step_length parent removedNum acc sib :
  List.length (renumber_step parent removedNum acc sib) = List.length acc.
Proof.
  unfold renumber_step. destruct (parseInt (last_segment sib)); [|reflexivity].
  destruct (num_gt _ _); [apply length_map | reflexivity].
Qed.

Lemma fold_renumber_length parent removedNum sibs : forall acc,
  List.length (fold_left (renumber_step parent removedNum) sibs acc) = List.length acc.
Proof.
  induction sibs as [|sib sibs IH]; intro acc; [reflexivity|].
  cbn [fold_left]. rewrite IH. apply renumber_step_length.
Qed.

Lemma fold_renumber_idle parent removedNum sibs : forall acc,
  (forall sib, In sib sibs -> num_gt (parseInt (last_segment sib)) removedNum = false) ->
  fold_left (renumber_step parent removedNum) sibs acc = acc.
Proof.
  induction sibs as [|sib sibs IH]; intros acc H; [reflexivity|].
  cbn [fold_left].
  assert (E : renumber_step parent removedNum acc sib = acc).
  { unfold renumber_step. specialize (H sib (or_introl eq_refl)).
    destruct (parseInt (last_segment sib)); [|reflexivity].
    rewrite H. reflexivity. }
  rewrite E. apply IH. intros s Hs. apply H. right. exact Hs.
Qed.

Lemma parentOf_child parent t p :
  dotfree t -> parentOf (parent ++ dot :: t) = Some p -> p = parent.
Proof.
  intros Ht. unfold parentOf. rewrite (lastIndexOf_app _ _ Ht).
  destruct (0 <? Z.of_nat (List.length parent)); [|discriminate].
  unfold substring_to. rewrite Nat2Z.id.
  rewrite firstn_app, Nat.sub_diag, firstn_all. cbn [firstn]. rewrite app_nil_r.
  destruct parent; [discriminate|]. intro H. inversion H. reflexivity.
Qed.

Lemma in_subtree_refl l : in_subtree l l = true.
Proof. unfold in_subtree. rewrite str_eqb_refl. reflexivity. Qed.

End UndoFacts.

(** X3. On dotted-decimal labels whose segments are below 2^53, removing
    the part that [addSubpart] has just added undoes the addition: no sibling
    is renumbered, and what is left is, up to the sorted order, the old list
    without the labels that lay below the new label. *)
Theorem removePart_undoes_addSubpart (labels : list str) (parentLabel : str) :
  forallb SortLabels.exact_label labels = true ->
  SortLabels.exact_label parentLabel = true ->
  alert (addSubpart labels parentLabel) = None ->
  Permutation
    (removePart true (LabelTree.parts (addSubpart labels parentLabel))
                (newSubpart labels parentLabel))
    (filter (fun pl => negb (startsWith pl (newSubpart labels parentLabel ++ [dot])))
            labels).
Proof.
  intros _ _ Ha.
  destruct (addSubpart_success labels parentLabel Ha) as [_ [_ E]]. rewrite E.
  set (new := newSubpart labels parentLabel).
  set (h := LabelInvariant.largest (LabelInvariant.childSuffixes labels parentLabel)).
  assert (Enew : new = parentLabel ++ dot :: toString (h + 1)) by reflexivity.
  assert (Ht : JSFacts.dotfree (toString (h + 1))) by apply AddLimits.toString_dotfree_all.
  set (S := sortPartLabels (labels ++ [new])).
  set (F := filter (fun pl => negb (in_subtree new pl)) S).
  assert (Erem : removePart true S new = F).
  { unfold removePart. cbn [negb]. fold F.
    destruct (parentOf new) as [p|] eqn:Ep; [|reflexivity].
    rewrite Enew in Ep. apply (UndoFacts.parentOf_child _ _ _ Ht) in Ep. subst p.
    apply UndoFacts.fold_renumber_idle. intros sib Hsib.
    apply (proj1 (RemoveSegs.array_sort_in sibling_leb _ _)) in Hsib.
    apply filter_In in Hsib as [Hsib Hc]. apply filter_In in Hsib as [Hsib Hn].
    unfold S, sortPartLabels in Hsib.
    apply (proj1 (RemoveSegs.array_sort_in label_leb _ _)) in Hsib.
    apply in_app_or in Hsib as [Hsib|[<-|[]]].
    - pose proof (child_suffix_bound labels parentLabel sib Hsib Hc) as Hb. fold h in Hb.
      rewrite Enew, last_segment_child, parseInt_toString_all by exact Ht.
      destruct (parseInt (last_segment sib)) as [n|]; [|reflexivity].
      cbn [num_gt or_zero] in *. apply Z.ltb_ge. lia.
    - rewrite UndoFacts.in_subtree_refl in Hn. discriminate. }
  rewrite Erem. unfold F, S, sortPartLabels.
  eapply Permutation_trans;
    [apply AddLimits.Permutation_filter_keep, SortFacts.array_sort_perm|].
  rewrite filter_app. cbn [filter]. rewrite UndoFacts.in_subtree_refl. cbn [negb].
  rewrite app_nil_r.
  replace (filter (fun pl => negb (in_subtree new pl)) labels)
    with (filter (fun pl => negb (startsWith pl (new ++ [dot]))) labels);
    [apply Permutation_refl|].
  apply filter_ext_in. intros pl Hpl. unfold in_subtree.
  destruct (str_eqb pl new) eqn:Eq; [|reflexivity].
  apply JSFacts.str_eqb_spec in Eq. subst pl. exfalso.
  exact (newSubpart_fresh labels parentLabel Hpl).
Qed.

Lemma removePart_undoes_addSubpart_witness :
  let labels := [lit "3.1"; lit "3.1.1"; lit "3.2"] in
  forallb SortLabels.exact_label labels = true
  /\ SortLabels.exact_label (lit "3.1") = true
  /\ alert (addSubpart labels (lit "3.1")) = None
  /\ newSubpart labels (lit "3.1") = lit "3.1.2"
  /\ Permutation
       (removePart true (LabelTree.parts (addSubpart labels (lit "3.1"))) (lit "3.1.2"))
       labels.
Proof.
  cbv zeta. split; [reflexivity|]. split; [reflexivity|].
  split; [reflexivity|]. split; [reflexivity|].
  exact (removePart_undoes_addSubpart [lit "3.1"; lit "3.1.1"; lit "3.2"] (lit "3.1")
           eq_refl eq_refl eq_refl).
Defined.

(** X4. On any list of strings [removePart] takes away exactly the labels
    of the removed subtree: as many labels are left as lie outside it (the
    renumbering rewrites labels, it neither drops nor adds one), and
    declining the confirmation leaves the list as it is. *)
Theorem removePart_removes_the_subtree_only (labels : list str) (label : str) :
  List.length (removePart true labels label)
  = List.length (filter (fun pl => negb (in_subtree label pl)) labels)
  /\ removePart false labels label = labels.
Proof.
  split; [|reflexivity]. unfold removePart. cbn [negb].
  destruct (parentOf label); [|reflexivity].
  apply UndoFacts.fold_renumber_length.
Qed.

(* ================================================================== *)
(** * The order of the sorted label list *)
(* ================================================================== *)

Module OrderFacts.

Import JSFacts Paths RemoveSegs SortFacts SortLabels LabelInvariant.

Lemma Number_toString n : 0 <= n -> Number (toString n) = Some n.
Proof.
  intro H. rewrite Number_digits.
  - rewrite (toString_horner _ H). reflexivity.
  - apply toString_digits, H.
  - apply toString_nonnil.
Qed.

Lemma Numbers_render p :
  wf_path p -> map Number (split_dot (render p)) = map Some p.
Proof.
  intros [Hp Np]. rewrite split_render by assumption. rewrite map_map.
  apply map_ext_in. intros x Hx. unfold nonneg in Hp. rewrite Forall_forall in Hp.
  apply Number_toString, Hp, Hx.
Qed.

Lemma label_leb_render p q :
  wf_path p -> wf_path q -> label_leb (render p) (render q) = segments_le p q.
Proof.
  intros Hp Hq. unfold label_leb, compareLabels.
  rewrite (Numbers_render p Hp), (Numbers_render q Hq).
  destruct (compare_from_sign p q (proj1 Hp) (proj1 Hq)) as [d [Hd Hs]].
  rewrite Hd. exact Hs.
Qed.

Lemma segments_le_antisym a : forall b,
  segments_le a b = true -> segments_le b a = true -> a = b.
Proof.
  induction a as [|x a IH]; intros [|y b]; cbn [segments_le]; intros H1 H2;
    try reflexivity; try discriminate.
  apply orb_true_iff in H1. apply orb_true_iff in H2.
  destruct H1 as [H1|H1]; destruct H2 as [H2|H2];
    try apply andb_true_iff in H1 as [E1 R1];
    try apply andb_true_iff in H2 as [E2 R2];
    try apply Z.ltb_lt in H1; try apply Z.ltb_lt in H2;
    try apply Z.eqb_eq in E1; try apply Z.eqb_eq in E2; try lia.
  subst. f_equal. apply IH; assumption.
Qed.

Lemma segments_le_extension a : forall b,
  segments_le (a ++ b) a = true -> b = [].
Proof.
  induction a as [|x a IH]; intros b H.
  - destruct b; [reflexivity | discriminate].
  - cbn [app segments_le] in H. apply orb_true_iff in H as [H|H].
    + apply Z.ltb_lt in H. lia.
    + apply andb_true_iff in H as [_ H]. apply IH. exact H.
Qed.

Section Sorted.
Context {A : Type}.
Variable le : A -> A -> bool.

Let leP (a b : A) : Prop := le a b = true.

Lemma array_sort_of_sorted l : StronglySorted leP l -> array_sort le l = l.
Proof.
  induction 1 as [|x l Hs IH Hall]; [reflexivity|].
  unfold array_sort in *. cbn [fold_right]. rewrite IH.
  destruct l as [|y l]; [reflexivity|]. cbn [insert_sorted].
  inversion Hall as [|? ? Hxy _]; subst. unfold leP in Hxy. rewrite Hxy. reflexivity.
Qed.

Lemma sorted_unique l : forall l',
  (forall x y, In x l -> In y l -> le x y = true -> le y x = true -> x = y) ->
  StronglySorted leP l -> StronglySorted leP l' -> Permutation l l' -> l = l'.
Proof.
  induction l as [|x l IH]; intros l' Hanti Hs Hs' HP.
  - apply Permutation_nil in HP. symmetry. exact HP.
  - destruct l' as [|y l'];
      [apply Permutation_sym, Permutation_nil in HP; discriminate|].
    apply StronglySorted_inv in Hs as [Hs Hx].
    apply StronglySorted_inv in Hs' as [Hs' Hy].
    rewrite Forall_forall in Hx, Hy.
    assert (Hyin : In y (x :: l))
      by (apply (Permutation_in _ (Permutation_sym HP)); left; reflexivity).
    assert (Hxin : In x (y :: l'))
      by (apply (Permutation_in _ HP); left; reflexivity).
    assert (E : x = y).
    { destruct Hyin as [E|Hyin]; [exact E|].
      destruct Hxin as [E|Hxin]; [symmetry; exact E|].
      apply Hanti; [left; reflexivity | right; exact Hyin | |].
      - apply Hx. exact Hyin.
      - apply Hy. exact Hxin. }
    subst y. f_equal. apply IH; try assumption.
    + intros a b Ha Hb. apply Hanti; right; assumption.
    + apply (Permutation_cons_inv HP).
Qed.

Lemma sorted_after l1 : forall d l2,
  StronglySorted leP (l1 ++ d :: l2) -> Forall (leP d) l2.
Proof.
  induction l1 as [|x l1 IH]; intros d l2 H; cbn [app] in H;
    apply StronglySorted_inv in H as [H Hd]; [exact Hd | apply IH; exact H].
Qed.
End Sorted.

(** The sorted list of well-formed labels is sorted for the comparator
    itself. *)
Lemma sortPartLabels_sorted labels :
  forallb wf_label labels = true ->
  StronglySorted (fun a b => label_leb a b = true) (sortPartLabels labels).
Proof.
  intro H. rewrite forallb_forall in H.
  apply (array_sort_sorted label_leb (fun l => wf_label l = true)).
  - intros x y Hx Hy.
    destruct (wf_label_path x Hx) as [Px Ex]. destruct (wf_label_path y Hy) as [Py Ey].
    rewrite Ex, Ey, !label_leb_render by assumption. apply segments_le_total.
  - intros x y z Hx Hy Hz.
    destruct (wf_label_path x Hx) as [Px Ex]. destruct (wf_label_path y Hy) as [Py Ey].
    destruct (wf_label_path z Hz) as [Pz Ez].
    rewrite Ex, Ey, Ez, !label_leb_render by assumption. apply segments_le_trans.
  - apply Forall_forall. exact H.
Qed.

Lemma label_leb_antisym x y :
  wf_label x = true -> wf_label y = true ->
  label_leb x y = true -> label_leb y x = true -> x = y.
Proof.
  intros Hx Hy.
  destruct (wf_label_path x Hx) as [Px Ex]. destruct (wf_label_path y Hy) as [Py Ey].
  rewrite Ex, Ey, !label_leb_render by assumption. intros H1 H2.
  f_equal. apply segments_le_antisym; assumption.
Qed.

End OrderFacts.

(** X5. For well-formed labels whose segments are below 2^53 the sorted
    list depends on the labels only, not on the order in which they were
    given, and sorting it again changes nothing. *)
Theorem sortPartLabels_is_canonical (labels labels' : list str) :
  forallb LabelInvariant.wf_label labels = true ->
  forallb SortLabels.exact_label labels = true ->
  Permutation labels labels' ->
  sortPartLabels labels' = sortPartLabels labels
  /\ sortPartLabels (sortPartLabels labels) = sortPartLabels labels.
Proof.
  intros H _ HP.
  assert (H' : forallb LabelInvariant.wf_label labels' = true).
  { rewrite forallb_forall in *. intros x Hx. apply H.
    apply (Permutation_in _ (Permutation_sym HP)). exact Hx. }
  pose proof (OrderFacts.sortPartLabels_sorted labels H) as Hs.
  split.
  - apply (OrderFacts.sorted_unique label_leb).
    + intros x y Hx Hy. rewrite forallb_forall in H'.
      apply OrderFacts.label_leb_antisym; apply H';
        apply (Permutation_in _ (SortFacts.array_sort_perm label_leb labels'));
        assumption.
    + apply OrderFacts.sortPartLabels_sorted. exact H'.
    + exact Hs.
    + eapply Permutation_trans; [apply SortFacts.array_sort_perm|].
      eapply Permutation_trans; [apply Permutation_sym, HP|].
      apply Permutation_sym, SortFacts.array_sort_perm.
  - apply (OrderFacts.array_sort_of_sorted label_leb). exact Hs.
Qed.

Lemma sortPartLabels_is_canonical_witness :
  forallb SortLabels.exact_label [lit "1.10"; lit "1.2"; lit "1"] = true
  /\ sortPartLabels [lit "1.2"; lit "1"; lit "1.10"]
     = sortPartLabels [lit "1.10"; lit "1.2"; lit "1"]
  /\ sortPartLabels (sortPartLabels [lit "1.10"; lit "1.2"; lit "1"])
     = sortPartLabels [lit "1.10"; lit "1.2"; lit "1"].
Proof.
  split; [reflexivity|].
  apply (sortPartLabels_is_canonical [lit "1.10"; lit "1.2"; lit "1"]
           [lit "1.2"; lit "1"; lit "1.10"]).
  - reflexivity.
  - reflexivity.
  - apply (Permutation_cons_app [lit "1.2"; lit "1"] []). apply Permutation_refl.
Defined.

(** X6. In the sorted list of well-formed labels every label stands before
    all the labels below it: no label follows one of its proper
    descendants. *)
Theorem sortPartLabels_parent_first (labels before after : list str) (d a : str) :
  forallb LabelInvariant.wf_label labels = true ->
  sortPartLabels labels = before ++ d :: after ->
  In a after ->
  startsWith d (a ++ [dot]) = false.
Proof.
  intros H E Ha.
  pose proof (OrderFacts.sortPartLabels_sorted labels H) as Hs. rewrite E in Hs.
  apply OrderFacts.sorted_after in Hs. rewrite Forall_forall in Hs.
  specialize (Hs a Ha). cbv beta in Hs.
  assert (Hin : forall x, In x (before ++ d :: after) -> LabelInvariant.wf_label x = true).
  { intros x Hx. rewrite forallb_forall in H. apply H. rewrite <- E in Hx.
    apply (Permutation_in _ (SortFacts.array_sort_perm label_leb labels)). exact Hx. }
  assert (Hd : LabelInvariant.wf_label d = true)
    by (apply Hin, in_or_app; right; left; reflexivity).
  assert (Hwa : LabelInvariant.wf_label a = true)
    by (apply Hin, in_or_app; right; right; exact Ha).
  destruct (LabelInvariant.wf_label_path d Hd) as [[Nd Pd] Ed].
  destruct (LabelInvariant.wf_label_path a Hwa) as [[Na Pa] Ea].
  rewrite Ed, Ea in Hs. rewrite OrderFacts.label_leb_render in Hs by (split; assumption).
  rewrite Ed, Ea, (Paths.render_stem _ Pa).
  rewrite Paths.startsWith_render_stem by assumption.
  destruct (Paths.prefixb _ _) eqn:Ep; [|reflexivity]. cbn [andb].
  apply Paths.prefixb_spec in Ep as [b Eb]. rewrite Eb in Hs.
  apply OrderFacts.segments_le_extension in Hs. subst b. rewrite app_nil_r in Eb.
  rewrite Eb. apply Nat.ltb_irrefl.
Qed.

Lemma sortPartLabels_parent_first_witness :
  startsWith (lit "2.1") (lit "2.10" ++ [dot]) = false.
Proof.
  apply (sortPartLabels_parent_first [lit "2.10"; lit "2.1"; lit "2"]
           [lit "2"] [lit "2.10"] (lit "2.1") (lit "2.10")).
  - reflexivity.
  - reflexivity.
  - left. reflexivity.
Defined.

(* ================================================================== *)
(** * The geometry of stitched images *)
(* ================================================================== *)

Module LayoutFacts.

Import StitchFacts.

Definition sized (img : image) : Prop :=
  0 <= naturalWidth img /\ 0 <= naturalHeight img.

Lemma heights_nonneg images : Forall sized images -> 0 <= heights images.
Proof.
  induction 1 as [|img images [_ Hh] _ IH]; unfold heights in *; cbn [fold_right]; lia.
Qed.

Lemma heights_app a b : heights (a ++ b) = heights a + heights b.
Proof.
  induction a as [|x a IH]; unfold heights in *; cbn [app fold_right]; [reflexivity|].
  rewrite IH. lia.
Qed.

(** Every draw call of the second loop lies in the band that starts at the
    running offset and is as high as the images left. *)
Lemma draw_all_band maxWidth images : forall y d,
  Forall sized images -> In d (draw_all maxWidth y images) ->
  In (drawn d) images
  /\ draw_x d = (inject_Z (maxWidth - naturalWidth (drawn d)) / 2)%Q
  /\ y <= draw_y d
  /\ draw_y d + naturalHeight (drawn d) <= y + heights images.
Proof.
  induction images as [|img images IH]; intros y d Hs Hd; [contradiction|].
  inversion Hs as [|? ? [Hw Hh] Hs']; subst.
  pose proof (heights_nonneg images Hs') as Hn.
  cbn [draw_all] in Hd. destruct Hd as [<-|Hd].
  - cbn [drawn draw_x draw_y]. unfold heights in *. cbn [fold_right].
    split; [left; reflexivity|]. split; [reflexivity|]. lia.
  - destruct (IH _ _ Hs' Hd) as [H1 [H2 [H3 H4]]].
    unfold heights in *. cbn [fold_right].
    split; [right; exact H1|]. split; [exact H2|]. lia.
Qed.

Lemma draw_all_apart maxWidth images : forall y i j di dj,
  Forall sized images -> (i < j)%nat ->
  nth_error (draw_all maxWidth y images) i = Some di ->
  nth_error (draw_all maxWidth y images) j = Some dj ->
  draw_y di + naturalHeight (drawn di) <= draw_y dj.
Proof.
  induction images as [|img images IH]; intros y i j di dj Hs Hij Hi Hj;
    [destruct i; discriminate|].
  inversion Hs as [|? ? _ Hs']; subst.
  destruct j as [|j]; [lia|]. cbn [draw_all nth_error] in Hj.
  destruct i as [|i]; cbn [draw_all nth_error] in Hi.
  - inversion Hi; subst. cbn [drawn draw_y].
    apply nth_error_In in Hj. apply (draw_all_band _ _ _ _ Hs') in Hj. lia.
  - apply (IH (y + naturalHeight img) i j); try assumption. lia.
Qed.

Lemma half_twice (q : Q) : (q / 2 * 2 == q)%Q.
Proof. apply Qdiv_mult_l. discriminate. Qed.

Lemma centred (W w : Z) :
  w <= W -> 0 <= w ->
  (0 <= inject_Z (W - w) / 2
   /\ inject_Z (W - w) / 2 + inject_Z w <= inject_Z W
   /\ inject_Z (W - w) / 2 == inject_Z W - (inject_Z (W - w) / 2 + inject_Z w))%Q.
Proof.
  intros H1 H2. pose proof (half_twice (inject_Z (W - w))) as Hh.
  revert Hh. generalize (inject_Z (W - w) / 2)%Q as h.
  unfold Z.sub. rewrite inject_Z_plus, inject_Z_opp.
  rewrite Zle_Qle in H1. intros h Hh. repeat split; lra.
Qed.

(** What an image shows with the height of every fragment. *)
Definition rows (img : image) : list (source * Z) :=
  map (fun f => (what f, at_y f)) (content img).

Definition lower (k : Z) (r : source * Z) : source * Z := (fst r, snd r + k).

(** The fragments of a sequence of images stacked from the offset [y]. *)
Fixpoint stack (y : Z) (images : list image) : list (source * Z) :=
  match images with
  | [] => []
  | img :: rest => map (lower y) (rows img) ++ stack (y + naturalHeight img) rest
  end.

Lemma rows_concatenate images : rows (concatenateImages images) = stack 0 images.
Proof.
  unfold rows, concatenateImages, toDataURL, stitch.
  destruct (measure images) as [maxWidth totalHeight]. cbn [content draws].
  generalize 0 as y. induction images as [|img images IH]; intro y; [reflexivity|].
  cbn [draw_all flat_map stack]. rewrite map_app, IH. f_equal.
  unfold rows. cbn [drawn draw_y]. rewrite !map_map. reflexivity.
Qed.

Lemma stack_app a : forall y b,
  stack y (a ++ b) = stack y a ++ stack (y + heights a) b.
Proof.
  induction a as [|x a IH]; intros y b; cbn [app stack].
  - unfold heights. cbn [fold_right]. rewrite Z.add_0_r. reflexivity.
  - rewrite IH, <- app_assoc. do 3 f_equal. unfold heights. cbn [fold_right]. lia.
Qed.

Lemma stack_lower k images : forall y,
  map (lower k) (stack y images) = stack (y + k) images.
Proof.
  induction images as [|img images IH]; intro y; [reflexivity|].
  cbn [stack]. rewrite map_app, IH, map_map. f_equal.
  - apply map_ext. intros [s z]. unfold lower. cbn [fst snd]. f_equal. lia.
  - f_equal. lia.
Qed.

Lemma fold_max_out b : forall m z,
  fold_left Z.max b (Z.max m z) = Z.max m (fold_left Z.max b z).
Proof.
  induction b as [|x b IH]; intros m z; cbn [fold_left]; [reflexivity|].
  rewrite <- Z.max_assoc. apply IH.
Qed.

Lemma fold_max_app a b :
  fold_left Z.max (a ++ b) 0 = Z.max (fold_left Z.max a 0) (fold_left Z.max b 0).
Proof.
  rewrite fold_left_app, <- fold_max_out. f_equal.
  pose proof (LabelInvariant.fold_max_ge_init a 0). lia.
Qed.

End LayoutFacts.

(** X7. [concatenateImages] clips nothing and lets no two images overlap:
    for images of non-negative sizes every draw call lies inside the canvas,
    with the same margin left and right of the image, and an image drawn
    later starts at or below the lower edge of every image drawn before. *)
Theorem concatenateImages_draws_inside_canvas (images : list image) :
  Forall LayoutFacts.sized images ->
  let c := stitch images in
  (forall d, In d (draws c) ->
     (0 <= draw_x d)%Q
     /\ (draw_x d + inject_Z (naturalWidth (drawn d)) <= inject_Z (canvas_width c))%Q
     /\ (draw_x d
         == inject_Z (canvas_width c) - (draw_x d + inject_Z (naturalWidth (drawn d))))%Q
     /\ 0 <= draw_y d
     /\ draw_y d + naturalHeight (drawn d) <= canvas_height c)
  /\ (forall i j di dj, (i < j)%nat ->
        nth_error (draws c) i = Some di -> nth_error (draws c) j = Some dj ->
        draw_y di + naturalHeight (drawn di) <= draw_y dj).
Proof.
  intros Hs. unfold stitch. rewrite measure_spec. cbn [canvas_width canvas_height draws].
  split.
  - intros d Hd. destruct (LayoutFacts.draw_all_band _ _ _ _ Hs Hd) as [Hin [Ex [Hy1 Hy2]]].
    assert (Hw : naturalWidth (drawn d) <= fold_left Z.max (map naturalWidth images) 0)
      by (apply LabelInvariant.largest_ge, in_map; exact Hin).
    rewrite Forall_forall in Hs. destruct (Hs _ Hin) as [Hw0 _].
    destruct (LayoutFacts.centred _ _ Hw Hw0) as [C1 [C2 C3]].
    rewrite Ex. split; [exact C1|]. split; [exact C2|]. split; [exact C3|]. lia.
  - intros i j di dj. apply LayoutFacts.draw_all_apart. exact Hs.
Qed.

Lemma concatenateImages_draws_inside_canvas_witness :
  let a := Image 30 40 [] in
  let b := Image 100 50 [] in
  let d := Draw a (inject_Z (100 - 30) / 2)%Q 0 in
  Forall LayoutFacts.sized [a; b]
  /\ (0 <= draw_x d)%Q
  /\ (draw_x d + inject_Z 30 <= inject_Z (canvas_width (stitch [a; b])))%Q
  /\ draw_y d + 40 <= canvas_height (stitch [a; b]).
Proof.
  pose (a := Image 30 40 []). pose (b := Image 100 50 []).
  assert (Hs : Forall LayoutFacts.sized [a; b])
    by (repeat constructor; cbn; lia).
  destruct (proj1 (concatenateImages_draws_inside_canvas [a; b] Hs)
              (Draw a (inject_Z (100 - 30) / 2)%Q 0) (or_introl eq_refl))
    as [H1 [H2 [_ [_ H3]]]].
  split; [exact Hs|]. split; [exact H1|]. split; [exact H2 | exact H3].
Defined.

(** X8. Stitching two stitched images gives what stitching all their images
    at once gives: a raster of the same size that shows the same fragments,
    in the same order and at the same heights. *)
Theorem concatenateImages_nested (a b : list image) :
  let nested := concatenateImages [concatenateImages a; concatenateImages b] in
  let flat := concatenateImages (a ++ b) in
  naturalWidth nested = naturalWidth flat
  /\ naturalHeight nested = naturalHeight flat
  /\ LayoutFacts.rows nested = LayoutFacts.rows flat.
Proof.
  cbv zeta. rewrite !LayoutFacts.rows_concatenate.
  split; [|split].
  - unfold concatenateImages, toDataURL, stitch. rewrite !measure_spec.
    cbn [naturalWidth canvas_width map fold_left].
    rewrite map_app, LayoutFacts.fold_max_app.
    pose proof (LabelInvariant.fold_max_ge_init (map naturalWidth a) 0). lia.
  - unfold concatenateImages, toDataURL, stitch. rewrite !measure_spec.
    cbn [naturalHeight canvas_height]. rewrite LayoutFacts.heights_app.
    unfold heights. cbn [fold_right naturalHeight]. lia.
  - cbn [LayoutFacts.stack]. rewrite !LayoutFacts.rows_concatenate.
    rewrite !LayoutFacts.stack_lower, LayoutFacts.stack_app, app_nil_r.
    f_equal. f_equal.
    unfold concatenateImages, toDataURL, stitch. rewrite measure_spec.
    cbn [naturalHeight canvas_height]. lia.
Qed.

(* ================================================================== *)
(** * Capture: what every gesture and deletion keeps *)
(* ================================================================== *)

Module CaptureInvariant.

(** The regions and the thumbnails carry the same ids in the same order,
    no id twice, every id below the counter, and the region at position [k]
    shows the number [k + 1]. *)
Definition aligned (s : session) : Prop :=
  map regionId (regionSelections s) = map wrapper_regionId (sidebar s)
  /\ NoDup (map regionId (regionSelections s))
  /\ (forall x, In x (map regionId (regionSelections s)) -> x < regionCounter s)
  /\ (forall k r, nth_error (regionSelections s) k = Some r ->
        region_number r = Z.of_nat k + 1 /\ zIndex r = Z.of_nat k + 1).

(** The regions numbered [i + 1], [i + 2], ... in their order. *)
Fixpoint renumbered (i : Z) (rs : list region) : list region :=
  match rs with
  | [] => []
  | r :: rest => with_number r (i + 1) :: renumbered (i + 1) rest
  end.

Lemma set_number_miss rid n rs :
  (forall r, In r rs -> regionId r <> rid) -> set_number rid n rs = rs.
Proof.
  induction rs as [|r rs IH]; intro H; [reflexivity|]. cbn [set_number].
  destruct (Z.eqb_spec (regionId r) rid) as [E|E].
  - exfalso. exact (H r (or_introl eq_refl) E).
  - f_equal. apply IH. intros x Hx. apply H. right. exact Hx.
Qed.

Lemma number_from_head ws : forall i r rs,
  (forall w, In w ws -> wrapper_regionId w <> regionId r) ->
  number_from i ws (r :: rs) = r :: number_from i ws rs.
Proof.
  induction ws as [|w ws IH]; intros i r rs H; [reflexivity|].
  cbn [number_from set_number].
  destruct (Z.eqb_spec (regionId r) (wrapper_regionId w)) as [E|E].
  - exfalso. apply (H w); [left; reflexivity | symmetry; exact E].
  - apply IH. intros w' Hw'. apply H. right. exact Hw'.
Qed.

Lemma number_from_aligned ws : forall i rs,
  map wrapper_regionId ws = map regionId rs -> NoDup (map regionId rs) ->
  number_from i ws rs = renumbered i rs.
Proof.
  induction ws as [|w ws IH]; intros i rs E Hnd.
  - destruct rs; [reflexivity | discriminate].
  - destruct rs as [|r rs]; [discriminate|]. cbn [map] in E, Hnd.
    inversion E as [[E1 E2]]. inversion Hnd as [|? ? Hr Hnd']; subst.
    cbn [number_from set_number renumbered]. rewrite E1, Z.eqb_refl.
    rewrite number_from_head.
    + f_equal. apply IH; assumption.
    + intros w' Hw'. cbn [with_number regionId]. intro E'. apply Hr.
      rewrite <- E', <- E2. apply in_map. exact Hw'.
Qed.

Lemma renumbered_ids i rs : map regionId (renumbered i rs) = map regionId rs.
Proof.
  revert i; induction rs as [|r rs IH]; intro i; [reflexivity|].
  cbn [renumbered map]. rewrite IH. reflexivity.
Qed.

Lemma renumbered_nth rs : forall i k r,
  nth_error (renumbered i rs) k = Some r ->
  region_number r = i + Z.of_nat k + 1 /\ zIndex r = i + Z.of_nat k + 1.
Proof.
  induction rs as [|x rs IH]; intros i k r H; [destruct k; discriminate|].
  destruct k as [|k]; cbn [renumbered nth_error] in H.
  - inversion H; subst. cbn [with_number region_number zIndex]. lia.
  - destruct (IH _ _ _ H) as [H1 H2]. lia.
Qed.

Lemma renumbered_aligned rs ws counter s :
  map regionId rs = map wrapper_regionId ws ->
  NoDup (map regionId rs) ->
  (forall x, In x (map regionId rs) -> x < counter) ->
  regionSelections s = number_from 0 ws rs -> sidebar s = ws ->
  regionCounter s = counter ->
  aligned s.
Proof.
  intros E Hnd Hlt Ers Ews Ec. unfold aligned. rewrite Ers, Ews, Ec.
  rewrite number_from_aligned by (try symmetry; assumption).
  rewrite renumbered_ids. split; [exact E|]. split; [exact Hnd|]. split; [exact Hlt|].
  intros k r Hk. apply renumbered_nth in Hk. exact Hk.
Qed.

Lemma addRegionSelection_aligned s rect img ov fh s' :
  aligned s -> addRegionSelection s rect img ov fh = Some s' ->
  aligned s'
  /\ sidebar s' = sidebar s ++ [Wrapper (regionCounter s) img]
  /\ map regionId (regionSelections s')
     = map regionId (regionSelections s) ++ [regionCounter s].
Proof.
  intros [E [Hnd [Hlt _]]] H. unfold addRegionSelection in H.
  destruct (nth_error (questions s) (currentQuestionIndex s)) as [q|]; [|discriminate].
  inversion H as [Es']. clear H.
  set (r := Region (regionCounter s) ov rect fh Text _ 0 0).
  assert (Eids : map regionId (regionSelections s ++ [r])
                 = map regionId (regionSelections s) ++ [regionCounter s])
    by (rewrite map_app; reflexivity).
  split; [|split].
  - apply (renumbered_aligned (regionSelections s ++ [r])
             (sidebar s ++ [Wrapper (regionCounter s) img]) (regionCounter s + 1)).
    + rewrite !map_app, E. reflexivity.
    + rewrite Eids. apply NoDup_app; [exact Hnd | repeat constructor; intros [] |].
      intros x Hx [<-|[]]. specialize (Hlt _ Hx). lia.
    + rewrite Eids. intros x Hx. apply in_app_or in Hx as [Hx|[<-|[]]];
        [specialize (Hlt x Hx)|]; lia.
    + reflexivity.
    + reflexivity.
    + reflexivity.
  - reflexivity.
  - cbn [updateRegionNumbers set_regions regionSelections sidebar].
    rewrite (number_from_map regionId (fun _ _ => eq_refl)). exact Eids.
Qed.

Lemma set_gesture_aligned s sel ov x y r pts :
  aligned s -> aligned (set_gesture s sel ov x y r pts).
Proof. intro H. exact H. Qed.

Lemma remove_first_split {A : Type} (key : A -> Z) id (l : list A) a b :
  map key l = a ++ id :: b -> ~ In id a ->
  map key (remove_first (fun x => key x =? id) l) = a ++ b.
Proof.
  revert a; induction l as [|x l IH]; intros a E Ha.
  - destruct a; discriminate.
  - cbn [map] in E. cbn [remove_first].
    destruct a as [|y a]; cbn [app] in E; inversion E as [[E1 E2]].
    + rewrite Z.eqb_refl. reflexivity.
    + destruct (Z.eqb_spec (key x) id) as [Ey|Ey];
        [exfalso; apply Ha; left; rewrite <- E1; exact Ey|].
      cbn [map app]. f_equal. apply IH; [exact E2|].
      intro Hin. apply Ha. right. exact Hin.
Qed.

Lemma deleteRegion_aligned s id : aligned s -> aligned (deleteRegion s id).
Proof.
  intros Hs. pose proof Hs as [E [Hnd [Hlt Hnum]]]. unfold deleteRegion.
  destruct (findIndex id (regionSelections s)) as [i|] eqn:F; [|exact Hs].
  destruct (findIndex_some id _ i F) as [a [r [b [Ers [Hl [Hr Ha]]]]]].
  assert (Hnth : nth_error (regionSelections s) i = Some r).
  { rewrite Ers, <- Hl. rewrite nth_error_app2 by lia.
    rewrite Nat.sub_diag. reflexivity. }
  rewrite Hnth.
  assert (Hida : ~ In id (map regionId a)).
  { intro Hin. apply in_map_iff in Hin as [x [Ex Hx]]. exact (Ha x Hx Ex). }
  assert (Esplit : map regionId (regionSelections s)
                   = map regionId a ++ id :: map regionId b)
    by (rewrite Ers, map_app; cbn [map]; rewrite Hr; reflexivity).
  apply (renumbered_aligned (a ++ b)
           (remove_first (fun w => wrapper_regionId w =? id) (sidebar s))
           (regionCounter s)).
  - rewrite (remove_first_split wrapper_regionId id (sidebar s)
               (map regionId a) (map regionId b)); [apply map_app | | exact Hida].
    rewrite <- E. exact Esplit.
  - rewrite Esplit in Hnd. apply NoDup_remove_1 in Hnd. rewrite map_app. exact Hnd.
  - intros x Hx. apply Hlt. rewrite Esplit. rewrite map_app in Hx.
    apply in_app_or in Hx as [Hx|Hx]; apply in_or_app; [left | right; right]; exact Hx.
  - cbn [updateRegionNumbers set_regions regionSelections sidebar].
    rewrite Ers, <- Hl, splice1_middle. reflexivity.
  - reflexivity.
  - reflexivity.
Qed.

Lemma endSelection_aligned s s' : aligned s -> endSelection s = Some s' -> aligned s'.
Proof.
  intros Hs H. unfold endSelection in H.
  destruct (negb (isSelecting s)); [inversion H; subst; exact Hs|].
  cbn [set_gesture currentOverlay cutMode currentBoxRect pathPoints] in H.
  destruct (currentOverlay s) as [ov|]; [|discriminate].
  destruct (cutMode s).
  - destruct (currentBoxRect s) as [r|]; [|inversion H; subst; exact Hs].
    destruct (too_small r); [inversion H; subst; exact Hs|].
    unfold cropAndAddImage in H.
    match type of H with
    | match ?X with _ => _ end = _ => destruct X as [s1|] eqn:Ea; [|discriminate]
    end.
    inversion H; subst.
    apply set_gesture_aligned.
    apply (addRegionSelection_aligned _ _ _ _ _ _ (set_gesture_aligned _ _ _ _ _ _ _ Hs) Ea).
  - destruct (getBoundingBox (pathPoints s)) as [bbox|]; [|inversion H; subst; exact Hs].
    destruct (too_small bbox); [inversion H; subst; exact Hs|].
    unfold cropWithPath in H.
    match type of H with
    | match ?X with _ => _ end = _ => destruct X as [s1|] eqn:Ea; [|discriminate]
    end.
    inversion H; subst.
    apply set_gesture_aligned.
    apply (addRegionSelection_aligned _ _ _ _ _ _ (set_gesture_aligned _ _ _ _ _ _ _ Hs) Ea).
Qed.

End CaptureInvariant.

Module PageFacts.

Import CaptureInvariant Page.

Lemma startSelection_regions s ov x y :
  regionSelections (startSelection s ov x y) = regionSelections s
  /\ sidebar (startSelection s ov x y) = sidebar s
  /\ regionCounter (startSelection s ov x y) = regionCounter s.
Proof. unfold startSelection. destruct (cutMode s); repeat split; reflexivity. Qed.

Lemma updateSelection_regions s x y :
  regionSelections (updateSelection s x y) = regionSelections s
  /\ sidebar (updateSelection s x y) = sidebar s
  /\ regionCounter (updateSelection s x y) = regionCounter s.
Proof.
  unfold updateSelection. destruct (negb (isSelecting s)); [repeat split; reflexivity|].
  destruct (cutMode s); repeat split; reflexivity.
Qed.

Lemma aligned_same s s' :
  regionSelections s' = regionSelections s /\ sidebar s' = sidebar s
  /\ regionCounter s' = regionCounter s ->
  aligned s -> aligned s'.
Proof. intros [E1 [E2 E3]]. unfold aligned. rewrite E1, E2, E3. exact (fun H => H). Qed.

Lemma choose_ids id k part rs : map regionId (choose id k part rs) = map regionId rs.
Proof.
  induction rs as [|r rs IH]; [reflexivity|]. cbn [choose].
  destruct (regionId r =? id); cbn [map]; [|rewrite IH]; reflexivity.
Qed.

Lemma choose_nth id k part rs : forall i r',
  nth_error (choose id k part rs) i = Some r' ->
  exists r, nth_error rs i = Some r
            /\ region_number r' = region_number r /\ zIndex r' = zIndex r.
Proof.
  induction rs as [|x rs IH]; intros i r' H; [destruct i; discriminate|].
  cbn [choose] in H. destruct (regionId x =? id).
  - destruct i as [|i]; cbn [nth_error] in *.
    + inversion H; subst. exists x. repeat split; reflexivity.
    + exists r'. split; [exact H | split; reflexivity].
  - destruct i as [|i]; cbn [nth_error] in *.
    + inversion H; subst. exists r'. repeat split; reflexivity.
    + apply IH. exact H.
Qed.

Lemma remove_first_absent {A : Type} (f : A -> bool) l :
  (forall x, In x l -> f x = false) -> remove_first f l = l.
Proof.
  induction l as [|x l IH]; intro H; [reflexivity|]. cbn [remove_first].
  rewrite (H x (or_introl eq_refl)). f_equal. apply IH.
  intros y Hy. apply H. right. exact Hy.
Qed.

Lemma remove_first_twice {A : Type} (key : A -> Z) id l :
  NoDup (map key l) ->
  remove_first (fun x => key x =? id) (remove_first (fun x => key x =? id) l)
  = remove_first (fun x => key x =? id) l.
Proof.
  induction l as [|x l IH]; intro H; [reflexivity|].
  cbn [map] in H. inversion H as [|? ? Hx Hl]; subst. cbn [remove_first].
  destruct (Z.eqb_spec (key x) id) as [E|E].
  - apply remove_first_absent. intros y Hy. apply Z.eqb_neq. intro Ey.
    apply Hx. rewrite E, <- Ey. apply in_map. exact Hy.
  - cbn [remove_first]. destruct (Z.eqb_spec (key x) id); [contradiction|].
    f_equal. apply IH. exact Hl.
Qed.

(** On an aligned session the delete button of a thumbnail does what the
    delete button of the marker does. *)
Lemma delete_buttons_agree s id :
  aligned s ->
  handle s (click_delete_thumbnail id) = handle s (click_delete_region id).
Proof.
  intros [E [Hnd _]]. cbn [handle]. f_equal. unfold deleteRegion.
  cbn [set_regions regionSelections sidebar markers regionCounter].
  destruct (findIndex id (regionSelections s)) as [i|] eqn:F.
  - destruct (nth_error (regionSelections s) i) as [r|] eqn:Hn.
    + cbn [set_regions regionSelections sidebar markers regionCounter
           isSelecting cutMode startX startY currentOverlay currentBoxRect pathPoints
           questions currentQuestionIndex].
      rewrite remove_first_twice by (rewrite <- E; exact Hnd). reflexivity.
    + exfalso. destruct (findIndex_some id _ i F) as [a [r [b [Ers [Hl _]]]]].
      rewrite Ers, <- Hl in Hn. rewrite nth_error_app2 in Hn by lia.
      rewrite Nat.sub_diag in Hn. discriminate.
  - rewrite remove_first_absent; [destruct s; reflexivity|].
    intros w Hw. apply Z.eqb_neq. intro Ew.
    assert (Hin : In id (map regionId (regionSelections s)))
      by (rewrite E, <- Ew; apply in_map; exact Hw).
    apply in_map_iff in Hin as [r [Er Hr]].
    exact (proj1 (findIndex_none id _) F r Hr Er).
Qed.

Lemma handle_aligned s e s' : aligned s -> handle s e = Some s' -> aligned s'.
Proof.
  intros Hs H. destruct e as [ov x y|x y| |id|id|id k part].
  - inversion H; subst. exact (aligned_same _ _ (startSelection_regions s ov x y) Hs).
  - inversion H; subst. exact (aligned_same _ _ (updateSelection_regions s x y) Hs).
  - exact (endSelection_aligned s s' Hs H).
  - inversion H; subst. apply deleteRegion_aligned. exact Hs.
  - rewrite (delete_buttons_agree s id Hs) in H. inversion H; subst.
    apply deleteRegion_aligned. exact Hs.
  - inversion H; subst. destruct Hs as [E [Hnd [Hlt Hnum]]]. unfold aligned.
    cbn [set_regions regionSelections sidebar regionCounter]. rewrite choose_ids.
    split; [exact E|]. split; [exact Hnd|]. split; [exact Hlt|].
    intros i r' Hi. destruct (choose_nth _ _ _ _ _ _ Hi) as [r [Hr [E1 E2]]].
    rewrite E1, E2. apply Hnum. exact Hr.
Qed.

End PageFacts.

(** X9. Whatever the user does on the capture page (presses, moves,
    releases, deletions by either button, choices in the selects), a session
    in which regions and thumbnails correspond stays so: they carry the same
    ids in the same order, no id twice and every id below the counter, and
    the markers are numbered 1, 2, ... in that order.  On such a session the
    delete button of a thumbnail and the one of its marker do the same. *)
Theorem capture_keeps_regions_aligned (s s' : session) (events : list Page.event) :
  CaptureInvariant.aligned s ->
  Page.run s events = Some s' ->
  CaptureInvariant.aligned s'
  /\ forall id, Page.handle s' (Page.click_delete_thumbnail id)
                = Page.handle s' (Page.click_delete_region id).
Proof.
  intros Hs H.
  assert (Ha : CaptureInvariant.aligned s').
  { revert s Hs H. induction events as [|e events IH]; intros s Hs H.
    - inversion H; subst. exact Hs.
    - cbn [Page.run] in H. destruct (Page.handle s e) as [s1|] eqn:He; [|discriminate].
      apply (IH s1); [|exact H]. exact (PageFacts.handle_aligned s e s1 Hs He). }
  split; [exact Ha|]. intro id. apply PageFacts.delete_buttons_agree. exact Ha.
Qed.

Lemma capture_keeps_regions_aligned_witness :
  let ov := Overlay 0 2 in
  let s := Session false box 0 0 None None [] [Question 7 1 []] 0 [] 1 [] [] in
  let events :=
    [Page.mousedown ov 10 10; Page.mousemove 110 60; Page.mouseup;
     Page.mousedown ov 10 100; Page.mousemove 210 180; Page.mouseup;
     Page.click_delete_thumbnail 1;
     Page.mousedown ov 20 20; Page.mousemove 90 90; Page.mouseup] in
  exists s', Page.run s events = Some s'
    /\ CaptureInvariant.aligned s'
    /\ map regionId (regionSelections s') = [2; 3]
    /\ map region_number (regionSelections s') = [1; 2].
Proof.
  cbv zeta. eexists. split; [vm_compute; reflexivity|].
  split; [|split; vm_compute; reflexivity].
  apply (capture_keeps_regions_aligned
           (Session false box 0 0 None None [] [Question 7 1 []] 0 [] 1 [] []) _
           [Page.mousedown (Overlay 0 2) 10 10; Page.mousemove 110 60; Page.mouseup;
            Page.mousedown (Overlay 0 2) 10 100; Page.mousemove 210 180; Page.mouseup;
            Page.click_delete_thumbnail 1;
            Page.mousedown (Overlay 0 2) 20 20; Page.mousemove 90 90; Page.mouseup]).
  - unfold CaptureInvariant.aligned. cbn [regionSelections sidebar regionCounter map].
    split; [reflexivity|]. split; [constructor|]. split; [intros x []|].
    intros k r Hk. destruct k; discriminate.
  - vm_compute. reflexivity.
Defined.

Module GestureFacts.







End GestureFacts.



(** X11. A press and a release with no move in between, after a box
    gesture has ended, store nothing: the rectangle left behind by the
    gesture is either gone or was itself too small. *)
Theorem click_after_box_gesture_stores_nothing (s s1 : session) (ov : overlay) (x y : Q) :
  cutMode s = box -> isSelecting s = true -> endSelection s = Some s1 ->
  exists s2, endSelection (startSelection s1 ov x y) = Some s2
    /\ regionSelections s2 = regionSelections s1
    /\ sidebar s2 = sidebar s1
    /\ markers s2 = markers s1
    /\ regionCounter s2 = regionCounter s1.
Proof.
  intros Hm Hs H.
  assert (Hidle : cutMode s1 = box
                  /\ (currentBoxRect s1 = None
                      \/ exists r, currentBoxRect s1 = Some r /\ too_small r = true)).
  { unfold endSelection in H. rewrite Hs in H. cbn [negb] in H.
    cbn [set_gesture currentOverlay cutMode currentBoxRect] in H. rewrite Hm in H.
    destruct (currentOverlay s) as [ov0|]; [|discriminate].
    destruct (currentBoxRect s) as [r|] eqn:Er.
    - destruct (too_small r) eqn:Et.
      + inversion H; subst. cbn [set_gesture cutMode currentBoxRect].
        split; [exact Hm|]. right. exists r. split; [reflexivity | exact Et].
      + unfold cropAndAddImage, addRegionSelection in H.
        cbn [set_gesture questions currentQuestionIndex] in H.
        destruct (nth_error (questions s) (currentQuestionIndex s)); [|discriminate].
        inversion H; subst. cbn [set_gesture cutMode currentBoxRect updateRegionNumbers
                                 set_regions].
        split; [exact Hm|]. left. reflexivity.
    - inversion H; subst. cbn [set_gesture cutMode currentBoxRect].
      split; [exact Hm|]. left. reflexivity. }
  destruct Hidle as [Hm1 Hr]. unfold startSelection. rewrite Hm1.
  unfold endSelection. cbn [set_gesture isSelecting negb currentOverlay cutMode currentBoxRect].
  rewrite Hm1. destruct Hr as [Hr|[r [Hr Ht]]]; rewrite Hr.
  - eexists. split; [reflexivity|]. repeat split; reflexivity.
  - rewrite Ht. eexists. split; [reflexivity|]. repeat split; reflexivity.
Qed.

Lemma click_after_box_gesture_stores_nothing_witness :
  let ov := Overlay 0 2 in
  let s := Session true box 10 10 (Some ov) (Some (BoxRect 10 10 100 50)) []
                   [Question 7 1 []] 0 [] 1 [] [] in
  exists s1 s2, endSelection s = Some s1
    /\ List.length (regionSelections s1) = 1%nat
    /\ endSelection (startSelection s1 ov 300 300) = Some s2
    /\ regionSelections s2 = regionSelections s1.
Proof.
  cbv zeta.
  set (ov := Overlay 0 2).
  set (s := Session true box 10 10 (Some ov) (Some (BoxRect 10 10 100 50)) []
                    [Question 7 1 []] 0 [] 1 [] []).
  destruct (endSelection s) as [s1|] eqn:E1; [|vm_compute in E1; discriminate].
  destruct (click_after_box_gesture_stores_nothing s s1 ov 300 300 eq_refl eq_refl E1)
    as [s2 [E2 [Hr _]]].
  exists s1, s2. split; [reflexivity|]. split; [|split; assumption].
  vm_compute in E1. inversion E1. reflexivity.
Defined.

Module BoundingBox.

Definition grow : Q * Q * Q * Q -> Q * Q -> Q * Q * Q * Q :=
  fun '(loX, loY, hiX, hiY) '(x, y) =>
    (Qmin loX x, Qmin loY y, Qmax hiX x, Qmax hiY y).

Lemma getBoundingBox_grow x0 y0 rest :
  getBoundingBox ((x0, y0) :: rest)
  = let '(loX, loY, hiX, hiY) := fold_left grow rest (x0, y0, x0, y0) in
    Some (BoxRect loX loY (hiX - loX) (hiY - loY)).
Proof. reflexivity. Qed.

Lemma grow_bounds rest : forall a b c d,
  let '(lx, ly, hx, hy) := fold_left grow rest (a, b, c, d) in
  (lx <= a /\ ly <= b /\ c <= hx /\ d <= hy)%Q
  /\ (forall x y, In (x, y) rest -> (lx <= x <= hx)%Q /\ (ly <= y <= hy)%Q)
  /\ (forall L, (L <= a)%Q -> (forall x y, In (x, y) rest -> (L <= x)%Q) -> (L <= lx)%Q)
  /\ (forall L, (L <= b)%Q -> (forall x y, In (x, y) rest -> (L <= y)%Q) -> (L <= ly)%Q)
  /\ (forall U, (c <= U)%Q -> (forall x y, In (x, y) rest -> (x <= U)%Q) -> (hx <= U)%Q)
  /\ (forall U, (d <= U)%Q -> (forall x y, In (x, y) rest -> (y <= U)%Q) -> (hy <= U)%Q).
Proof.
  induction rest as [|[x y] rest IH]; intros a b c d.
  - cbn [fold_left]. split; [repeat split; apply Qle_refl|].
    split; [intros ? ? []|]. repeat split; intros; assumption.
  - cbn [fold_left grow].
    specialize (IH (Qmin a x) (Qmin b y) (Qmax c x) (Qmax d y)).
    destruct (fold_left grow rest (Qmin a x, Qmin b y, Qmax c x, Qmax d y))
      as [[[lx ly] hx] hy].
    destruct IH as [[A1 [A2 [A3 A4]]] [Hin [M1 [M2 [M3 M4]]]]].
    pose proof (Q.le_min_l a x). pose proof (Q.le_min_r a x).
    pose proof (Q.le_min_l b y). pose proof (Q.le_min_r b y).
    pose proof (Q.le_max_l c x). pose proof (Q.le_max_r c x).
    pose proof (Q.le_max_l d y). pose proof (Q.le_max_r d y).
    split; [repeat split; lra|]. split.
    + intros x' y' [E|Hp]; [inversion E; subst; repeat split; lra | apply Hin; exact Hp].
    + repeat split.
      * intros L HL Hall. apply M1.
        -- apply Q.min_glb; [exact HL | apply (Hall x y); left; reflexivity].
        -- intros x' y' Hp. apply (Hall x' y'). right. exact Hp.
      * intros L HL Hall. apply M2.
        -- apply Q.min_glb; [exact HL | apply (Hall x y); left; reflexivity].
        -- intros x' y' Hp. apply (Hall x' y'). right. exact Hp.
      * intros U HU Hall. apply M3.
        -- apply Q.max_lub; [exact HU | apply (Hall x y); left; reflexivity].
        -- intros x' y' Hp. apply (Hall x' y'). right. exact Hp.
      * intros U HU Hall. apply M4.
        -- apply Q.max_lub; [exact HU | apply (Hall x y); left; reflexivity].
        -- intros x' y' Hp. apply (Hall x' y'). right. exact Hp.
Qed.

End BoundingBox.

(** X12. [getBoundingBox] gives a box exactly when there is a point; the
    box contains every point, its sizes are not negative, and it is the
    smallest such box: a rectangle that contains all the points contains
    it. *)
Theorem getBoundingBox_is_the_smallest_box (points : list (Q * Q)) :
  (getBoundingBox points = None <-> points = [])
  /\ forall b, getBoundingBox points = Some b ->
       (0 <= width b)%Q /\ (0 <= height b)%Q
       /\ (forall x y, In (x, y) points ->
             (minX b <= x <= minX b + width b)%Q /\ (minY b <= y <= minY b + height b)%Q)
       /\ (forall L T R B,
             (forall x y, In (x, y) points -> (L <= x <= R)%Q /\ (T <= y <= B)%Q) ->
             (L <= minX b)%Q /\ (T <= minY b)%Q
             /\ (minX b + width b <= R)%Q /\ (minY b + height b <= B)%Q).
Proof.
  destruct points as [|[x0 y0] rest].
  - split; [split; reflexivity | discriminate].
  - split; [split; [|discriminate]|].
    + rewrite BoundingBox.getBoundingBox_grow.
      destruct (fold_left BoundingBox.grow rest (x0, y0, x0, y0)) as [[[lx ly] hx] hy].
      discriminate.
    + intros b Hb. rewrite BoundingBox.getBoundingBox_grow in Hb.
      pose proof (BoundingBox.grow_bounds rest x0 y0 x0 y0) as H.
      destruct (fold_left BoundingBox.grow rest (x0, y0, x0, y0)) as [[[lx ly] hx] hy].
      inversion Hb; subst b. cbn [minX minY width height].
      destruct H as [[A1 [A2 [A3 A4]]] [Hin [M1 [M2 [M3 M4]]]]].
      split; [lra|]. split; [lra|]. split.
      * intros x y [E|Hp].
        -- inversion E; subst. split; lra.
        -- destruct (Hin x y Hp). split; lra.
      * intros L T R B Hall.
        assert (H0 := Hall x0 y0 (or_introl eq_refl)).
        assert (L <= lx)%Q
          by (apply M1; [lra | intros x y Hp; apply (Hall x y); right; exact Hp]).
        assert (T <= ly)%Q
          by (apply M2; [lra | intros x y Hp; apply (Hall x y); right; exact Hp]).
        assert (hx <= R)%Q
          by (apply M3; [lra | intros x y Hp; apply (Hall x y); right; exact Hp]).
        assert (hy <= B)%Q
          by (apply M4; [lra | intros x y Hp; apply (Hall x y); right; exact Hp]).
        repeat split; lra.
Qed.

Lemma getBoundingBox_is_the_smallest_box_witness :
  let points := [(10, 10); (60, 20); (30, 70)]%Q in
  let b := BoxRect 10 10 (60 - 10) (70 - 10) in
  getBoundingBox points = Some b
  /\ (minX b <= 60 <= minX b + width b)%Q /\ (minY b <= 20 <= minY b + height b)%Q.
Proof.
  cbv zeta. split; [reflexivity|].
  destruct (proj2 (getBoundingBox_is_the_smallest_box [(10, 10); (60, 20); (30, 70)]%Q)
                  (BoxRect 10 10 (60 - 10) (70 - 10)) eq_refl) as [_ [_ [Hin _]]].
  exact (Hin 60%Q 20%Q (or_intror (or_introl eq_refl))).
Defined.

(** X13. The end of a freehand gesture.  With no point, or with a
    bounding box narrower or lower than 5, nothing is stored (so a press and
    a release without a move store nothing).  Otherwise the bounding box,
    scaled by the ratio of the overlay, gives the size of the crop; the new
    region takes the counter as its id, keeps the recorded points and has
    the bounding box as its rectangle; the counter grows by one and the
    recorded points are cleared. *)
Theorem endSelection_freehand (s : session) (ov : overlay) (q : question) :
  isSelecting s = true -> cutMode s = freehand ->
  currentOverlay s = Some ov ->
  nth_error (questions s) (currentQuestionIndex s) = Some q ->
  exists s', endSelection s = Some s' /\ isSelecting s' = false
    /\ ((getBoundingBox (pathPoints s) = None
         \/ (exists b, getBoundingBox (pathPoints s) = Some b
                       /\ ((width b < 5)%Q \/ (height b < 5)%Q))
         \/ List.length (pathPoints s) = 1%nat) ->
        regionSelections s' = regionSelections s /\ regionCounter s' = regionCounter s
        /\ sidebar s' = sidebar s /\ markers s' = markers s)
    /\ (forall b, getBoundingBox (pathPoints s) = Some b ->
        (5 <= width b)%Q /\ (5 <= height b)%Q ->
        sidebar s'
        = sidebar s
          ++ [Wrapper (regionCounter s)
                (Image (Qfloor (width b * ratio ov)) (Qfloor (height b * ratio ov))
                       [Placed (PathCrop (page ov) (ratio ov) (pathPoints s)) 0 0])]
        /\ markers s' = markers s ++ [(page ov, regionCounter s)]
        /\ regionCounter s' = regionCounter s + 1
        /\ map regionId (regionSelections s')
           = map regionId (regionSelections s) ++ [regionCounter s]
        /\ map freehandData (regionSelections s')
           = map freehandData (regionSelections s) ++ [Some (pathPoints s)]
        /\ map regionRect (regionSelections s')
           = map regionRect (regionSelections s) ++ [b]
        /\ map selectEl (regionSelections s') = map selectEl (regionSelections s) ++ [Text]
        /\ pathPoints s' = []).
Proof.
  intros Hsel Hmode Hov Hq.
  assert (Hone : List.length (pathPoints s) = 1%nat ->
                 exists b, getBoundingBox (pathPoints s) = Some b /\ too_small b = true).
  { intro H1. destruct (pathPoints s) as [|[x y] [|p rest]]; try discriminate.
    eexists. split; [reflexivity|]. apply too_small_spec. left.
    cbn [width]. lra. }
  unfold endSelection. rewrite Hsel. cbn [negb].
  cbn [set_gesture currentOverlay cutMode pathPoints].
  rewrite Hov, Hmode.
  destruct (getBoundingBox (pathPoints s)) as [bbox|] eqn:Eb.
  - destruct (too_small bbox) eqn:Ets.
    + eexists. split; [reflexivity|]. split; [reflexivity|]. split.
      * intros _. repeat split; reflexivity.
      * intros b Hb H. inversion Hb; subst b. apply too_small_false in H. congruence.
    + unfold cropWithPath, addRegionSelection.
      cbn [set_gesture questions currentQuestionIndex]. rewrite Hq.
      eexists. split; [reflexivity|]. split; [reflexivity|]. split.
      * intros [H|[[b [Hb H]]|H]]; [discriminate | |].
        -- inversion Hb; subst b. apply too_small_spec in H. congruence.
        -- destruct (Hone H) as [b [Hb Ht]]. inversion Hb; subst b. congruence.
      * intros b Hb _. inversion Hb; subst b.
        cbn [set_gesture updateRegionNumbers set_regions regionSelections sidebar markers
             regionCounter pathPoints].
        split; [reflexivity|]. split; [reflexivity|]. split; [reflexivity|].
        rewrite (number_from_map regionId (fun _ _ => eq_refl)).
        rewrite (number_from_map freehandData (fun _ _ => eq_refl)).
        rewrite (number_from_map regionRect (fun _ _ => eq_refl)).
        rewrite (number_from_map selectEl (fun _ _ => eq_refl)).
        rewrite !map_app. cbn [map regionId freehandData regionRect selectEl].
        destruct bbox. repeat split; reflexivity.
  - eexists. split; [reflexivity|]. split; [reflexivity|]. split.
    + intros _. repeat split; reflexivity.
    + intros b Hb. discriminate.
Qed.

Lemma endSelection_freehand_witness :
  let ov := Overlay 0 2 in
  let pts := [(10, 10); (60, 20); (30, 70)]%Q in
  let s := Session true freehand 0 0 (Some ov) None pts [Question 7 1 []] 0 [] 1 [] [] in
  exists s', endSelection s = Some s'
    /\ map regionId (regionSelections s') = [1]
    /\ map freehandData (regionSelections s') = [Some pts]
    /\ regionCounter s' = 2
    /\ pathPoints s' = [].
Proof.
  cbv zeta.
  set (ov := Overlay 0 2). set (pts := [(10, 10); (60, 20); (30, 70)]%Q).
  set (s := Session true freehand 0 0 (Some ov) None pts [Question 7 1 []] 0 [] 1 [] []).
  destruct (endSelection_freehand s ov (Question 7 1 []) eq_refl eq_refl eq_refl eq_refl)
    as [s' [E [_ [_ Hbig]]]].
  assert (H5 : (5 <= 50)%Q /\ (5 <= 60)%Q) by (split; unfold Qle; simpl; lia).
  destruct (Hbig (BoxRect 10 10 (60 - 10) (70 - 10)) eq_refl H5)
    as [_ [_ [Hc [Hid [Hf [_ [_ Hp]]]]]]].
  exists s'. repeat split; assumption.
Defined.

(* ================================================================== *)
(** * Assembly: where every crop goes *)
(* ================================================================== *)

Module Dispatch.

Import JSFacts.

Definition kind_eqb (a b : kind) : bool :=
  match a, b with
  | Text, Text | Table, Table | Diagram, Diagram => true
  | _, _ => false
  end.

(** The region a thumbnail points to. *)
Definition region_of (rs : list region) (w : wrapper) : option region :=
  find (fun r => regionId r =? wrapper_regionId w) rs.

(** The value of the part select of a region; the empty string stands for
    "Main", also when the region has no part select. *)
Definition part_of (r : region) : str :=
  match partSelect r with Some v => v | None => [] end.

(** The thumbnail's region has kind [k] and part [p]. *)
Definition chosen (rs : list region) (k : kind) (p : str) (w : wrapper) : bool :=
  match region_of rs w with
  | Some r => kind_eqb (selectEl r) k && str_eqb (part_of r) p
  | None => false
  end.

(** The crops of kind [k] given to part [p], in the order of the sidebar. *)
Definition crops (rs : list region) (ws : list wrapper) (k : kind) (p : str) : list image :=
  map wrapper_src (filter (chosen rs k p) ws).

Definition of_kind (k : kind) (b : bucket) : list image :=
  match k with Text => bText b | Table => bTable b | Diagram => bDiagram b end.

Lemma of_kind_push k k' src b :
  of_kind k (push k' src b) = of_kind k b ++ (if kind_eqb k' k then [src] else []).
Proof. destruct k, k'; cbn; rewrite ?app_nil_r; reflexivity. Qed.

Lemma pm_get_set_same p b m : pm_get p (pm_set p b m) = Some b.
Proof.
  induction m as [|[k v] m IH]; cbn [pm_set pm_get].
  - rewrite str_eqb_refl. reflexivity.
  - destruct (str_eqb k p) eqn:E; cbn [pm_get]; rewrite E; [reflexivity | exact IH].
Qed.

Lemma pm_get_set_other p p' b m : p' <> p -> pm_get p' (pm_set p b m) = pm_get p' m.
Proof.
  intro Hne. induction m as [|[k v] m IH]; cbn [pm_set pm_get].
  - destruct (str_eqb p p') eqn:E; [|reflexivity].
    apply str_eqb_spec in E. congruence.
  - destruct (str_eqb k p) eqn:E; cbn [pm_get].
    + destruct (str_eqb k p') eqn:E'; [|reflexivity].
      apply str_eqb_spec in E. apply str_eqb_spec in E'. congruence.
    + rewrite IH. reflexivity.
Qed.

Lemma pm_set_keeps_keys p b m p' :
  pm_get p' m <> None -> pm_get p' (pm_set p b m) <> None.
Proof.
  intro H. destruct (str_eqb p' p) eqn:E.
  - apply str_eqb_spec in E. subst. rewrite pm_get_set_same. discriminate.
  - rewrite pm_get_set_other; [exact H|]. intro Ep. subst.
    rewrite str_eqb_refl in E. discriminate.
Qed.

(** The empty buckets of step 2. *)
Lemma empty_buckets partsList : forall m p,
  In p partsList \/ pm_get p m = Some empty_bucket ->
  pm_get p (fold_left (fun m p => pm_set p empty_bucket m) partsList m)
  = Some empty_bucket.
Proof.
  induction partsList as [|x l IH]; intros m p H; cbn [fold_left].
  - destruct H as [[]|H]. exact H.
  - apply IH. destruct (str_eqb x p) eqn:E.
    + apply str_eqb_spec in E. subst. right. apply pm_get_set_same.
    + assert (Hne : p <> x) by (intro; subst; rewrite str_eqb_refl in E; discriminate).
      destruct H as [[Hx|Hl]|H]; [congruence | left; exact Hl |].
      right. rewrite pm_get_set_other by exact Hne. exact H.
Qed.

(** Step 3 in closed form. *)
Lemma assign_all rs ws : forall b0 pm0,
  (forall w, In w ws ->
     exists r, region_of rs w = Some r
               /\ (part_of r = [] \/ pm_get (part_of r) pm0 <> None)) ->
  exists b pm,
    fold_left (assign rs) ws (Some (b0, pm0)) = Some (b, pm)
    /\ (forall k, of_kind k b = of_kind k b0 ++ crops rs ws k [])
    /\ (forall p bp0, p <> [] -> pm_get p pm0 = Some bp0 ->
          exists bp, pm_get p pm = Some bp
                     /\ forall k, of_kind k bp = of_kind k bp0 ++ crops rs ws k p).
Proof.
  induction ws as [|w ws IH]; intros b0 pm0 H.
  - exists b0, pm0. split; [reflexivity|]. split.
    + intro k. unfold crops. cbn [filter map]. rewrite app_nil_r. reflexivity.
    + intros p bp0 _ Hp. exists bp0. split; [exact Hp|]. intro k.
      unfold crops. cbn [filter map]. rewrite app_nil_r. reflexivity.
  - destruct (H w (or_introl eq_refl)) as [r [Hr Hpart]].
    cbn [fold_left]. unfold assign at 2. unfold region_of in Hr. rewrite Hr.
    fold (part_of r). destruct (part_of r) as [|c cs] eqn:Ep.
    + destruct (IH (push (selectEl r) (wrapper_src w) b0) pm0) as [b [pm [E [Hb Hpm]]]].
      { intros w' Hw'. apply H. right. exact Hw'. }
      exists b, pm. split; [exact E|]. split.
      * intro k. rewrite Hb, of_kind_push, <- app_assoc. f_equal.
        unfold crops, chosen, region_of. cbn [filter]. rewrite Hr, Ep.
        cbn [str_eqb andb]. rewrite andb_true_r.
        destruct (kind_eqb (selectEl r) k); reflexivity.
      * intros p bp0 Hne Hp. destruct (Hpm p bp0 Hne Hp) as [bp [Hbp Hk]].
        exists bp. split; [exact Hbp|]. intro k. rewrite Hk. f_equal.
        unfold crops, chosen, region_of. cbn [filter]. rewrite Hr, Ep.
        destruct p; [contradiction|]. cbn [str_eqb]. rewrite andb_false_r. reflexivity.
    + destruct Hpart as [Hpart|Hpart]; [discriminate|].
      destruct (pm_get (c :: cs) pm0) as [bpr|] eqn:Eg; [|contradiction].
      destruct (IH b0 (pm_set (c :: cs) (push (selectEl r) (wrapper_src w) bpr) pm0))
        as [b [pm [E [Hb Hpm]]]].
      { intros w' Hw'. destruct (H w' (or_intror Hw')) as [r' [Hr' Hp']].
        exists r'. split; [exact Hr'|]. destruct Hp' as [Hp'|Hp']; [left; exact Hp'|].
        right. apply pm_set_keeps_keys. exact Hp'. }
      exists b, pm. split; [exact E|]. split.
      * intro k. rewrite Hb. f_equal.
        unfold crops, chosen, region_of. cbn [filter]. rewrite Hr, Ep.
        cbn [str_eqb]. rewrite andb_false_r. reflexivity.
      * intros p bp0 Hne Hp. destruct (str_eqb (c :: cs) p) eqn:Eq.
        -- apply str_eqb_spec in Eq. subst p.
           destruct (Hpm (c :: cs) (push (selectEl r) (wrapper_src w) bpr) Hne
                         (pm_get_set_same _ _ _)) as [bp [Hbp Hk]].
           exists bp. split; [exact Hbp|]. intro k.
           rewrite Hk, of_kind_push, <- app_assoc.
           assert (bp0 = bpr) by congruence. subst bp0. f_equal.
           unfold crops, chosen, region_of. cbn [filter]. rewrite Hr, Ep.
           rewrite str_eqb_refl, andb_true_r.
           destruct (kind_eqb (selectEl r) k); reflexivity.
        -- assert (Hpne : p <> c :: cs)
             by (intro; subst; rewrite str_eqb_refl in Eq; discriminate).
           destruct (Hpm p bp0 Hne) as [bp [Hbp Hk]];
             [rewrite pm_get_set_other by exact Hpne; exact Hp|].
           exists bp. split; [exact Hbp|]. intro k. rewrite Hk. f_equal.
           unfold crops, chosen, region_of. cbn [filter]. rewrite Hr, Ep, Eq.
           rewrite andb_false_r. reflexivity.
Qed.

Lemma update_part_at done f x rest :
  update_part (List.length done) f (done ++ x :: rest) = Some (done ++ f x :: rest).
Proof.
  induction done as [|d done IH]; [reflexivity|].
  cbn [List.length app update_part]. rewrite IH. reflexivity.
Qed.

Section Parts.
Variable measureText : str -> Q.
Variable pm : partsMap.
Variable final : str -> part_response.
Hypothesis final_spec : forall p b,
  pm_get p pm = Some b ->
  final p
  = PartResponse p
      (text_stack measureText (partCaption p) (bText b))
      (map (fun src => processImageWithLabel measureText src (partCaption p)) (bTable b))
      (map (fun src => processImageWithLabel measureText src (partCaption p)) (bDiagram b)).

(** Step 7 in closed form. *)
Lemma process_parts partsList : forall done,
  (forall p, In p partsList -> pm_get p pm <> None) ->
  fold_left (process_part measureText pm)
    (combine (seq (List.length done) (List.length partsList)) partsList)
    (Some (done ++ map (fun part_label => PartResponse part_label [] [] []) partsList))
  = Some (done ++ map final partsList).
Proof.
  induction partsList as [|p l IH]; intros done H; [reflexivity|].
  cbn [List.length seq combine fold_left map].
  unfold process_part at 2.
  destruct (pm_get p pm) as [b|] eqn:Eg; [|exfalso; exact (H p (or_introl eq_refl) Eg)].
  rewrite update_part_at. cbn [part_label].
  rewrite <- (final_spec p b Eg).
  replace (done ++ final p :: map (fun part_label => PartResponse part_label [] [] []) l)
    with ((done ++ [final p])
            ++ map (fun part_label => PartResponse part_label [] [] []) l)
    by (rewrite <- app_assoc; reflexivity).
  replace (S (List.length done)) with (List.length (done ++ [final p]))
    by (rewrite length_app; cbn [List.length]; lia).
  rewrite IH by (intros q Hq; apply H; right; exact Hq).
  rewrite <- app_assoc. reflexivity.
Qed.
End Parts.

End Dispatch.

(** X14. [saveCurrentSelections] in closed form.  When every thumbnail
    has its region and every part chosen in a part select is a part of the
    current question, the response is filled as follows: the crops whose
    region is on "Main" go to the question, the others to the part chosen,
    each list in the order of the sidebar; the text crops of one owner are
    stacked into one image under the owner's caption (no image when there is
    none), every table and every diagram crop gets the caption separately;
    every part of the question is filled, in the order of the parts. *)
Theorem saveCurrentSelections_dispatch (measureText : str -> Q) (s : session)
    (q : question) (temp : response) :
  nth_error (questions s) (currentQuestionIndex s) = Some q ->
  createTempResponse (questions s) (currentQuestionIndex s) = Some temp ->
  ~ In [] (q_parts q) ->
  (forall w, In w (sidebar s) ->
     exists r, Dispatch.region_of (regionSelections s) w = Some r
               /\ (Dispatch.part_of r = [] \/ In (Dispatch.part_of r) (q_parts q))) ->
  let crops := Dispatch.crops (regionSelections s) (sidebar s) in
  let labelled caption := map (fun src => processImageWithLabel measureText src caption) in
  saveCurrentSelections measureText s temp
  = Some (Response (id q) (question_number q)
            (text_stack measureText (questionCaption (question_number q)) (crops Text []))
            (labelled (questionCaption (question_number q)) (crops Table []))
            (labelled (questionCaption (question_number q)) (crops Diagram []))
            (map (fun p =>
                    PartResponse p
                      (text_stack measureText (partCaption p) (crops Text p))
                      (labelled (partCaption p) (crops Table p))
                      (labelled (partCaption p) (crops Diagram p)))
                 (q_parts q))).
Proof.
  intros Hq Htemp Hmain Hall. cbv zeta.
  unfold createTempResponse in Htemp. rewrite Hq in Htemp. inversion Htemp; subst temp.
  clear Htemp. unfold saveCurrentSelections. rewrite Hq.
  set (pm0 := fold_left (fun m p => pm_set p empty_bucket m) (q_parts q) []).
  assert (Hpm0 : forall p, In p (q_parts q) -> pm_get p pm0 = Some empty_bucket)
    by (intros p Hp; apply Dispatch.empty_buckets; left; exact Hp).
  destruct (Dispatch.assign_all (regionSelections s) (sidebar s) empty_bucket pm0)
    as [b [pm [E [Hb Hpm]]]].
  { intros w Hw. destruct (Hall w Hw) as [r [Hr Hp]]. exists r. split; [exact Hr|].
    destruct Hp as [Hp|Hp]; [left; exact Hp|]. right. rewrite (Hpm0 _ Hp). discriminate. }
  rewrite E. cbn [question_id response_number parts].
  assert (Hparts : forall p, In p (q_parts q) ->
            exists bp, pm_get p pm = Some bp
              /\ forall k, Dispatch.of_kind k bp
                           = Dispatch.crops (regionSelections s) (sidebar s) k p).
  { intros p Hp. destruct (Hpm p empty_bucket) as [bp [Hbp Hk]].
    - intro Ep. subst p. exact (Hmain Hp).
    - apply Hpm0. exact Hp.
    - exists bp. split; [exact Hbp|]. intro k. rewrite Hk. destruct k; reflexivity. }
  set (final := fun p => match pm_get p pm with
                         | Some b =>
                             PartResponse p
                               (text_stack measureText (partCaption p) (bText b))
                               (map (fun src => processImageWithLabel measureText src
                                                  (partCaption p)) (bTable b))
                               (map (fun src => processImageWithLabel measureText src
                                                  (partCaption p)) (bDiagram b))
                         | None => PartResponse p [] [] []
                         end).
  assert (Hfinal : forall p b, pm_get p pm = Some b ->
            final p
            = PartResponse p
                (text_stack measureText (partCaption p) (bText b))
                (map (fun src => processImageWithLabel measureText src (partCaption p))
                     (bTable b))
                (map (fun src => processImageWithLabel measureText src (partCaption p))
                     (bDiagram b)))
    by (intros p b0 Hg; unfold final; rewrite Hg; reflexivity).
  pose proof (Dispatch.process_parts measureText pm final Hfinal (q_parts q) []) as Hfold.
  cbn [List.length app] in Hfold. rewrite Hfold.
  - assert (Hb' : forall k, Dispatch.crops (regionSelections s) (sidebar s) k []
                            = Dispatch.of_kind k b)
      by (intro k; rewrite Hb; destruct k; reflexivity).
    f_equal. f_equal.
    + rewrite (Hb' Text). reflexivity.
    + rewrite (Hb' Table). reflexivity.
    + rewrite (Hb' Diagram). reflexivity.
    + apply map_ext_in. intros p Hp. destruct (Hparts p Hp) as [bp [Hbp Hk]].
      unfold final. rewrite Hbp, <- (Hk Text), <- (Hk Table), <- (Hk Diagram).
      reflexivity.
  - intros p Hp. destruct (Hparts p Hp) as [bp [Hbp _]]. rewrite Hbp. discriminate.
Qed.

Lemma saveCurrentSelections_dispatch_witness :
  let measureText := fun t : str => inject_Z (12 * Z.of_nat (List.length t)) in
  let ov := Overlay 0 2 in
  let rc := BoxRect 10 10 50 50 in
  let img1 := Image 100 100 [Placed (BoxCrop 0 20 20 100 100) 0 0] in
  let img2 := Image 100 80 [Placed (BoxCrop 0 20 200 100 80) 0 0] in
  let q := Question 101 1 [lit "1.1"] in
  let s := Session false box 0 0 None None [] [q] 0
                   [Region 1 ov rc None Text (Some []) 1 1;
                    Region 2 ov rc None Table (Some (lit "1.1")) 2 2] 3
                   [Wrapper 1 img1; Wrapper 2 img2] [(0%nat, 1); (0%nat, 2)] in
  exists r,
    saveCurrentSelections measureText s (Response 101 1 [] [] [] [PartResponse (lit "1.1") [] [] []])
    = Some r
    /\ text_images r
       = [concatenateImages [createTextImage measureText (lit "Question Number 1"); img1]]
    /\ map part_table_images (parts r)
       = [[concatenateImages [createTextImage measureText (lit "Part 1.1"); img2]]].
Proof.
  cbv zeta.
  set (measureText := fun t : str => inject_Z (12 * Z.of_nat (List.length t))).
  set (q := Question 101 1 [lit "1.1"]).
  set (s := Session false box 0 0 None None [] [q] 0 _ 3 _ _).
  assert (H1 : ~ In [] (q_parts q)) by (intros [H|[]]; discriminate).
  assert (H2 : forall w, In w (sidebar s) ->
             exists r, Dispatch.region_of (regionSelections s) w = Some r
                       /\ (Dispatch.part_of r = [] \/ In (Dispatch.part_of r) (q_parts q))).
  { intros w [<-|[<-|[]]]; eexists; (split; [reflexivity|]);
      [left | right; left]; reflexivity. }
  pose proof (saveCurrentSelections_dispatch measureText s q
                (Response 101 1 [] [] [] [PartResponse (lit "1.1") [] [] []])
                eq_refl eq_refl H1 H2) as E.
  cbv zeta in E. eexists. split; [exact E|]. split; reflexivity.
Defined.

Module MergeFacts.

Lemma concatenateImages_height images :
  naturalHeight (concatenateImages images) = heights images.
Proof.
  unfold concatenateImages, toDataURL, stitch. rewrite measure_spec. reflexivity.
Qed.

End MergeFacts.

(** X15. What [handleSubmit] sends for one response.  All text images of
    the question and of its parts are merged, in that order, into at most
    one image, none when there is no text image at all; when only parts have
    text the caption of the question is put on top.  The merged image is as
    high as its pieces together.  The table and the diagram images of the
    question and then of the parts are sent one by one, in order. *)
Theorem processResponse_merges_text (measureText : str -> Q) (idx : nat) (r : response) :
  let sent := processResponse measureText idx r in
  let texts := text_images r ++ flat_map part_text_images (parts r) in
  let caption := questionCaption (response_number r) in
  (texts = [] -> payload_text_images sent = [])
  /\ (texts <> [] ->
      exists merged, payload_text_images sent = [merged]
        /\ shown merged
           = (match text_images r with [] => [Caption caption] | _ :: _ => [] end)
             ++ flat_map shown texts
        /\ naturalHeight merged
           = (match text_images r with [] => 40 | _ :: _ => 0 end) + heights texts)
  /\ payload_table_images sent
     = table_images r ++ flat_map part_table_images (parts r)
  /\ payload_diagram_images sent
     = diagram_images r ++ flat_map part_diagram_images (parts r)
  /\ original_index sent = idx
  /\ payload_question_id sent = question_id r.
Proof.
  cbv zeta. unfold processResponse.
  cbn [payload_text_images payload_table_images payload_diagram_images original_index
       payload_question_id].
  rewrite !fold_append.
  split; [|split; [|repeat split; reflexivity]].
  - intro H. apply app_eq_nil in H as [H1 H2]. rewrite H1, H2. reflexivity.
  - intro H. destruct (text_images r) as [|t ts] eqn:Et.
    + cbn [app] in *. destruct (flat_map part_text_images (parts r)) as [|x xs] eqn:Ep;
        [contradiction|].
      eexists. split; [reflexivity|]. split.
      * rewrite shown_concatenate. cbn [flat_map]. rewrite shown_concatenate, app_nil_r.
        reflexivity.
      * rewrite MergeFacts.concatenateImages_height. unfold heights at 1.
        cbn [fold_right]. rewrite MergeFacts.concatenateImages_height.
        unfold createTextImage. cbn [naturalHeight]. lia.
    + eexists. split; [reflexivity|]. split.
      * rewrite shown_concatenate. reflexivity.
      * rewrite MergeFacts.concatenateImages_height. lia.
Qed.

Lemma processResponse_merges_text_witness :
  let measureText := fun t : str => inject_Z (12 * Z.of_nat (List.length t)) in
  let crop := Image 100 80 [Placed (BoxCrop 0 20 200 100 80) 0 0] in
  let r := Response 101 1 [] [] [] [PartResponse (lit "1.1") [crop] [] []] in
  exists merged,
    payload_text_images (processResponse measureText 0 r) = [merged]
    /\ shown merged = [Caption (lit "Question Number 1"); BoxCrop 0 20 200 100 80]
    /\ naturalHeight merged = 120.
Proof.
  cbv zeta.
  set (measureText := fun t : str => inject_Z (12 * Z.of_nat (List.length t))).
  set (crop := Image 100 80 [Placed (BoxCrop 0 20 200 100 80) 0 0]).
  set (r := Response 101 1 [] [] [] [PartResponse (lit "1.1") [crop] [] []]).
  assert (Hne : text_images r ++ flat_map part_text_images (parts r) <> [])
    by discriminate.
  destruct (proj1 (proj2 (processResponse_merges_text measureText 0 r)) Hne)
    as [merged [E [Hs Hh]]].
  exists merged. split; [exact E|]. split; [exact Hs | exact Hh].
Defined.

(* ================================================================== *)
(** * Submission and access *)
(* ================================================================== *)

Module SubmitAll.

Definition all_saved (sv : server) (n : nat) : Prop :=
  forall i, (i < n)%nat -> json_ok (question_answers sv i) = true.

Lemma all_saved_spec sv n :
  forallb (fun i => json_ok (question_answers sv i)) (seq 0 n) = true <-> all_saved sv n.
Proof.
  rewrite forallb_forall. unfold all_saved. split.
  - intros H i Hi. apply H. apply in_seq. lia.
  - intros H i Hi. apply H. apply in_seq in Hi. lia.
Qed.

Lemma in_after_questions e n tail :
  (forall i, e <> PostQuestion i) ->
  In e (map PostQuestion (seq 0 n) ++ tail) <-> In e tail.
Proof.
  intro He. rewrite in_app_iff. split; [|intro H; right; exact H].
  intros [H|H]; [|exact H]. apply in_map_iff in H as [i [E _]].
  exfalso. exact (He i (eq_sym E)).
Qed.

Lemma answer_script_spec t :
  str_eqb t (lit "answer_script") = true <-> Some t = Some (lit "answer_script").
Proof.
  rewrite JSFacts.str_eqb_spec. split; [intros ->; reflexivity | intro H; inversion H].
  reflexivity.
Qed.

End SubmitAll.

(** X16. One submission.  Every question is posted first, whatever comes
    after.  The extraction is requested exactly when every question answer
    could be read and the document is the answer script; the stage is
    written (always 7) and the grading requested exactly when, in addition,
    the extraction answer could be read: neither the status codes of the
    answers nor the answer to the stage write play a part.  When one question
    answer cannot be read, nothing follows the posts, not even a message. *)
Theorem handleSubmit_outcomes (sv : server) (document_type : option str) (n : nat) :
  let events := handleSubmit sv document_type n in
  let answer_script := document_type = Some (lit "answer_script") in
  firstn n events = map PostQuestion (seq 0 n)
  /\ (In PostExtract events <-> SubmitAll.all_saved sv n /\ answer_script)
  /\ (In PostGrade events
      <-> SubmitAll.all_saved sv n /\ answer_script /\ json_ok (extract_answer sv) = true)
  /\ (forall stage, In (PostStage stage) events <-> stage = 7 /\ In PostGrade events)
  /\ (~ SubmitAll.all_saved sv n -> events = map PostQuestion (seq 0 n)).
Proof.
  cbv zeta. unfold handleSubmit.
  assert (Hlen : List.length (map PostQuestion (seq 0 n)) = n)
    by (rewrite length_map, length_seq; reflexivity).
  split.
  { rewrite firstn_app, Hlen, Nat.sub_diag. cbn [firstn]. rewrite app_nil_r.
    rewrite <- Hlen at 1. apply firstn_all. }
  rewrite <- (SubmitAll.all_saved_spec sv n).
  rewrite !SubmitAll.in_after_questions by discriminate.
  assert (Hstage : forall stage tail,
            In (PostStage stage) (map PostQuestion (seq 0 n) ++ tail)
            <-> In (PostStage stage) tail)
    by (intros; apply SubmitAll.in_after_questions; discriminate).
  destruct (forallb _ (seq 0 n)).
  - destruct document_type as [t|].
    + pose proof (SubmitAll.answer_script_spec t) as Ht.
      destruct (str_eqb t (lit "answer_script")).
      * assert (Ea : Some t = Some (lit "answer_script")) by (apply Ht; reflexivity).
        unfold postExamStage.
        destruct (json_ok (extract_answer sv)); destruct (stage_answer sv) as [|[] ?];
          (split; [|split; [|split]];
           [simpl; intuition (try discriminate; try congruence)
           |simpl; intuition (try discriminate; try congruence)
           |intro stage; rewrite Hstage, (SubmitAll.in_after_questions PostGrade) by discriminate;
            simpl;
            intuition (try discriminate; try congruence)
           |intro H; exfalso; apply H; reflexivity]).
      * assert (Ea : Some t <> Some (lit "answer_script"))
          by (intro E; apply Ht in E; discriminate).
        split; [|split; [|split]];
          [simpl; intuition (try discriminate; try congruence)
          |simpl; intuition (try discriminate; try congruence)
          |intro stage; rewrite Hstage, (SubmitAll.in_after_questions PostGrade) by discriminate;
            simpl;
           intuition (try discriminate; try congruence)
          |intro H; exfalso; apply H; reflexivity].
    + split; [|split; [|split]];
        [simpl; intuition (try discriminate; try congruence)
        |simpl; intuition (try discriminate; try congruence)
        |intro stage; rewrite Hstage, (SubmitAll.in_after_questions PostGrade) by discriminate;
            simpl;
         intuition (try discriminate; try congruence)
        |intro H; exfalso; apply H; reflexivity].
  - split; [|split; [|split]];
      [simpl; intuition (try discriminate; try congruence)
      |simpl; intuition (try discriminate; try congruence)
      |intro stage; rewrite Hstage, (SubmitAll.in_after_questions PostGrade) by discriminate;
            simpl;
       intuition (try discriminate; try congruence)
      |intros _; rewrite app_nil_r; reflexivity].
Qed.

Lemma handleSubmit_outcomes_witness :
  let sv := Server (fun i => if (i =? 1)%nat then Rejected else Responded true true)
                   (Responded true true) (Responded true true) in
  ~ SubmitAll.all_saved sv 3
  /\ handleSubmit sv (Some (lit "answer_script")) 3
     = [PostQuestion 0; PostQuestion 1; PostQuestion 2].
Proof.
  cbv zeta.
  set (sv := Server (fun i => if (i =? 1)%nat then Rejected else Responded true true)
                    (Responded true true) (Responded true true)).
  assert (H : ~ SubmitAll.all_saved sv 3).
  { intro H. specialize (H 1%nat ltac:(lia)). discriminate. }
  split; [exact H|].
  exact (proj2 (proj2 (proj2 (proj2
           (handleSubmit_outcomes sv (Some (lit "answer_script")) 3)))) H).
Defined.

Module AccessFacts.

Import Access.

Lemma answer_script_stage currentStage :
  is_answer_script (stages_at (getDocStage currentStage)) = true
  <-> 5 <= currentStage <= 8.
Proof.
  unfold getDocStage.
  destruct (Z.leb_spec currentStage 2); [split; [discriminate | lia]|].
  destruct (Z.eqb_spec currentStage 3); [split; [discriminate | lia]|].
  destruct (Z.eqb_spec currentStage 4); [split; [discriminate | lia]|].
  destruct (Z.leb_spec 5 currentStage); destruct (Z.leb_spec currentStage 8);
    cbn [andb]; split; try discriminate; try lia; reflexivity.
Qed.

End AccessFacts.

(** X17. Who gets which document.  A student is always put in sequential
    mode and is given a document only while the exam is in stage 5 to 8, and
    then the answer script; a professor is always put in dropdown mode and is
    never turned away: the document of the stage is requested, also when the
    stage has none.  Whether a submission that went through runs the
    extraction depends on the stage alone, not on the mode: it does so in
    dropdown mode as well while the stage is 5 to 8. *)
Theorem load_pdf_in_cropper_access (currentStage : Z) (is_professor : bool) :
  let setup := Access.load_pdf_in_cropper currentStage is_professor in
  (is_professor = false ->
   Access.selectMode setup = sequential
   /\ (5 <= currentStage <= 8 ->
       Access.document setup = Access.Requested (Some (lit "answer_script")))
   /\ (~ 5 <= currentStage <= 8 -> Access.document setup = Access.Denied))
  /\ (is_professor = true ->
      Access.selectMode setup = dropdown
      /\ Access.document setup = Access.Requested (document_type_of currentStage))
  /\ (forall sv n, SubmitAll.all_saved sv n ->
        (In PostExtract (handleSubmit sv (document_type_of currentStage) n)
         <-> 5 <= currentStage <= 8)).
Proof.
  cbv zeta. unfold Access.load_pdf_in_cropper.
  pose proof (AccessFacts.answer_script_stage currentStage) as Hs.
  split; [|split].
  - intros ->. cbn [negb andb]. rewrite andb_true_r.
    destruct (Access.is_answer_script _) eqn:E; cbn [negb Access.selectMode Access.document].
    + split; [reflexivity|]. split; [|intro H; exfalso; apply H, Hs; reflexivity].
      intros _. f_equal. unfold Access.is_answer_script in E.
      destruct (stages_at (getDocStage currentStage)) as [t|]; [|discriminate].
      apply JSFacts.str_eqb_spec in E. subst. reflexivity.
    + split; [reflexivity|]. split; [|reflexivity].
      intro H. apply Hs in H. discriminate.
  - intros ->. rewrite andb_false_r. split; reflexivity.
  - intros sv n Hall. unfold handleSubmit.
    rewrite SubmitAll.in_after_questions by discriminate.
    rewrite (proj2 (SubmitAll.all_saved_spec sv n) Hall). rewrite <- Hs.
    unfold document_type_of, Access.is_answer_script.
    destruct (stages_at (getDocStage currentStage)) as [t|].
    + destruct (str_eqb t (lit "answer_script")); simpl;
        intuition (try discriminate; try congruence).
    + simpl. intuition (try discriminate; try congruence).
Qed.

Lemma load_pdf_in_cropper_access_witness :
  Access.load_pdf_in_cropper 6 false
  = Access.PageSetup sequential (Access.Requested (Some (lit "answer_script")))
  /\ Access.document (Access.load_pdf_in_cropper 4 false) = Access.Denied
  /\ Access.document (Access.load_pdf_in_cropper 9 true) = Access.Requested None.
Proof.
  split; [reflexivity|]. split.
  - apply (proj1 (load_pdf_in_cropper_access 4 false) eq_refl). lia.
  - rewrite (proj2 (proj1 (proj2 (load_pdf_in_cropper_access 9 true)) eq_refl)).
    reflexivity.
Defined.

Module CollectFacts.

Lemma replace_or_push_ids r l :
  map question_id (replace_or_push r l)
  = map question_id l
    ++ (if existsb (fun x => question_id x =? question_id r) l then []
        else [question_id r]).
Proof.
  induction l as [|x l IH]; [reflexivity|]. cbn [replace_or_push existsb map].
  destruct (Z.eqb_spec (question_id x) (question_id r)) as [E|E]; cbn [orb map app].
  - rewrite app_nil_r, E. reflexivity.
  - rewrite IH. reflexivity.
Qed.

Lemma replace_or_push_in r l x :
  In x (replace_or_push r l) -> x = r \/ In x l.
Proof.
  induction l as [|y l IH]; cbn [replace_or_push].
  - intros [H|[]]. left. symmetry. exact H.
  - destruct (question_id y =? question_id r).
    + intros [H|H]; [left; symmetry; exact H | right; right; exact H].
    + intros [H|H]; [right; left; exact H|].
      destruct (IH H) as [H'|H']; [left; exact H' | right; right; exact H'].
Qed.

Lemma replace_or_push_new r l : In r (replace_or_push r l).
Proof.
  induction l as [|y l IH]; cbn [replace_or_push]; [left; reflexivity|].
  destruct (question_id y =? question_id r); [left; reflexivity | right; exact IH].
Qed.

Lemma replace_or_push_others r l x :
  In x l -> question_id x <> question_id r -> In x (replace_or_push r l).
Proof.
  induction l as [|y l IH]; intros Hin Hne; [destruct Hin|].
  cbn [replace_or_push].
  destruct (Z.eqb_spec (question_id y) (question_id r)) as [E|E].
  - destruct Hin as [<-|Hin]; [contradiction | right; exact Hin].
  - destruct Hin as [<-|Hin]; [left; reflexivity | right; apply IH; assumption].
Qed.

Lemma replace_or_push_NoDup r l :
  NoDup (map question_id l) -> NoDup (map question_id (replace_or_push r l)).
Proof.
  intro H. rewrite replace_or_push_ids.
  destruct (existsb _ l) eqn:E; [rewrite app_nil_r; exact H|].
  apply NoDup_app; [exact H | repeat constructor; intros [] |].
  intros i Hi [<-|[]]. apply in_map_iff in Hi as [x [Ex Hx]].
  assert (existsb (fun x => question_id x =? question_id r) l = true)
    by (apply existsb_exists; exists x; split; [exact Hx | apply Z.eqb_eq; exact Ex]).
  congruence.
Qed.

Lemma NoDup_map_same {A : Type} (f : A -> Z) l x y :
  NoDup (map f l) -> In x l -> In y l -> f x = f y -> x = y.
Proof.
  induction l as [|z l IH]; intros Hnd Hx Hy E; [destruct Hx|].
  cbn [map] in Hnd. inversion Hnd as [|? ? Hz Hl]; subst.
  destruct Hx as [<-|Hx]; destruct Hy as [<-|Hy]; try reflexivity.
  - exfalso. apply Hz. rewrite E. apply in_map. exact Hy.
  - exfalso. apply Hz. rewrite <- E. apply in_map. exact Hx.
  - apply IH; assumption.
Qed.

Lemma renderAllResponses_perm l : Permutation (renderAllResponses l) l.
Proof. apply SortFacts.array_sort_perm. Qed.

Lemma renderAllResponses_sorted l :
  StronglySorted (fun a b => response_number a <= response_number b)
                 (renderAllResponses l).
Proof.
  apply (SortLabels.StronglySorted_agree
           (fun a b => (response_number a - response_number b <=? 0) = true)).
  - intros a b _ _ H. apply Z.leb_le in H. lia.
  - apply (SortFacts.array_sort_sorted
             (fun a b => response_number a - response_number b <=? 0) (fun _ => True)).
    + intros x y _ _.
      destruct (Z.le_ge_cases (response_number x) (response_number y));
        [left | right]; apply Z.leb_le; lia.
    + intros x y z _ _ _ H1 H2. apply Z.leb_le in H1. apply Z.leb_le in H2.
      apply Z.leb_le. lia.
    + apply Forall_forall. intros; exact I.
Qed.

End CollectFacts.

(** X18. The collection of responses after the finish button.  In both
    modes it is shown in the order of the question numbers.  In sequential
    mode the new response is added to the ones there.  In dropdown mode the
    new response takes the place of the response of the same question, if
    there is one: a collection with one response a question stays so, holds
    the new response, and keeps exactly the responses of the other
    questions. *)
Theorem collect_keeps_one_response_per_question (r : response) (l : list response) :
  (forall mode,
     StronglySorted (fun a b => response_number a <= response_number b)
                    (collect mode r l))
  /\ Permutation (collect sequential r l) (r :: l)
  /\ (NoDup (map question_id l) ->
      NoDup (map question_id (collect dropdown r l))
      /\ forall x, In x (collect dropdown r l)
                   <-> x = r \/ (In x l /\ question_id x <> question_id r)).
Proof.
  split; [|split].
  - intros []; apply CollectFacts.renderAllResponses_sorted.
  - unfold collect. eapply Permutation_trans; [apply CollectFacts.renderAllResponses_perm|].
    apply Permutation_sym, Permutation_cons_append.
  - intro Hnd. unfold collect.
    pose proof (CollectFacts.renderAllResponses_perm (replace_or_push r l)) as HP.
    pose proof (CollectFacts.replace_or_push_NoDup r l Hnd) as Hnd'.
    split.
    + apply (Permutation_NoDup (Permutation_sym (Permutation_map question_id HP))).
      exact Hnd'.
    + intro x. split.
      * intro Hx. apply (Permutation_in _ HP) in Hx.
        destruct (CollectFacts.replace_or_push_in r l x Hx) as [E|Hin];
          [left; exact E|].
        destruct (Z.eq_dec (question_id x) (question_id r)) as [E|E];
          [|right; split; assumption].
        left. apply (CollectFacts.NoDup_map_same question_id (replace_or_push r l));
          [exact Hnd' | exact Hx | apply CollectFacts.replace_or_push_new | exact E].
      * intro H. apply (Permutation_in _ (Permutation_sym HP)).
        destruct H as [->|[Hin Hne]];
          [apply CollectFacts.replace_or_push_new
          |apply CollectFacts.replace_or_push_others; assumption].
Qed.

Lemma collect_keeps_one_response_per_question_witness :
  let old := Response 101 1 [] [] [] [] in
  let other := Response 102 2 [] [] [] [] in
  let new := Response 101 1 [Image 10 10 []] [] [] [] in
  NoDup (map question_id (collect dropdown new [other; old]))
  /\ In new (collect dropdown new [other; old])
  /\ ~ In old (collect dropdown new [other; old]).
Proof.
  cbv zeta.
  set (old := Response 101 1 [] [] [] []). set (other := Response 102 2 [] [] [] []).
  set (new := Response 101 1 [Image 10 10 []] [] [] []).
  assert (Hnd : NoDup (map question_id [other; old])).
  { repeat constructor; cbn; intuition discriminate. }
  destruct (proj2 (proj2 (collect_keeps_one_response_per_question new [other; old])) Hnd)
    as [H1 H2].
  split; [exact H1|]. split.
  - apply H2. left. reflexivity.
  - intro H. apply H2 in H as [H|[_ H]]; [discriminate | apply H; reflexivity].
Defined.

(* ================================================================== *)
(** * [removePart] and the order of the list *)
(* ================================================================== *)

Module RemoveOrder.

Import JSFacts Paths RemoveSegs RemoveSpec Contiguity SortLabels.

Lemma segments_le_app P a b : segments_le (P ++ a) (P ++ b) = segments_le a b.
Proof.
  induction P as [|x P IH]; [reflexivity|]. cbn [app segments_le].
  rewrite Z.ltb_irrefl, Z.eqb_refl, IH. reflexivity.
Qed.

Lemma segments_le_off_prefix P : forall p t t',
  prefixb P p = false -> segments_le p (P ++ t) = segments_le p (P ++ t').
Proof.
  induction P as [|x P IH]; intros p t t' H; [discriminate|].
  destruct p as [|y p]; [reflexivity|]. cbn [app segments_le]. cbn [prefixb] in H.
  destruct (Z.eqb_spec x y) as [E|E].
  - cbn [andb] in H. rewrite (IH p t t' H). reflexivity.
  - replace (y =? x) with false by (symmetry; apply Z.eqb_neq; congruence). reflexivity.
Qed.

Lemma StronglySorted_filter_keep {A : Type} (R : A -> A -> Prop) (f : A -> bool) l :
  StronglySorted R l -> StronglySorted R (filter f l).
Proof.
  induction 1 as [|x l Hs IH Hall]; [constructor|]. cbn [filter].
  destruct (f x); [|exact IH]. constructor; [exact IH|].
  rewrite Forall_forall in *. intros y Hy. apply filter_In in Hy as [Hy _].
  apply Hall. exact Hy.
Qed.

Lemma StronglySorted_map_mono {A B : Type} (R : A -> A -> Prop) (R' : B -> B -> Prop)
    (f : A -> B) l :
  (forall x y, In x l -> In y l -> R x y -> R' (f x) (f y)) ->
  StronglySorted R l -> StronglySorted R' (map f l).
Proof.
  intros H Hs. induction Hs as [|x l Hs IH Hall]; [constructor|]. cbn [map].
  constructor.
  - apply IH. intros a b Ha Hb. apply H; right; assumption.
  - rewrite Forall_forall in *. intros y Hy. apply in_map_iff in Hy as [z [<- Hz]].
    apply H; [left; reflexivity | right; exact Hz | apply Hall; exact Hz].
Qed.

Lemma StronglySorted_map_inv {A B : Type} (R' : B -> B -> Prop) (f : A -> B) l :
  StronglySorted R' (map f l) -> StronglySorted (fun a b => R' (f a) (f b)) l.
Proof.
  induction l as [|x l IH]; intro H; [constructor|]. cbn [map] in H.
  apply StronglySorted_inv in H as [H1 H2]. constructor; [apply IH; exact H1|].
  rewrite Forall_forall in *. intros y Hy. apply H2. apply in_map. exact Hy.
Qed.

(** Renumbering keeps the order of the labels that are left. *)
Lemma renumber_mono R P r p q :
  P <> [] -> contig R -> 1 <= r ->
  prefixb (P ++ [r]) p = false ->
  segments_le p q = true ->
  segments_le (renumber R P r p) (renumber R P r q) = true.
Proof.
  intros NP HC Hr Hp Hle.
  destruct (renumber_cases R P r q) as [Eq|[m [rest [Eq [Hm [Hin Eq']]]]]].
  - rewrite Eq.
    destruct (renumber_cases R P r p) as [Ep|[m [rest [Ep [Hm [Hin Ep']]]]]].
    + rewrite Ep. exact Hle.
    + rewrite Ep'. apply (segments_le_trans _ p); [|exact Hle].
      rewrite Ep, segments_le_app. cbn [segments_le].
      replace (m - 1 <? m) with true by (symmetry; apply Z.ltb_lt; lia). reflexivity.
  - rewrite Eq'.
    destruct (renumber_cases R P r p) as [Ep|[m' [rest' [Ep [Hm' [Hin' Ep']]]]]].
    + rewrite Ep. destruct (prefixb P p) eqn:EP.
      * apply prefixb_spec in EP as [tail Et]. subst p q.
        rewrite segments_le_app in *. destruct tail as [|m' rest']; [reflexivity|].
        cbn [segments_le] in *.
        destruct (Z.eq_dec m' m) as [E|E].
        { exfalso. subst m'. exact (renumber_fixed_not_hit R P r m rest' Ep Hm Hin). }
        replace (m' =? m) with false in Hle by (symmetry; apply Z.eqb_neq; exact E).
        cbn [andb] in Hle. rewrite orb_false_r in Hle. apply Z.ltb_lt in Hle.
        destruct (Z.eq_dec m' (m - 1)) as [E1|E1].
        { exfalso. rewrite prefixb_snoc in Hp. apply Z.eqb_neq in Hp.
          assert (Hm1 : In (P ++ [m - 1]) R) by (apply (HC P m NP Hin); lia).
          rewrite <- E1 in Hm1.
          apply (renumber_fixed_not_hit R P r m' rest' Ep); [lia | exact Hm1]. }
        replace (m' <? m - 1) with true by (symmetry; apply Z.ltb_lt; lia). reflexivity.
      * subst q. rewrite <- Hle. apply segments_le_off_prefix. exact EP.
    + rewrite Ep'. subst p q. rewrite segments_le_app in *. cbn [segments_le] in *.
      apply orb_true_iff in Hle as [Hle|Hle].
      * apply Z.ltb_lt in Hle.
        replace (m' - 1 <? m - 1) with true by (symmetry; apply Z.ltb_lt; lia).
        reflexivity.
      * apply andb_true_iff in Hle as [E Hle]. apply Z.eqb_eq in E. subst m'.
        rewrite Z.eqb_refl, Hle. apply orb_true_r.
Qed.

Lemma removePart_spec_sorted R lp :
  contig R -> In lp R ->
  StronglySorted (fun a b => segments_le a b = true) R ->
  StronglySorted (fun a b => segments_le a b = true) (removePart_spec R lp).
Proof.
  intros HC Hin Hs. unfold removePart_spec.
  destruct lp as [|x [|y lp']]; try (apply StronglySorted_filter_keep; exact Hs).
  set (lp := x :: y :: lp') in *.
  assert (Elp : lp = removelast lp ++ [last lp 0])
    by (apply app_removelast_last; discriminate).
  assert (NP : removelast lp <> []) by discriminate.
  assert (Hr : 1 <= last lp 0).
  { rewrite Elp in Hin. apply (HC _ _ NP Hin). }
  apply (StronglySorted_map_mono (fun a b => segments_le a b = true)).
  - intros p q Hp _ Hle. apply filter_In in Hp as [_ Hp]. apply negb_true_iff in Hp.
    apply renumber_mono; try assumption. rewrite <- Elp. exact Hp.
  - apply StronglySorted_filter_keep. exact Hs.
Qed.

End RemoveOrder.

Module RemoveOrderLabels.

Lemma removePart_sorted (labels : list str) (label : str) :
  LabelInvariant.valid labels = true -> In label labels ->
  sortPartLabels labels = labels ->
  sortPartLabels (removePart true labels label) = removePart true labels label.
Proof.
  intros Hv Hin Hsort.
  pose proof (LabelInvariant.valid_contig labels Hv) as HC.
  unfold LabelInvariant.valid in Hv. apply andb_true_iff in Hv as [Hv _].
  apply andb_true_iff in Hv as [Hwf _].
  destruct (LabelInvariant.wf_labels_paths labels Hwf) as [HL EL].
  pose proof (OrderFacts.sortPartLabels_sorted labels Hwf) as Hs. rewrite Hsort in Hs.
  rewrite forallb_forall in Hwf.
  destruct (LabelInvariant.wf_label_path label (Hwf label Hin)) as [Hlp El].
  set (R := map LabelInvariant.segs labels) in *.
  set (lp := LabelInvariant.segs label) in *.
  assert (Hinp : In lp R) by (apply in_map; exact Hin).
  assert (HR : Forall RemoveSegs.wf_path (RemoveSpec.removePart_spec R lp)).
  { rewrite <- RemoveSpec.removePart_segs_spec.
    apply LabelInvariant.removePart_segs_wf; assumption. }
  assert (E : removePart true labels label
              = map Paths.render (RemoveSpec.removePart_spec R lp)).
  { rewrite <- RemoveSpec.removePart_segs_spec. rewrite EL at 1. rewrite El at 1.
    apply RemoveSegs.removePart_render; assumption. }
  assert (HsR : StronglySorted (fun a b => SortLabels.segments_le a b = true) R).
  { rewrite EL in Hs. apply RemoveOrder.StronglySorted_map_inv in Hs.
    apply (SortLabels.StronglySorted_agree
             (fun a b => label_leb (Paths.render a) (Paths.render b) = true));
      [|exact Hs].
    intros a b Ha Hb H. rewrite Forall_forall in HL.
    rewrite <- OrderFacts.label_leb_render by (apply HL; assumption). exact H. }
  rewrite E. apply (OrderFacts.array_sort_of_sorted label_leb).
  apply (RemoveOrder.StronglySorted_map_mono
           (fun a b => SortLabels.segments_le a b = true)).
  - intros a b Ha Hb H. rewrite Forall_forall in HR.
    rewrite OrderFacts.label_leb_render by (apply HR; assumption). exact H.
  - apply RemoveOrder.removePart_spec_sorted; assumption.
Qed.

End RemoveOrderLabels.



(* ================================================================== *)
(** * The part tree of a question under the three edits *)
(* ================================================================== *)

Module Tree.

Import JSFacts Paths RemoveSegs SortFacts RemoveSpec Contiguity LabelInvariant.

(** The parent of a label of three or more segments is in the list. *)
Definition closed_at (labels : list str) (l : str) : bool :=
  match parentOf l with
  | Some parent => (depth parent <=? 1) || existsb (str_eqb parent) labels
  | None => true
  end.

(** The part tree of question [q]: a valid label set, every label below
    the question number, no part without its parent part. *)
Definition tree (q : str) (labels : list str) : bool :=
  valid labels
  && forallb (fun l => startsWith l (q ++ [dot])) labels
  && forallb (closed_at labels) labels.

(** The same on paths. *)
Definition under (qn : Z) (p : path) : Prop := exists s rest, p = qn :: s :: rest.

Definition closed (L : list path) : Prop :=
  forall Q n, (2 <= List.length Q)%nat -> In (Q ++ [n]) L -> In Q L.

Lemma question_number q :
  wf_label q = true -> depth q = 1 -> exists qn, 0 <= qn /\ q = render [qn].
Proof.
  intros Hq Hd. destruct (wf_label_path q Hq) as [[Hn Hne] E].
  rewrite E, depth_render in Hd by assumption.
  destruct (segs q) as [|qn [|x rest]]; cbn [List.length] in Hd; try lia.
  exists qn. split; [|exact E]. inversion Hn; assumption.
Qed.

Lemma under_starts qn p :
  0 <= qn -> wf_path p ->
  startsWith (render p) (render [qn] ++ [dot]) = true <-> under qn p.
Proof.
  intros Hq [Hp Np]. rewrite render_stem by discriminate.
  rewrite startsWith_render_stem; [| repeat constructor; exact Hq | exact Hp | exact Np].
  unfold under. destruct p as [|x [|s rest]]; cbn [prefixb List.length].
  - split; [discriminate | intros [s [rest H]]; discriminate].
  - rewrite andb_true_r. split; [|intros [s [rest H]]; discriminate].
    intro H. apply andb_true_iff in H as [_ H]. discriminate.
  - rewrite andb_true_r. split.
    + intro H. apply andb_true_iff in H as [H _]. apply Z.eqb_eq in H. subst.
      exists s, rest. reflexivity.
    + intros [s' [rest' H]]. inversion H; subst. rewrite Z.eqb_refl. reflexivity.
Qed.

Lemma removelast_snoc {A : Type} (l : list A) x : removelast (l ++ [x]) = l.
Proof. rewrite removelast_app by discriminate. cbn [removelast]. apply app_nil_r. Qed.

Lemma closed_at_render R p :
  Forall wf_path R -> wf_path p ->
  closed_at (map render R) (render p) = true
  <-> ((3 <= List.length p)%nat -> In (removelast p) R).
Proof.
  intros HR [Hp Np]. unfold closed_at.
  destruct (exists_last_or_nil p) as [->|[Q [n ->]]]; [contradiction|].
  apply Forall_app in Hp as [HQ Hn]. inversion Hn as [|? ? Hn0 _]; subst.
  rewrite removelast_snoc, length_app. cbn [List.length].
  destruct Q as [|x Q].
  - cbn [app]. rewrite parentOf_render_root by exact Hn0. split; [intros _ H; simpl in H; lia|].
    reflexivity.
  - rewrite parentOf_render_child by (try assumption; discriminate).
    rewrite depth_render by (try assumption; discriminate).
    rewrite orb_true_iff, Z.leb_le, existsb_exists. split.
    + intros [H|[l [Hl E]]] H3; [cbn [List.length] in *; lia|].
      apply str_eqb_spec in E. subst l.
      apply in_map_iff in Hl as [Q' [E Hl]].
      assert (Q' = x :: Q); [|subst; exact Hl].
      rewrite <- (segs_render Q'), <- (segs_render (x :: Q)), E; try reflexivity;
        try assumption; try discriminate;
        rewrite Forall_forall in HR; apply (HR Q' Hl).
    + intro H. destruct (le_lt_dec 3 (List.length (x :: Q) + 1)) as [H3|H3].
      * right. exists (render (x :: Q)). split; [|apply str_eqb_refl].
        apply in_map. apply H. exact H3.
      * left. cbn [List.length] in *. lia.
Qed.

Lemma closed_spec R :
  Forall wf_path R ->
  forallb (closed_at (map render R)) (map render R) = true <-> closed R.
Proof.
  intro HR. rewrite forallb_forall. split.
  - intros H Q n HQ Hin.
    assert (Hw : wf_path (Q ++ [n])) by (rewrite Forall_forall in HR; apply HR; exact Hin).
    specialize (H (render (Q ++ [n])) (in_map render _ _ Hin)).
    apply (closed_at_render R _ HR Hw) in H.
    + rewrite removelast_snoc in H. exact H.
    + rewrite length_app. cbn [List.length]. lia.
  - intros H l Hl. apply in_map_iff in Hl as [p [<- Hp]].
    assert (Hw : wf_path p) by (rewrite Forall_forall in HR; apply HR; exact Hp).
    apply (closed_at_render R _ HR Hw). intro H3.
    destruct (exists_last_or_nil p) as [->|[Q [n ->]]]; [simpl in H3; lia|].
    rewrite removelast_snoc. apply (H Q n); [|exact Hp].
    rewrite length_app in H3. cbn [List.length] in H3. lia.
Qed.

(** The invariant on the integers of the labels. *)
Lemma tree_paths qn labels :
  0 <= qn -> tree (render [qn]) labels = true ->
  valid labels = true
  /\ Forall wf_path (map segs labels) /\ labels = map render (map segs labels)
  /\ (forall p, In p (map segs labels) -> under qn p)
  /\ closed (map segs labels).
Proof.
  intros Hq H. unfold tree in H. apply andb_true_iff in H as [H Hc].
  apply andb_true_iff in H as [Hv Hu]. split; [exact Hv|].
  pose proof Hv as Hv'. unfold valid in Hv'. apply andb_true_iff in Hv' as [Hv' _].
  apply andb_true_iff in Hv' as [Hwf _].
  destruct (wf_labels_paths labels Hwf) as [HL EL].
  split; [exact HL|]. split; [exact EL|]. split.
  - intros p Hp. rewrite forallb_forall in Hu.
    apply (under_starts qn p Hq); [rewrite Forall_forall in HL; apply HL; exact Hp|].
    apply Hu. rewrite EL. apply in_map. exact Hp.
  - apply closed_spec; [exact HL|]. rewrite <- EL. exact Hc.
Qed.

Lemma paths_tree qn R :
  0 <= qn -> Forall wf_path R -> valid (map render R) = true ->
  (forall p, In p R -> under qn p) -> closed R ->
  tree (render [qn]) (map render R) = true.
Proof.
  intros Hq HR Hv Hu Hc. unfold tree. rewrite Hv. cbn [andb].
  apply andb_true_iff. split; [|apply closed_spec; assumption].
  apply forallb_forall. intros l Hl. apply in_map_iff in Hl as [p [<- Hp]].
  apply (under_starts qn p Hq); [rewrite Forall_forall in HR; apply HR; exact Hp|].
  apply Hu. exact Hp.
Qed.

Lemma closed_perm L L' : Permutation L L' -> closed L -> closed L'.
Proof.
  intros HP H Q n HQ Hin. apply (Permutation_in _ HP). apply (H Q n HQ).
  apply (Permutation_in _ (Permutation_sym HP)). exact Hin.
Qed.

Lemma closed_add_child L Q n :
  closed L -> In Q L \/ (List.length Q < 2)%nat -> closed (L ++ [Q ++ [n]]).
Proof.
  intros H HQ Q' n' HQ' Hin. apply in_or_app. left.
  apply in_app_or in Hin as [Hin|[Hin|[]]]; [apply (H Q' n' HQ' Hin)|].
  apply app_inj_tail in Hin as [-> _]. destruct HQ as [HQ|HQ]; [exact HQ | lia].
Qed.

Lemma closed_top L qn s : forall rest,
  closed L -> In (qn :: s :: rest) L -> In [qn; s] L.
Proof.
  intro rest. induction rest as [|x rest IH] using rev_ind; intros H Hin; [exact Hin|].
  apply IH; [exact H|].
  apply (H (qn :: s :: rest) x); [cbn [List.length]; lia | exact Hin].
Qed.

Lemma prefixb_extend lp Q x : prefixb lp Q = true -> prefixb lp (Q ++ x) = true.
Proof.
  rewrite !prefixb_spec. intros [b ->]. exists (b ++ x). symmetry. apply app_assoc.
Qed.

Lemma renumber_self L P r : renumber L P r P = P.
Proof.
  destruct (renumber_cases L P r P) as [E|[m [rest [E _]]]]; [exact E|].
  exfalso. assert (H : List.length P = List.length (P ++ m :: rest)) by (rewrite <- E; reflexivity).
  rewrite length_app in H. cbn [List.length] in H. lia.
Qed.

Lemma removePart_spec_closed L lp : closed L -> closed (removePart_spec L lp).
Proof.
  intro H. unfold removePart_spec.
  set (L0 := filter (fun p => negb (prefixb lp p)) L).
  assert (Hkeep : forall Q n, In (Q ++ [n]) L0 -> (2 <= List.length Q)%nat -> In Q L0).
  { intros Q n Hin HQ. apply filter_In in Hin as [Hin Hn]. apply filter_In.
    split; [apply (H Q n HQ Hin)|]. apply negb_true_iff in Hn. apply negb_true_iff.
    destruct (prefixb lp Q) eqn:E; [|reflexivity].
    rewrite (prefixb_extend lp Q [n] E) in Hn. discriminate. }
  assert (H0 : closed L0) by (intros Q n HQ Hin; apply (Hkeep Q n Hin HQ)).
  destruct lp as [|x [|y lp']]; try exact H0.
  set (lp := x :: y :: lp') in *. set (P := removelast lp). set (r := last lp 0).
  assert (Elp : lp = P ++ [r]) by (apply app_removelast_last; discriminate).
  assert (NP : P <> []) by discriminate.
  intros Q n HQ Hin. apply in_map_iff in Hin as [p [Ep Hp]].
  destruct (renumber_cases L P r p) as [Eid|[m [rest [Epm [Hm [Hin Eren]]]]]].
  - rewrite Eid in Ep. subst p. pose proof (Hkeep Q n Hp HQ) as HQ0.
    apply in_map_iff. exists Q. split; [|exact HQ0].
    destruct (renumber_cases L P r Q) as [E|[m [rest [EQ [Hm [Hin _]]]]]]; [exact E|].
    exfalso. subst Q. rewrite <- app_assoc in Eid. cbn [app] in Eid.
    exact (renumber_fixed_not_hit L P r m _ Eid Hm Hin).
  - rewrite Eren in Ep. symmetry in Ep.
    apply snoc_eq_cons_cases in Ep as [[-> [-> ->]]|[rest' [-> ->]]].
    + apply in_map_iff. exists P. split; [apply renumber_self|].
      subst p. apply (Hkeep P m Hp HQ).
    + apply in_map_iff. exists (P ++ m :: rest'). split; [apply renumber_hit; assumption|].
      subst p. apply (Hkeep (P ++ m :: rest') n).
      * rewrite <- app_assoc. exact Hp.
      * rewrite length_app in *. cbn [List.length] in *. lia.
Qed.

Lemma removePart_spec_under qn L lp :
  (forall p, In p L -> under qn p) ->
  forall p, In p (removePart_spec L lp) -> under qn p.
Proof.
  intros H p Hp. unfold removePart_spec in Hp.
  destruct lp as [|x [|y lp']];
    try (apply filter_In in Hp as [Hp _]; apply H; exact Hp).
  set (lp := x :: y :: lp') in *.
  assert (NP : removelast lp <> []) by discriminate.
  apply in_map_iff in Hp as [p0 [E Hp0]]. apply filter_In in Hp0 as [Hp0 _].
  specialize (H p0 Hp0).
  destruct (renumber_cases L (removelast lp) (last lp 0) p0)
    as [Eid|[m [rest [Epm [_ [_ Eren]]]]]].
  - rewrite Eid in E. subst p. exact H.
  - rewrite Eren in E. subst p p0. destruct H as [s [rest0 H]].
    destruct (removelast lp) as [|a [|b P']]; [contradiction| |].
    + cbn [app] in *. inversion H; subst. eexists. eexists. reflexivity.
    + cbn [app] in *. inversion H; subst. eexists. eexists. reflexivity.
Qed.

End Tree.

Module TreeEdits.

Import JSFacts Paths RemoveSegs SortFacts RemoveSpec Contiguity LabelInvariant Tree.

Lemma under_snoc qn Q n : under qn Q -> under qn (Q ++ [n]).
Proof. intros [s [rest ->]]. exists s, (rest ++ [n]). reflexivity. Qed.

(** A new last child under [Q], a part of the tree or the question itself. *)
Lemma add_child_tree qn R Q :
  0 <= qn -> Forall wf_path R -> valid (map render R) = true ->
  (forall p, In p R -> under qn p) -> closed R ->
  (In Q R \/ Q = [qn]) ->
  (List.length (filter (childb Q) R) < 6)%nat -> (List.length Q < 6)%nat ->
  let k := largest (map (fun p => last p 0) (filter (childb Q) R)) in
  let out := sortPartLabels (map render R ++ [render (Q ++ [k + 1])]) in
  tree (render [qn]) out = true /\ sortPartLabels out = out.
Proof.
  intros Hq HR Hv Hu Hc HQ Hroom Hdepth k out.
  assert (HwQ : wf_path Q).
  { destruct HQ as [HQ| ->]; [rewrite Forall_forall in HR; apply HR; exact HQ|].
    split; [repeat constructor; exact Hq | discriminate]. }
  destruct HwQ as [HnQ NQ].
  pose proof (valid_contig _ Hv) as HC. pose proof (valid_branching _ Hv) as HB.
  pose proof (fun p => valid_depth _ p Hv) as HD.
  rewrite (map_segs_render R HR) in HC, HB, HD.
  assert (Hk : 0 <= k) by apply AddFacts.largest_nonneg.
  assert (Hnew : wf_path (Q ++ [k + 1])) by (apply wf_path_app; [exact HnQ | lia]).
  assert (Hall : Forall wf_path (R ++ [Q ++ [k + 1]])).
  { apply Forall_app. split; [exact HR | constructor; [exact Hnew | constructor]]. }
  assert (Eall : map render R ++ [render (Q ++ [k + 1])]
                 = map render (R ++ [Q ++ [k + 1]]))
    by (rewrite map_app; reflexivity).
  assert (Hwf : forallb wf_label (map render (R ++ [Q ++ [k + 1]])) = true).
  { apply forallb_forall. intros l Hl. apply in_map_iff in Hl as [p [<- Hp]].
    apply wf_label_render. rewrite Forall_forall in Hall. apply Hall. exact Hp. }
  split.
  2:{ unfold out. rewrite Eall. apply (OrderFacts.array_sort_of_sorted label_leb).
      apply OrderFacts.sortPartLabels_sorted. exact Hwf. }
  unfold out. rewrite Eall.
  destruct (Permutation_map_inv render (R ++ [Q ++ [k + 1]])
              (array_sort_perm label_leb (map render (R ++ [Q ++ [k + 1]]))))
    as [R' [ER HPR]].
  unfold sortPartLabels. rewrite ER.
  assert (HR' : Forall wf_path R') by (eapply Permutation_Forall; [exact HPR | exact Hall]).
  assert (Hin' : forall p, In p R' -> In p R \/ p = Q ++ [k + 1]).
  { intros p Hp. apply (Permutation_in _ (Permutation_sym HPR)) in Hp.
    apply in_app_or in Hp as [Hp|[<-|[]]]; [left; exact Hp | right; reflexivity]. }
  apply paths_tree; try assumption.
  - apply valid_of_paths; [exact HR' | | |].
    + intros p Hp. destruct (Hin' p Hp) as [Hp'| ->]; [apply HD; exact Hp'|].
      rewrite length_app. cbn [List.length]. lia.
    + eapply ValidFacts.branching_perm; [exact HPR|].
      apply ValidFacts.branching_add_child; assumption.
    + eapply ValidFacts.contig_perm; [exact HPR|].
      apply ValidFacts.contig_add_child; assumption.
  - intros p Hp. destruct (Hin' p Hp) as [Hp'| ->]; [apply Hu; exact Hp'|].
    destruct HQ as [HQ| ->]; [apply under_snoc, Hu; exact HQ|].
    exists (k + 1), []. reflexivity.
  - eapply closed_perm; [exact HPR|]. apply closed_add_child; [exact Hc|].
    destruct HQ as [HQ| ->]; [left; exact HQ | right; cbn; lia].
Qed.

Lemma children_room R Q parent labels :
  Forall wf_path R -> wf_path Q -> labels = map render R -> parent = render Q ->
  Z.of_nat (List.length (directChildren labels parent)) < 6 ->
  (List.length (filter (childb Q) R) < 6)%nat.
Proof.
  intros HR [HQ NQ] -> -> H. unfold directChildren in H.
  rewrite (filter_map_agree render (is_direct_child (render Q)) (childb Q)) in H.
  - rewrite length_map in H. lia.
  - intros p Hin. rewrite Forall_forall in HR. destruct (HR p Hin).
    apply is_direct_child_render; assumption.
Qed.

Lemma second_segment qn p :
  wf_path p -> under qn p ->
  or_zero (parseInt (nth 1 (split_dot (render p)) [])) = nth 1 p 0.
Proof.
  intros [Hp Np] [s [rest ->]]. rewrite split_render by assumption.
  cbn [map nth]. inversion Hp as [|? ? _ Hp']; subst. inversion Hp' as [|? ? Hs _]; subst.
  rewrite parseInt_toString by exact Hs. reflexivity.
Qed.

Lemma Math_max_le l k : l <> [] -> (forall x, In x l -> x <= k) -> Math_max l <= k.
Proof.
  destruct l as [|x r]; intros Hne H; [contradiction|]. cbn [Math_max].
  apply fold_max_le; [apply H; left; reflexivity|].
  intros n Hn. apply H. right. exact Hn.
Qed.

(** In a tree the highest second segment is the suffix of the last
    top-level part. *)
Lemma highest_top qn R :
  R <> [] -> Forall wf_path R -> (forall p, In p R -> under qn p) -> closed R ->
  Math_max (map (fun l => or_zero (parseInt (nth 1 (split_dot l) []))) (map render R))
  = largest (map (fun p => last p 0) (filter (childb [qn]) R)).
Proof.
  intros NR HR Hu Hc. rewrite map_map.
  rewrite (map_ext_in _ (fun p => nth 1 p 0)).
  2:{ intros p Hp. apply (second_segment qn); [|apply Hu; exact Hp].
      rewrite Forall_forall in HR. apply HR. exact Hp. }
  set (secs := map (fun p => nth 1 p 0) R).
  set (lasts := map (fun p => last p 0) (filter (childb [qn]) R)).
  assert (Hne : secs <> []) by (unfold secs; destruct R; [contradiction | discriminate]).
  assert (Hsec : forall x, In x secs -> In x lasts /\ 0 <= x).
  { intros x Hx. apply in_map_iff in Hx as [p [<- Hp]].
    destruct (Hu p Hp) as [s [rest ->]]. cbn [nth]. split.
    - apply (in_child_lasts R [qn] s). apply (closed_top R qn s rest Hc Hp).
    - rewrite Forall_forall in HR. destruct (HR _ Hp) as [Hn _].
      inversion Hn as [|? ? _ Hn']; subst. inversion Hn'; assumption. }
  apply Z.le_antisymm.
  - apply Math_max_le; [exact Hne|]. intros x Hx.
    apply largest_ge. apply Hsec. exact Hx.
  - apply largest_le.
    + destruct secs as [|x r] eqn:Es; [contradiction|].
      assert (0 <= x) by (apply Hsec; left; reflexivity).
      assert (x <= Math_max (x :: r)) by (apply AddFacts.Math_max_ge; left; reflexivity).
      lia.
    + intros n Hn. apply (in_child_lasts R [qn] n) in Hn.
      apply AddFacts.Math_max_ge.
      apply (in_map (fun p => nth 1 p 0)) in Hn. exact Hn.
Qed.

Lemma addSubpart_tree_paths qn R Q :
  0 <= qn -> Forall wf_path R -> valid (map render R) = true ->
  (forall p, In p R -> under qn p) -> closed R -> In Q R ->
  let labels := map render R in
  let out := LabelTree.parts (addSubpart labels (render Q)) in
  tree (render [qn]) out = true /\ (sortPartLabels labels = labels -> sortPartLabels out = out).
Proof.
  intros Hq HL Hv Hu Hc HinQ labels out.
  assert (Ht : tree (render [qn]) labels = true) by (apply paths_tree; assumption).
  destruct (alert (addSubpart labels (render Q))) eqn:Ea.
  { assert (E : out = labels).
    { unfold out, addSubpart in *. destruct (6 <=? depth (render Q)); [reflexivity|].
      destruct (6 <=? _); [reflexivity | discriminate]. }
    rewrite E. split; [exact Ht | exact (fun H => H)]. }
  destruct (AddFacts.addSubpart_success labels (render Q) Ea) as [Hd [Hroom E]].
  assert (HwQ : wf_path Q) by (rewrite Forall_forall in HL; apply HL; exact HinQ).
  destruct HwQ as [HQ NQ].
  assert (Ecs : childSuffixes labels (render Q)
                = map (fun p => last p 0) (filter (childb Q) R))
    by (apply childSuffixes_render; [exact HL | split; assumption]).
  assert (Enew : AddFacts.newSubpart labels (render Q)
                 = render (Q ++ [largest (map (fun p => last p 0) (filter (childb Q) R)) + 1])).
  { unfold AddFacts.newSubpart. rewrite Ecs. symmetry. apply render_snoc. exact NQ. }
  unfold out. rewrite E, Enew.
  destruct (add_child_tree qn R Q Hq HL) as [H1 H2]; try assumption.
  - left. exact HinQ.
  - apply (children_room R Q (render Q) labels); try reflexivity; try assumption.
    split; assumption.
  - rewrite depth_render in Hd by assumption. lia.
  - split; [exact H1 | intros _; exact H2].
Qed.

Lemma addSubpartToQuestion_tree_paths qn R :
  0 <= qn -> Forall wf_path R -> valid (map render R) = true ->
  (forall p, In p R -> under qn p) -> closed R ->
  let labels := map render R in
  let out := LabelTree.parts (addSubpartToQuestion (render [qn]) labels) in
  tree (render [qn]) out = true /\ (sortPartLabels labels = labels -> sortPartLabels out = out).
Proof.
  intros Hq HL Hv Hu Hc labels out.
  assert (Ht : tree (render [qn]) labels = true) by (apply paths_tree; assumption).
  assert (Emain : filter (fun label => startsWith label (render [qn] ++ [dot])) labels
                  = labels).
  { apply CaptureFacts.filter_all. unfold tree in Ht. apply andb_true_iff in Ht as [Ht' _].
    apply andb_true_iff in Ht' as [_ Ht']. rewrite forallb_forall in Ht'. exact Ht'. }
  unfold out, addSubpartToQuestion. rewrite Emain.
  destruct (6 <=? Z.of_nat (List.length labels)) eqn:E6;
    [split; [exact Ht | exact (fun H => H)]|].
  apply Z.leb_gt in E6. cbn [LabelTree.parts].
  set (k := largest (map (fun p => last p 0) (filter (childb [qn]) R))).
  assert (Enew : match labels with
                 | [] => render [qn] ++ lit ".1"
                 | _ :: _ =>
                     render [qn] ++ dot ::
                       toString (Math_max (map (fun l => or_zero (parseInt (nth 1 (split_dot l) [])))
                                               labels) + 1)
                 end = render ([qn] ++ [k + 1])).
  { rewrite render_snoc by discriminate. unfold labels, k.
    destruct R as [|p0 R0] eqn:ER; [reflexivity|]. rewrite <- ER in *.
    assert (NR : R <> []) by (rewrite ER; discriminate).
    rewrite <- (highest_top qn R NR HL Hu Hc). rewrite ER. reflexivity. }
  rewrite Enew.
  destruct (add_child_tree qn R [qn] Hq HL) as [H1 H2]; try assumption.
  - right. reflexivity.
  - pose proof (filter_length_le (childb [qn]) R) as Hle.
    unfold labels in E6. rewrite length_map in E6. lia.
  - cbn. lia.
  - split; [exact H1 | intros _; exact H2].
Qed.

Lemma removePart_tree_paths qn R lp :
  0 <= qn -> Forall wf_path R -> valid (map render R) = true ->
  (forall p, In p R -> under qn p) -> closed R -> In lp R ->
  let labels := map render R in
  let out := removePart true labels (render lp) in
  tree (render [qn]) out = true /\ (sortPartLabels labels = labels -> sortPartLabels out = out).
Proof.
  intros Hq HL Hv Hu Hc Hinp labels out.
  split; [|intro Hs; apply RemoveOrderLabels.removePart_sorted;
           [exact Hv | apply in_map; exact Hinp | exact Hs]].
  pose proof (valid_contig _ Hv) as HC.
  pose proof (valid_branching _ Hv) as HB.
  pose proof (fun p => valid_depth _ p Hv) as HD.
  rewrite (map_segs_render R HL) in HC, HB, HD.
  assert (Hlp : wf_path lp) by (rewrite Forall_forall in HL; apply HL; exact Hinp).
  assert (HR : Forall wf_path (removePart_spec R lp)).
  { rewrite <- removePart_segs_spec. apply removePart_segs_wf; assumption. }
  assert (E : out = map render (removePart_spec R lp)).
  { unfold out, labels. rewrite <- removePart_segs_spec.
    apply removePart_render; assumption. }
  rewrite E. apply paths_tree; try assumption.
  - apply valid_of_paths; [exact HR | | |].
    + intros p Hp. apply removePart_spec_length in Hp as [p0 [Hp0 ->]]. apply HD. exact Hp0.
    + apply branching_removePart_spec; assumption.
    + apply contig_removePart_spec; assumption.
  - apply removePart_spec_under. exact Hu.
  - apply removePart_spec_closed. exact Hc.
Qed.

End TreeEdits.

Module EditorFacts.

Import Editor.

Lemma existsb_label l labels : existsb (str_eqb l) labels = true -> In l labels.
Proof.
  intro H. apply existsb_exists in H as [x [Hx E]].
  apply JSFacts.str_eqb_spec in E. subst. exact Hx.
Qed.

Lemma click_tree q labels e labels' :
  LabelInvariant.wf_label q = true -> depth q = 1 ->
  Tree.tree q labels = true -> sortPartLabels labels = labels ->
  click q labels e = Some labels' ->
  Tree.tree q labels' = true /\ sortPartLabels labels' = labels'.
Proof.
  intros Hwq Hdq Ht Hs H.
  destruct (Tree.question_number q Hwq Hdq) as [qn [Hq ->]].
  destruct (Tree.tree_paths qn labels Hq Ht) as [Hv [HL [EL [Hu Hc]]]].
  assert (Hv' : LabelInvariant.valid (map Paths.render (map LabelInvariant.segs labels))
                = true) by (rewrite <- EL; exact Hv).
  assert (Hwf : forall l, In l labels ->
                  l = Paths.render (LabelInvariant.segs l)).
  { intros l Hl. unfold LabelInvariant.valid in Hv. apply andb_true_iff in Hv as [Hv _].
    apply andb_true_iff in Hv as [Hwf _]. rewrite forallb_forall in Hwf.
    apply LabelInvariant.wf_label_path. apply Hwf. exact Hl. }
  destruct e as [|parentLabel|label]; cbn [click] in H.
  - inversion H; subst labels'.
    destruct (TreeEdits.addSubpartToQuestion_tree_paths qn _ Hq HL Hv' Hu Hc) as [H1 H2].
    rewrite <- EL in H1, H2. split; [exact H1 | exact (H2 Hs)].
  - destruct (existsb _ labels) eqn:Ein; [|discriminate]. inversion H; subst labels'.
    apply existsb_label in Ein.
    destruct (TreeEdits.addSubpart_tree_paths qn _ (LabelInvariant.segs parentLabel)
                Hq HL Hv' Hu Hc (in_map _ _ _ Ein)) as [H1 H2].
    rewrite <- EL, <- (Hwf _ Ein) in H1, H2. split; [exact H1 | exact (H2 Hs)].
  - destruct (existsb _ labels) eqn:Ein; [|discriminate]. inversion H; subst labels'.
    apply existsb_label in Ein.
    destruct (TreeEdits.removePart_tree_paths qn _ (LabelInvariant.segs label)
                Hq HL Hv' Hu Hc (in_map _ _ _ Ein)) as [H1 H2].
    rewrite <- EL, <- (Hwf _ Ein) in H1, H2. split; [exact H1 | exact (H2 Hs)].
Qed.

End EditorFacts.

(** X20. The part editor keeps the part tree of a question.  Starting
    from a sorted valid label set in which every label lies below the
    question number and every part has its parent part (the empty list is
    one), every sequence of clicks on the add button of the question, the
    add buttons of the parts and the remove buttons leaves such a label set:
    well-formed labels of depth at most 6, at most 6 children per parent
    numbered from 1 without gap, no part without its parent, in sorted
    order. *)
Theorem edits_keep_the_part_tree (q : str) (labels labels' : list str)
    (edits : list Editor.edit) :
  LabelInvariant.wf_label q = true -> depth q = 1 ->
  Tree.tree q labels = true -> sortPartLabels labels = labels ->
  Editor.clicks q labels edits = Some labels' ->
  Tree.tree q labels' = true /\ sortPartLabels labels' = labels'.
Proof.
  intros Hwq Hdq. revert labels.
  induction edits as [|e edits IH]; intros labels Ht Hs H.
  - inversion H; subst. split; assumption.
  - cbn [Editor.clicks] in H.
    destruct (Editor.click q labels e) as [l1|] eqn:E; [|discriminate].
    destruct (EditorFacts.click_tree q labels e l1 Hwq Hdq Ht Hs E) as [Ht1 Hs1].
    apply (IH l1 Ht1 Hs1 H).
Qed.

Lemma edits_keep_the_part_tree_witness :
  let edits :=
    [Editor.add_to_question; Editor.add_to_question; Editor.add_under (lit "3.1");
     Editor.add_under (lit "3.1"); Editor.add_to_question; Editor.remove (lit "3.1");
     Editor.add_under (lit "3.2")] in
  Editor.clicks (lit "3") [] edits = Some [lit "3.1"; lit "3.2"; lit "3.2.1"]
  /\ Tree.tree (lit "3") [lit "3.1"; lit "3.2"; lit "3.2.1"] = true.
Proof.
  cbv zeta.
  assert (E : Editor.clicks (lit "3") []
                [Editor.add_to_question; Editor.add_to_question;
                 Editor.add_under (lit "3.1"); Editor.add_under (lit "3.1");
                 Editor.add_to_question; Editor.remove (lit "3.1");
                 Editor.add_under (lit "3.2")]
              = Some [lit "3.1"; lit "3.2"; lit "3.2.1"]) by (vm_compute; reflexivity).
  split; [exact E|].
  exact (proj1 (edits_keep_the_part_tree (lit "3") [] _ _
                  eq_refl eq_refl eq_refl eq_refl E)).
Defined.

Module HeaderFacts.

Import JSFacts Paths RemoveSegs SortFacts RemoveSpec Contiguity LabelInvariant Tree.
Import Header.

Lemma source_parent_top L P r qn : P <> [] -> source_parent L P r [qn] = [qn].
Proof.
  intro NP. unfold source_parent. destruct P as [|a [|b P']]; [contradiction| |].
  - cbn [prefixb]. destruct (a =? qn); reflexivity.
  - cbn [prefixb]. destruct (a =? qn); reflexivity.
Qed.

Lemma removePart_spec_top qn L lp :
  contig L -> In lp L ->
  (List.length (filter (childb [qn]) (removePart_spec L lp))
   <= List.length (filter (childb [qn]) L))%nat.
Proof.
  intros HC Hin. unfold removePart_spec.
  destruct lp as [|x [|y lp']]; try apply filter_filter_length.
  set (lp := x :: y :: lp') in *.
  assert (Elp : lp = removelast lp ++ [last lp 0])
    by (apply app_removelast_last; discriminate).
  assert (NP : removelast lp <> []) by discriminate.
  rewrite filter_map_swap, length_map.
  etransitivity; [apply (filter_length_impl _ (childb [qn]))|apply filter_filter_length].
  intros p Hp Hc. apply filter_In in Hp as [Hp Hn]. apply negb_true_iff in Hn.
  rewrite <- (source_parent_top L (removelast lp) (last lp 0) qn NP).
  apply children_source; try assumption; rewrite <- Elp; assumption.
Qed.

Lemma top_render qn R :
  0 <= qn -> Forall wf_path R ->
  top (render [qn]) (map render R) = List.length (filter (childb [qn]) R).
Proof.
  intros Hq HR. unfold top, directChildren.
  rewrite (filter_map_agree render (is_direct_child (render [qn])) (childb [qn])).
  - apply length_map.
  - intros p Hin. rewrite Forall_forall in HR. destruct (HR p Hin).
    apply is_direct_child_render; try assumption; [repeat constructor; exact Hq | discriminate].
Qed.

Lemma removePart_top qn labels label :
  0 <= qn -> tree (render [qn]) labels = true -> In label labels ->
  (top (render [qn]) (removePart true labels label) <= top (render [qn]) labels)%nat.
Proof.
  intros Hq Ht Hin.
  destruct (tree_paths qn labels Hq Ht) as [Hv [HL [EL [Hu Hc]]]].
  pose proof (valid_contig labels Hv) as HC.
  assert (Hwfl : wf_label label = true).
  { unfold valid in Hv. apply andb_true_iff in Hv as [Hv' _].
    apply andb_true_iff in Hv' as [Hwf _]. rewrite forallb_forall in Hwf.
    apply Hwf. exact Hin. }
  destruct (wf_label_path label Hwfl) as [Hlp El].
  assert (Hinp : In (segs label) (map segs labels)) by (apply in_map; exact Hin).
  assert (E : removePart true labels label
              = map render (removePart_spec (map segs labels) (segs label))).
  { rewrite <- removePart_segs_spec. rewrite EL at 1. rewrite El at 1.
    apply removePart_render; assumption. }
  rewrite E. rewrite EL at 2. rewrite !top_render; try assumption.
  - apply removePart_spec_top; assumption.
  - rewrite <- removePart_segs_spec. apply removePart_segs_wf; assumption.
Qed.

Lemma addSubpart_top qn labels parentLabel :
  0 <= qn -> tree (render [qn]) labels = true -> In parentLabel labels ->
  top (render [qn]) (LabelTree.parts (addSubpart labels parentLabel))
  = top (render [qn]) labels.
Proof.
  intros Hq Ht Hin.
  destruct (alert (addSubpart labels parentLabel)) eqn:Ea.
  { unfold addSubpart in *. destruct (6 <=? depth parentLabel); [reflexivity|].
    destruct (6 <=? _); [reflexivity | discriminate]. }
  destruct (AddFacts.addSubpart_success labels parentLabel Ea) as [_ [_ E]]. rewrite E.
  destruct (tree_paths qn labels Hq Ht) as [Hv [HL [EL [Hu Hc]]]].
  assert (Hdp : 2 <= depth parentLabel).
  { assert (Hwfl : wf_label parentLabel = true).
    { unfold valid in Hv. apply andb_true_iff in Hv as [Hv' _].
      apply andb_true_iff in Hv' as [Hwf _]. rewrite forallb_forall in Hwf.
      apply Hwf. exact Hin. }
    destruct (wf_label_path parentLabel Hwfl) as [[Hn Hne] El].
    rewrite El, depth_render by assumption.
    destruct (Hu (segs parentLabel) (in_map _ _ _ Hin)) as [s [rest ->]].
    cbn [List.length]. lia. }
  unfold top, directChildren, sortPartLabels.
  rewrite (Permutation_length
             (AddLimits.Permutation_filter_keep _ _ _ (array_sort_perm label_leb _))).
  rewrite filter_app, length_app. cbn [filter].
  replace (is_direct_child (render [qn]) (AddFacts.newSubpart labels parentLabel))
    with false; [cbn [List.length]; lia|].
  unfold is_direct_child, AddFacts.newSubpart.
  destruct (startsWith _ _); [|reflexivity].
  rewrite AddLimits.depth_child by apply AddLimits.toString_dotfree_all.
  rewrite (depth_render [qn]) by (try discriminate; repeat constructor; exact Hq).
  cbn [List.length]. symmetry. apply Z.eqb_neq. lia.
Qed.

Lemma press_disabled q s e s' :
  wf_label q = true -> depth q = 1 ->
  tree q (part_labels s) = true -> sortPartLabels (part_labels s) = part_labels s ->
  header_enabled s = false -> press q s e = Some s' ->
  header_enabled s' = false
  /\ (top q (part_labels s') <= top q (part_labels s))%nat
  /\ tree q (part_labels s') = true
  /\ sortPartLabels (part_labels s') = part_labels s'.
Proof.
  intros Hwq Hdq Ht Hs Hoff H.
  destruct e as [|parentLabel|label].
  - cbn [press] in H. rewrite Hoff in H. discriminate.
  - cbn [press] in H.
    destruct (Editor.click q (part_labels s) (Editor.add_under parentLabel)) as [l1|] eqn:E;
      [|discriminate].
    inversion H; subst s'. cbn [header_enabled part_labels].
    destruct (EditorFacts.click_tree q _ _ _ Hwq Hdq Ht Hs E) as [Ht1 Hs1].
    split; [exact Hoff|]. split; [|split; assumption].
    cbn [Editor.click] in E. destruct (existsb _ _) eqn:Ein; [|discriminate].
    inversion E; subst l1. apply EditorFacts.existsb_label in Ein.
    destruct (question_number q Hwq Hdq) as [qn [Hq ->]].
    rewrite addSubpart_top by assumption. apply Nat.le_refl.
  - cbn [press] in H.
    destruct (Editor.click q (part_labels s) (Editor.remove label)) as [l1|] eqn:E;
      [|discriminate].
    inversion H; subst s'. cbn [header_enabled part_labels].
    destruct (EditorFacts.click_tree q _ _ _ Hwq Hdq Ht Hs E) as [Ht1 Hs1].
    split; [exact Hoff|]. split; [|split; assumption].
    cbn [Editor.click] in E. destruct (existsb _ _) eqn:Ein; [|discriminate].
    inversion E; subst l1. apply EditorFacts.existsb_label in Ein.
    destruct (question_number q Hwq Hdq) as [qn [Hq ->]].
    apply removePart_top; assumption.
Qed.

End HeaderFacts.

(** X21. Once [addSubpartToQuestion] has alerted, the add button of the
    question stays disabled: whatever is clicked afterwards, also after
    parts have been removed, no top-level part is added again (their number
    never grows) and the button is still disabled. *)
Theorem header_button_stays_disabled (q : str) (s s' : Header.editor)
    (edits : list Editor.edit) :
  LabelInvariant.wf_label q = true -> depth q = 1 ->
  Tree.tree q (Header.part_labels s) = true ->
  sortPartLabels (Header.part_labels s) = Header.part_labels s ->
  Header.header_enabled s = false ->
  Header.presses q s edits = Some s' ->
  Header.header_enabled s' = false
  /\ (Header.top q (Header.part_labels s') <= Header.top q (Header.part_labels s))%nat
  /\ ~ In Editor.add_to_question edits.
Proof.
  intros Hwq Hdq. revert s.
  induction edits as [|e edits IH]; intros s Ht Hs Hoff H.
  - inversion H; subst. split; [exact Hoff|]. split; [apply Nat.le_refl | intros []].
  - cbn [Header.presses] in H. destruct (Header.press q s e) as [s1|] eqn:E; [|discriminate].
    destruct (HeaderFacts.press_disabled q s e s1 Hwq Hdq Ht Hs Hoff E) as [H1 [H2 [H3 H4]]].
    destruct (IH s1 H3 H4 H1 H) as [I1 [I2 I3]].
    split; [exact I1|]. split; [lia|].
    intros [->|Hin]; [|exact (I3 Hin)].
    cbn [Header.press] in E. rewrite Hoff in E. discriminate.
Qed.

Lemma header_button_stays_disabled_witness :
  let labels := [lit "1.1"; lit "1.1.1"; lit "1.1.2"; lit "1.1.3"; lit "1.1.4"; lit "1.1.5"] in
  Header.press (lit "1") (Header.Editor true labels) Editor.add_to_question
  = Some (Header.Editor false labels)
  /\ Header.presses (lit "1") (Header.Editor false labels) [Editor.remove (lit "1.1")]
     = Some (Header.Editor false [])
  /\ (Header.top (lit "1") [] <= Header.top (lit "1") labels)%nat
  /\ Header.press (lit "1") (Header.Editor false []) Editor.add_to_question = None.
Proof.
  cbv zeta. split; [vm_compute; reflexivity|].
  assert (E : Header.presses (lit "1")
                (Header.Editor false
                   [lit "1.1"; lit "1.1.1"; lit "1.1.2"; lit "1.1.3"; lit "1.1.4"; lit "1.1.5"])
                [Editor.remove (lit "1.1")]
              = Some (Header.Editor false [])) by (vm_compute; reflexivity).
  split; [exact E|].
  pose proof (header_button_stays_disabled (lit "1")
                (Header.Editor false
                   [lit "1.1"; lit "1.1.1"; lit "1.1.2"; lit "1.1.3"; lit "1.1.4"; lit "1.1.5"])
                (Header.Editor false []) [Editor.remove (lit "1.1")]
                eq_refl eq_refl eq_refl eq_refl eq_refl E) as [_ [H _]].
  split; [exact H | reflexivity].
Defined.

(* ================================================================== *)
(** * The collection of responses across questions *)
(* ================================================================== *)

Module WorkflowFacts.

Import Workflow.

Lemma endSelection_static s s' :
  endSelection s = Some s' ->
  questions s' = questions s /\ currentQuestionIndex s' = currentQuestionIndex s.
Proof.
  intro H. unfold endSelection in H.
  destruct (negb (isSelecting s)); [inversion H; subst; split; reflexivity|].
  cbn [set_gesture currentOverlay cutMode currentBoxRect pathPoints] in H.
  destruct (currentOverlay s) as [ov|]; [|discriminate].
  destruct (cutMode s).
  - destruct (currentBoxRect s) as [r|]; [|inversion H; subst; split; reflexivity].
    destruct (too_small r); [inversion H; subst; split; reflexivity|].
    unfold cropAndAddImage, addRegionSelection in H.
    cbn [set_gesture questions currentQuestionIndex] in H.
    destruct (nth_error (questions s) (currentQuestionIndex s)); [|discriminate].
    inversion H; subst. split; reflexivity.
  - destruct (getBoundingBox (pathPoints s)) as [bbox|];
      [|inversion H; subst; split; reflexivity].
    destruct (too_small bbox); [inversion H; subst; split; reflexivity|].
    unfold cropWithPath, addRegionSelection in H.
    cbn [set_gesture questions currentQuestionIndex] in H.
    destruct (nth_error (questions s) (currentQuestionIndex s)); [|discriminate].
    inversion H; subst. split; reflexivity.
Qed.

Lemma deleteRegion_static s rid :
  questions (deleteRegion s rid) = questions s
  /\ currentQuestionIndex (deleteRegion s rid) = currentQuestionIndex s.
Proof.
  unfold deleteRegion. destruct (findIndex rid (regionSelections s)); [|split; reflexivity].
  destruct (nth_error (regionSelections s) n); split; reflexivity.
Qed.

Lemma capture_static s e s' :
  Page.handle s e = Some s' ->
  questions s' = questions s /\ currentQuestionIndex s' = currentQuestionIndex s.
Proof.
  intro H. destruct e as [ov x y|x y| |rid|rid|rid k part]; cbn [Page.handle] in H.
  - inversion H; subst. unfold startSelection. destruct (cutMode s); split; reflexivity.
  - inversion H; subst. unfold updateSelection.
    destruct (negb (isSelecting s)); [split; reflexivity|].
    destruct (cutMode s); split; reflexivity.
  - apply endSelection_static. exact H.
  - inversion H; subst. apply deleteRegion_static.
  - inversion H; subst.
    destruct (deleteRegion_static
                (set_regions s (regionSelections s) (regionCounter s)
                   (remove_first (fun w => wrapper_regionId w =? rid) (sidebar s))
                   (markers s)) rid) as [H1 H2].
    rewrite H1, H2. split; reflexivity.
  - inversion H; subst. split; reflexivity.
Qed.

Lemma save_ids measureText s temp r :
  saveCurrentSelections measureText s temp = Some r ->
  question_id r = question_id temp /\ response_number r = response_number temp
  /\ (currentQuestionIndex s < List.length (questions s))%nat.
Proof.
  unfold saveCurrentSelections. intro H.
  destruct (nth_error (questions s) (currentQuestionIndex s)) as [q|] eqn:Eq; [|discriminate].
  destruct (fold_left _ (sidebar s) _) as [[mainBucket pm]|]; [|discriminate].
  destruct (fold_left _ _ (Some (Assembly.parts temp))) as [ps|]; [|discriminate].
  inversion H; subst. cbn [question_id response_number].
  split; [reflexivity|]. split; [reflexivity|].
  apply nth_error_Some. rewrite Eq. discriminate.
Qed.

Lemma createTemp_id qs idx t :
  createTempResponse qs idx = Some t ->
  exists q, nth_error qs idx = Some q /\ question_id t = id q
            /\ response_number t = question_number q.
Proof.
  unfold createTempResponse. destruct (nth_error qs idx) as [q|]; [|discriminate].
  intro H. inversion H; subst. exists q. repeat split; reflexivity.
Qed.

Lemma firstn_next {A : Type} (l : list A) : forall i x,
  nth_error l i = Some x -> firstn (S i) l = firstn i l ++ [x].
Proof.
  induction l as [|y l IH]; intros i x H; [destruct i; discriminate|].
  destruct i as [|i]; cbn [nth_error] in H.
  - inversion H; subst. reflexivity.
  - cbn [firstn app] in *. rewrite (IH i x H). reflexivity.
Qed.

(** What holds in sequential mode as long as no redo is used. *)
Definition in_step (qs : list question) (st : page) : Prop :=
  let idx := currentQuestionIndex (capture st) in
  questions (capture st) = qs
  /\ (idx <= List.length qs)%nat
  /\ Permutation (map question_id (questionResponses st)) (map id (firstn idx qs))
  /\ ((idx < List.length qs)%nat -> tempResponse st = createTempResponse qs idx)
  /\ (submit_shown st = true -> idx = List.length qs).

Lemma handle_in_step measureText qs st e st' :
  in_step qs st -> (forall qid, e <> redo qid) ->
  handle measureText sequential st e = Some st' -> in_step qs st'.
Proof.
  intros [Hq [Hle [HP [Ht Hsub]]]] Hno H. unfold in_step.
  destruct e as [ce| |qid|idx]; cbn [handle] in H.
  - destruct (Page.handle (capture st) ce) as [s|] eqn:E; [|discriminate].
    inversion H; subst st'. cbn [capture tempResponse questionResponses submit_shown].
    destruct (capture_static _ _ _ E) as [E1 E2]. rewrite E1, E2.
    repeat split; assumption.
  - destruct (tempResponse st) as [temp|] eqn:Etemp; [|discriminate].
    destruct (saveCurrentSelections measureText (capture st) temp) as [r|] eqn:Es;
      [|discriminate].
    destruct (save_ids _ _ _ _ Es) as [Eid [_ Hlt]]. rewrite Hq in Hlt.
    destruct (createTemp_id _ _ _ (eq_sym (Ht Hlt))) as [q [Enth [Etid _]]].
    assert (HP' : Permutation
                    (map question_id (collect sequential r (questionResponses st)))
                    (map id (firstn (S (currentQuestionIndex (capture st))) qs))).
    { rewrite (firstn_next qs _ q Enth), map_app. cbn [map].
      unfold collect. eapply Permutation_trans;
        [apply Permutation_map, CollectFacts.renderAllResponses_perm|].
      rewrite map_app. cbn [map]. rewrite Eid, Etid.
      apply Permutation_app_tail. exact HP. }
    cbn [clearCapture set_regions questions currentQuestionIndex] in H.
    rewrite Hq in H.
    destruct (S (currentQuestionIndex (capture st)) <? List.length qs)%nat eqn:Elt.
    + destruct (createTempResponse qs (S (currentQuestionIndex (capture st))))
        as [t|] eqn:Et; [|discriminate].
      inversion H; subst st'.
      cbn [capture tempResponse questionResponses submit_shown setCurrentQuestion
           questions currentQuestionIndex].
      apply Nat.ltb_lt in Elt.
      split; [exact Hq|]. split; [lia|]. split; [exact HP'|].
      split; [intros _; symmetry; exact Et|].
      intro Hs. specialize (Hsub Hs). lia.
    + inversion H; subst st'.
      cbn [capture tempResponse questionResponses submit_shown setCurrentQuestion
           questions currentQuestionIndex].
      apply Nat.ltb_ge in Elt.
      split; [exact Hq|]. split; [lia|]. split; [exact HP'|].
      split; [intro; lia | intros _; lia].
  - exfalso. exact (Hno qid eq_refl).
  - discriminate.
Qed.

Lemma handle_unique measureText st e st' :
  NoDup (map question_id (questionResponses st)) ->
  handle measureText dropdown st e = Some st' ->
  NoDup (map question_id (questionResponses st')).
Proof.
  intros Hnd H. destruct e as [ce| |qid|idx]; cbn [handle] in H.
  - destruct (Page.handle (capture st) ce); [|discriminate]. inversion H; subst. exact Hnd.
  - destruct (tempResponse st) as [temp|]; [|discriminate].
    destruct (saveCurrentSelections measureText (capture st) temp) as [r|]; [|discriminate].
    destruct (createTempResponse _ _); [|discriminate]. inversion H; subst st'.
    cbn [questionResponses]. unfold collect.
    apply (Permutation_NoDup
             (Permutation_sym
                (Permutation_map question_id (CollectFacts.renderAllResponses_perm _)))).
    apply CollectFacts.replace_or_push_NoDup. exact Hnd.
  - destruct (existsb _ _); [|discriminate].
    destruct (question_index qid _); [|discriminate].
    destruct (createTempResponse _ _); [|discriminate]. inversion H; subst st'.
    cbn [questionResponses].
    apply (Permutation_NoDup
             (Permutation_sym
                (Permutation_map question_id (CollectFacts.renderAllResponses_perm _)))).
    rewrite (DeleteFacts.map_filter_key question_id (fun x => negb (x =? qid))).
    apply NoDup_filter. exact Hnd.
  - destruct (createTempResponse _ _); [|discriminate]. inversion H; subst. exact Hnd.
Qed.

Lemma handle_sorted measureText mode st e st' :
  StronglySorted (fun a b => response_number a <= response_number b)
                 (questionResponses st) ->
  handle measureText mode st e = Some st' ->
  StronglySorted (fun a b => response_number a <= response_number b)
                 (questionResponses st').
Proof.
  intros Hs H. destruct e as [ce| |qid|idx]; cbn [handle] in H.
  - destruct (Page.handle (capture st) ce); [|discriminate]. inversion H; subst. exact Hs.
  - destruct (tempResponse st) as [temp|]; [|discriminate].
    destruct (saveCurrentSelections measureText (capture st) temp) as [r|]; [|discriminate].
    destruct mode.
    + destruct (_ <? _)%nat; [destruct (createTempResponse _ _); [|discriminate]|];
        inversion H; subst st'; apply CollectFacts.renderAllResponses_sorted.
    + destruct (createTempResponse _ _); [|discriminate].
      inversion H; subst st'. apply CollectFacts.renderAllResponses_sorted.
  - destruct (existsb _ _); [|discriminate].
    destruct (question_index qid _); [|discriminate].
    destruct (createTempResponse _ _); [|discriminate]. inversion H; subst st'.
    apply CollectFacts.renderAllResponses_sorted.
  - destruct mode; [discriminate|].
    destruct (createTempResponse _ _); [|discriminate]. inversion H; subst. exact Hs.
Qed.

End WorkflowFacts.

(** X22. Sequential mode, as long as no redo is used.  From the first
    question on, whatever is captured and however often the finish button is
    clicked, the collection holds exactly one response for each of the
    questions before the current one and none for the others, the current
    index never passes the number of questions (a further click ends in an
    exception before anything is stored), and the submit button is shown
    only when every question has its response. *)
Theorem sequential_collects_each_question_once (measureText : str -> Q)
    (st st' : Workflow.page) (events : list Workflow.event) :
  currentQuestionIndex (Workflow.capture st) = 0%nat ->
  Workflow.questionResponses st = [] ->
  Workflow.tempResponse st = createTempResponse (questions (Workflow.capture st)) 0 ->
  Workflow.submit_shown st = false ->
  (forall qid, ~ In (Workflow.redo qid) events) ->
  Workflow.run measureText sequential st events = Some st' ->
  let qs := questions (Workflow.capture st) in
  let idx := currentQuestionIndex (Workflow.capture st') in
  questions (Workflow.capture st') = qs
  /\ (idx <= List.length qs)%nat
  /\ Permutation (map question_id (Workflow.questionResponses st')) (map id (firstn idx qs))
  /\ (Workflow.submit_shown st' = true ->
      Permutation (map question_id (Workflow.questionResponses st')) (map id qs))
  /\ (idx = List.length qs ->
      Workflow.handle measureText sequential st' Workflow.part_btn = None).
Proof.
  intros H0 Hqr Ht Hsub Hno Hrun. cbv zeta.
  set (qs := questions (Workflow.capture st)).
  assert (Hinit : WorkflowFacts.in_step qs st).
  { unfold WorkflowFacts.in_step. rewrite H0, Hqr, Hsub. cbn [firstn map].
    split; [reflexivity|]. split; [lia|]. split; [apply perm_nil|].
    split; [intros _; exact Ht | discriminate]. }
  assert (Hend : WorkflowFacts.in_step qs st').
  { clearbody qs. clear H0 Hqr Ht Hsub. revert st Hinit Hrun.
    induction events as [|e events IH]; intros st Hinit Hrun.
    - inversion Hrun; subst. exact Hinit.
    - cbn [Workflow.run] in Hrun.
      destruct (Workflow.handle measureText sequential st e) as [st1|] eqn:E;
        [|discriminate].
      apply (IH (fun qid Hin => Hno qid (or_intror Hin)) st1); [|exact Hrun].
      apply (WorkflowFacts.handle_in_step measureText qs st e st1 Hinit); [|exact E].
      intros qid ->. exact (Hno qid (or_introl eq_refl)). }
  destruct Hend as [Hq [Hle [HP [Ht' Hsub']]]].
  split; [exact Hq|]. split; [exact Hle|]. split; [exact HP|]. split.
  - intro Hs. rewrite (Hsub' Hs), firstn_all in HP. exact HP.
  - intro Hidx. cbn [Workflow.handle].
    destruct (Workflow.tempResponse st') as [temp|]; [|reflexivity].
    destruct (saveCurrentSelections measureText (Workflow.capture st') temp) as [r|] eqn:Es;
      [|reflexivity].
    destruct (WorkflowFacts.save_ids _ _ _ _ Es) as [_ [_ Hlt]]. rewrite Hq in Hlt. lia.
Qed.

Lemma sequential_collects_each_question_once_witness :
  let measureText := fun t : str => inject_Z (12 * Z.of_nat (List.length t)) in
  let qs := [Question 101 1 []; Question 102 2 []] in
  let st := Workflow.Page (Session false box 0 0 None None [] qs 0 [] 1 [] [])
                          (createTempResponse qs 0) [] false in
  let events :=
    [Workflow.on_capture (Page.mousedown (Overlay 0 2) 10 10);
     Workflow.on_capture (Page.mousemove 110 60);
     Workflow.on_capture Page.mouseup;
     Workflow.part_btn; Workflow.part_btn] in
  exists st', Workflow.run measureText sequential st events = Some st'
    /\ map question_id (Workflow.questionResponses st') = [101; 102]
    /\ Workflow.submit_shown st' = true
    /\ Workflow.handle measureText sequential st' Workflow.part_btn = None.
Proof.
  cbv zeta. eexists. split; [vm_compute; reflexivity|]. split; [vm_compute; reflexivity|].
  split; [vm_compute; reflexivity|].
  refine (proj2 (proj2 (proj2 (proj2
            (sequential_collects_each_question_once
               (fun t : str => inject_Z (12 * Z.of_nat (List.length t)))
               (Workflow.Page
                  (Session false box 0 0 None None []
                     [Question 101 1 []; Question 102 2 []] 0 [] 1 [] [])
                  (createTempResponse [Question 101 1 []; Question 102 2 []] 0) [] false)
               _
               [Workflow.on_capture (Page.mousedown (Overlay 0 2) 10 10);
                Workflow.on_capture (Page.mousemove 110 60);
                Workflow.on_capture Page.mouseup;
                Workflow.part_btn; Workflow.part_btn]
               eq_refl eq_refl eq_refl eq_refl _ _)))) _).
  - intros qid H. cbn [In] in H. intuition discriminate.
  - vm_compute. reflexivity.
  - vm_compute. reflexivity.
Defined.

(** X23. Dropdown mode, redo included.  A collection with at most one
    response a question keeps this under every event: capture, finish (the
    new response replaces the one of its question), redo, change of the
    question.  In both modes the collection stays in the order of the
    question numbers. *)
Theorem dropdown_keeps_one_response_per_question (measureText : str -> Q)
    (st st' : Workflow.page) (events : list Workflow.event) (mode : select_mode) :
  StronglySorted (fun a b => response_number a <= response_number b)
                 (Workflow.questionResponses st) ->
  Workflow.run measureText mode st events = Some st' ->
  StronglySorted (fun a b => response_number a <= response_number b)
                 (Workflow.questionResponses st')
  /\ (mode = dropdown -> NoDup (map question_id (Workflow.questionResponses st)) ->
      NoDup (map question_id (Workflow.questionResponses st'))).
Proof.
  revert st. induction events as [|e events IH]; intros st Hs Hrun.
  - inversion Hrun; subst. split; [exact Hs | intros _ H; exact H].
  - cbn [Workflow.run] in Hrun.
    destruct (Workflow.handle measureText mode st e) as [st1|] eqn:E; [|discriminate].
    destruct (IH st1 (WorkflowFacts.handle_sorted _ _ _ _ _ Hs E) Hrun) as [H1 H2].
    split; [exact H1|]. intros Hm Hnd. apply (H2 Hm). subst mode.
    apply (WorkflowFacts.handle_unique measureText st e st1 Hnd E).
Qed.

Lemma dropdown_keeps_one_response_per_question_witness :
  let measureText := fun t : str => inject_Z (12 * Z.of_nat (List.length t)) in
  let qs := [Question 101 1 []; Question 102 2 []] in
  let st := Workflow.Page (Session false box 0 0 None None [] qs 0 [] 1 [] [])
                          (createTempResponse qs 0) [] false in
  let events :=
    [Workflow.part_btn; Workflow.select_question 1; Workflow.part_btn;
     Workflow.redo 101; Workflow.part_btn; Workflow.part_btn] in
  exists st', Workflow.run measureText dropdown st events = Some st'
    /\ map question_id (Workflow.questionResponses st') = [101; 102]
    /\ NoDup (map question_id (Workflow.questionResponses st')).
Proof.
  cbv zeta. eexists. split; [vm_compute; reflexivity|]. split; [vm_compute; reflexivity|].
  refine (proj2 (dropdown_keeps_one_response_per_question
                   (fun t : str => inject_Z (12 * Z.of_nat (List.length t)))
                   (Workflow.Page
                      (Session false box 0 0 None None []
                         [Question 101 1 []; Question 102 2 []] 0 [] 1 [] [])
                      (createTempResponse [Question 101 1 []; Question 102 2 []] 0) [] false)
                   _
                   [Workflow.part_btn; Workflow.select_question 1; Workflow.part_btn;
                    Workflow.redo 101; Workflow.part_btn; Workflow.part_btn]
                   dropdown _ _) eq_refl _).
  - constructor.
  - vm_compute. reflexivity.
  - constructor.
Defined.

Module CropSize.

Lemma scaled_floor (w ratio : Q) :
  (5 <= w)%Q -> (0 <= ratio)%Q -> Qfloor (5 * ratio) <= Qfloor (w * ratio).
Proof.
  intros Hw Hr. apply Qfloor_resp_le. apply Qmult_le_compat_r; assumption.
Qed.

Definition not_tiny (ov : overlay) (w : wrapper) : Prop :=
  Qfloor (5 * ratio ov) <= naturalWidth (wrapper_src w)
  /\ Qfloor (5 * ratio ov) <= naturalHeight (wrapper_src w).

End CropSize.

(** X24. No tiny crop is ever stored.  The end of a gesture, in box or in
    freehand mode, either leaves the thumbnails as they are or adds one
    whose image is at least [floor (5 * ratio)] pixels wide and high, for the
    ratio of the overlay: at least 10 by 10 pixels on the pages that
    [renderPage] makes, whose ratio is 2. *)
Theorem stored_crop_is_not_tiny (s s' : session) (ov : overlay) :
  isSelecting s = true -> currentOverlay s = Some ov -> (0 <= ratio ov)%Q ->
  endSelection s = Some s' ->
  sidebar s' = sidebar s
  \/ exists w, sidebar s' = sidebar s ++ [w] /\ CropSize.not_tiny ov w
               /\ ((ratio ov == 2)%Q ->
                   10 <= naturalWidth (wrapper_src w)
                   /\ 10 <= naturalHeight (wrapper_src w)).
Proof.
  intros Hsel Hov Hr H.
  assert (Hten : forall w, CropSize.not_tiny ov w -> (ratio ov == 2)%Q ->
                   10 <= naturalWidth (wrapper_src w)
                   /\ 10 <= naturalHeight (wrapper_src w)).
  { intros w [H1 H2] E.
    assert (E10 : Qfloor (5 * ratio ov) = 10)
      by (rewrite (Qfloor_comp (5 * ratio ov) 10) by (rewrite E; reflexivity);
          reflexivity).
    rewrite E10 in H1, H2. split; assumption. }
  unfold endSelection in H. rewrite Hsel in H. cbn [negb] in H.
  cbn [set_gesture currentOverlay cutMode currentBoxRect pathPoints] in H.
  rewrite Hov in H. destruct (cutMode s).
  - destruct (currentBoxRect s) as [r|]; [|inversion H; subst; left; reflexivity].
    destruct (too_small r) eqn:Et; [inversion H; subst; left; reflexivity|].
    apply too_small_false in Et as [Hw Hh].
    unfold cropAndAddImage, addRegionSelection in H.
    cbn [set_gesture questions currentQuestionIndex] in H.
    destruct (nth_error (questions s) (currentQuestionIndex s)); [|discriminate].
    inversion H; subst s'. right. eexists. split; [reflexivity|].
    assert (Hn : CropSize.not_tiny ov
                   (Wrapper (regionCounter s)
                      (Image (Qfloor (width r * ratio ov)) (Qfloor (height r * ratio ov))
                         [Placed (BoxCrop (page ov) (minX r * ratio ov) (minY r * ratio ov)
                                          (width r * ratio ov) (height r * ratio ov)) 0 0])))
      by (split; cbn [wrapper_src naturalWidth naturalHeight];
          apply CropSize.scaled_floor; assumption).
    split; [exact Hn | apply Hten; exact Hn].
  - destruct (getBoundingBox (pathPoints s)) as [bbox|];
      [|inversion H; subst; left; reflexivity].
    destruct (too_small bbox) eqn:Et; [inversion H; subst; left; reflexivity|].
    apply too_small_false in Et as [Hw Hh].
    unfold cropWithPath, addRegionSelection in H.
    cbn [set_gesture questions currentQuestionIndex] in H.
    destruct (nth_error (questions s) (currentQuestionIndex s)); [|discriminate].
    inversion H; subst s'. right. eexists. split; [reflexivity|].
    assert (Hn : CropSize.not_tiny ov
                   (Wrapper (regionCounter s)
                      (Image (Qfloor (width bbox * ratio ov)) (Qfloor (height bbox * ratio ov))
                         [Placed (PathCrop (page ov) (ratio ov) (pathPoints s)) 0 0])))
      by (split; cbn [wrapper_src naturalWidth naturalHeight];
          apply CropSize.scaled_floor; assumption).
    split; [exact Hn | apply Hten; exact Hn].
Qed.

Lemma stored_crop_is_not_tiny_witness :
  let ov := Overlay 0 2 in
  let s := Session true box 10 10 (Some ov) (Some (BoxRect 10 10 7 6)) []
                   [Question 7 1 []] 0 [] 1 [] [] in
  exists s' w, endSelection s = Some s' /\ sidebar s' = [w]
    /\ 10 <= naturalWidth (wrapper_src w) /\ 10 <= naturalHeight (wrapper_src w).
Proof.
  cbv zeta.
  set (ov := Overlay 0 2).
  set (s := Session true box 10 10 (Some ov) (Some (BoxRect 10 10 7 6)) []
                    [Question 7 1 []] 0 [] 1 [] []).
  destruct (endSelection s) as [s'|] eqn:E; [|vm_compute in E; discriminate].
  assert (Hr : (0 <= ratio ov)%Q) by (unfold Qle; simpl; lia).
  destruct (stored_crop_is_not_tiny s s' ov eq_refl eq_refl Hr E) as [H|[w [Hw [_ H10]]]].
  - exfalso. vm_compute in E. inversion E; subst s'. discriminate.
  - exists s', w. split; [reflexivity|]. split; [exact Hw|].
    apply H10. reflexivity.
Defined.
